(** * Coordinate-ascent variational inference for a mixture of Gaussians

    A shallow embedding of [pyInference/mixtureOfGaussians/gmm_cavi.py].

    Numbers are the reals of the Standard Library: every float of the
    program is read as the real number it stands for, and rounding is
    left out.  Operations on which numpy raises an exception, or on
    which it yields [nan] or an infinity, end the computation in the
    model with [Raise]; an [Ok] result therefore always stands for a
    computation on finite numbers.

    Arrays are lists: a vector is a list of reals, a two-dimensional
    array the list of its rows.  [scipy.special.psi], [gammaln] and
    [multigammaln], the K-means collaborator and the random draw of the
    initial responsibilities are not part of the repository; they are
    section variables of the model.  What [main] prints and plots when
    [VERBOSE] is set is left out: it reads the parameters and writes
    none of them. *)

From stdpp Require Import base list.
From Stdlib Require Import Reals Lra Lia ZArith.

Open Scope R_scope.

(** ** Python results *)

Module Py.

Inductive exn : Set :=
| ZeroDivisionError
| ValueError
| IndexError
| LinAlgError
| NonFinite.

Inductive result (A : Type) : Type :=
| Ok (a : A)
| Raise (e : exn).

Arguments Ok {A} a.
Arguments Raise {A} e.

#[export] Instance result_ret : MRet result := fun A a => Ok a.

#[export] Instance result_bind : MBind result := fun A B f r =>
  match r with
  | Ok a => f a
  | Raise e => Raise e
  end.

#[export] Instance result_fmap : FMap result := fun A B f r =>
  match r with
  | Ok a => Ok (f a)
  | Raise e => Raise e
  end.

(** [l[i]] for a non-negative index. *)
Definition getitem {A} (l : list A) (i : nat) : result A :=
  match l !! i with
  | Some a => Ok a
  | None => Raise IndexError
  end.

(** [l[i] = a] for a non-negative index, in place. *)
Definition setitem {A} (l : list A) (i : nat) (a : A) : result (list A) :=
  if (i <? length l)%nat then Ok (<[i:=a]> l) else Raise IndexError.

(** [range(n)] for a Python integer [n]. *)
Definition range (n : Z) : list nat := seq 0 (Z.to_nat n).

(** [enumerate(l)]. *)
Definition enumerate {A} (l : list A) : list (nat * A) :=
  zip (seq 0 (length l)) l.

(** [for k in ks: s = body(k, s)], stopping at the first exception. *)
Fixpoint for_each {A T : Type} (ks : list A) (body : A → T → result T)
    (s : T) : result T :=
  match ks with
  | [] => Ok s
  | k :: ks' => s' ← body k s; for_each ks' body s'
  end.

End Py.

Export Py.

(** ** The part of numpy the program uses *)

Module Np.

Abbreviation vec := (list R).
Abbreviation mat := (list (list R)).

(** [np.finfo(np.float32).eps], two to the power -23. *)
Definition float32_eps : R := / 8388608.

(** [np.sum] of a one-dimensional array. *)
Fixpoint sum (x : vec) : R :=
  match x with
  | [] => 0
  | a :: x' => a + sum x'
  end.

(** [np.max] of a one-dimensional array; numpy refuses an empty one. *)
Definition max (x : vec) : result R :=
  match x with
  | [] => Raise ValueError
  | a :: x' => Ok (fold_left Rmax x' a)
  end.

(** [np.log] of a scalar: [nan] or [-inf] outside the positive reals. *)
Definition log (x : R) : result R :=
  if Rlt_dec 0 x then Ok (ln x) else Raise NonFinite.

(** [1 / x] and [a / x] on numpy floats: an infinity or [nan] at zero. *)
Definition div (a x : R) : result R :=
  if Req_dec_T x 0 then Raise NonFinite else Ok (a / x).

(** [c * x] for a scalar [c]. *)
Definition scal (c : R) (x : vec) : vec := map (Rmult c) x.
Definition mscal (c : R) (M : mat) : mat := map (scal c) M.

(** Shapes.  A two-dimensional array is rectangular; [ncols] reads the
    number of columns off the first row. *)
Definition nrows (M : mat) : nat := length M.
Definition ncols (M : mat) : nat :=
  match M with
  | [] => 0%nat
  | r :: _ => length r
  end.
Definition has_shape (r c : nat) (M : mat) : Prop :=
  length M = r ∧ Forall (λ row, length row = c) M.

(** [M[:, j]]. *)
Definition column (M : mat) (j : nat) : result vec :=
  mapM (λ row, getitem row j) M.

(** [np.sum(M, axis=0)] for an array with [c] columns. *)
Definition sum_axis0 (c : nat) (M : mat) : vec :=
  fold_left (zip_with Rplus) M (replicate c 0).

(** Broadcasting of two one-dimensional operands. *)
Definition broadcast2 (f : R → R → R) (x y : vec) : result vec :=
  if (length x =? length y)%nat then Ok (zip_with f x y)
  else match x, y with
       | [a], _ => Ok (map (f a) y)
       | _, [b] => Ok (map (λ a, f a b) x)
       | _, _ => Raise ValueError
       end.

(** Broadcasting of two two-dimensional operands: along the rows, then
    inside each pair of rows. *)
Definition mbroadcast2 (f : R → R → R) (A B : mat) : result mat :=
  if (length A =? length B)%nat
  then mapM (λ ab, broadcast2 f ab.1 ab.2) (zip A B)
  else match A, B with
       | [a], _ => mapM (λ b, broadcast2 f a b) B
       | _, [b] => mapM (λ a, broadcast2 f a b) A
       | _, _ => Raise ValueError
       end.

(** [aux += y]: the broadcast sum has to have the shape of [aux]. *)
Definition iadd (aux y : vec) : result vec :=
  s ← broadcast2 Rplus aux y;
  if (length s =? length aux)%nat then Ok s else Raise ValueError.

Definition miadd (aux Y : mat) : result mat :=
  Z ← mbroadcast2 Rplus aux Y;
  if (length Z =? length aux)%nat && (ncols Z =? ncols aux)%nat
  then Ok Z else Raise ValueError.

(** [target[k, :] = v] where the row has [d] entries: [v] is broadcast
    to that shape. *)
Definition fit_row (d : nat) (v : vec) : result vec :=
  if (length v =? d)%nat then Ok v
  else match v with
       | [a] => Ok (replicate d a)
       | _ => Raise ValueError
       end.

(** [target[k, :, :] = V] where the slot is [r] by [c]. *)
Definition fit_mat (r c : nat) (V : mat) : result mat :=
  rows ← mapM (fit_row c) V;
  if (length rows =? r)%nat then Ok rows
  else match rows with
       | [row] => Ok (replicate r row)
       | _ => Raise ValueError
       end.

(** [np.outer]. *)
Definition outer (x y : vec) : mat := map (λ a, scal a y) x.

(** [np.trace]: the sum of the main diagonal. *)
Fixpoint trace_from (i : nat) (M : mat) : R :=
  match M with
  | [] => 0
  | row :: M' => nth i row 0 + trace_from (S i) M'
  end.
Definition trace (M : mat) : R := trace_from 0 M.

(** [M.T] for a two-dimensional array. *)
Definition transpose (M : mat) : mat :=
  map (λ j, map (λ row, nth j row 0) M) (seq 0 (ncols M)).

(** [np.dot], by the dimensions of its operands. *)
Definition dot_vv (x y : vec) : result R :=
  if (length x =? length y)%nat then Ok (sum (zip_with Rmult x y))
  else Raise ValueError.

Definition dot_Mv (M : mat) (x : vec) : result vec :=
  mapM (λ row, dot_vv row x) M.

Definition dot_vM (x : vec) (M : mat) : result vec :=
  if (length x =? length M)%nat then dot_Mv (transpose M) x
  else Raise ValueError.

Definition dot_MM (A B : mat) : result mat :=
  mapM (λ row, dot_vM row B) A.

(** [numpy.linalg.det] and [numpy.linalg.inv] as their exact values:
    the expansion along the first row, and the adjugate over the
    determinant.  Both refuse an array that is not square, and [inv]
    refuses a singular one. *)
Definition drop_at {A} (j : nat) (l : list A) : list A :=
  take j l ++ drop (S j) l.

Definition is_square (M : mat) : bool :=
  forallb (λ row, Nat.eqb (length row) (length M)) M.

Fixpoint det_rec (n : nat) (M : mat) : R :=
  match n, M with
  | S n', row :: rows =>
      sum (imap (λ j a, (-1) ^ j * a * det_rec n' (map (drop_at j) rows)) row)
  | _, _ => 1
  end.

Definition det (M : mat) : result R :=
  if is_square M then Ok (det_rec (length M) M) else Raise LinAlgError.

Definition minor (i j : nat) (M : mat) : mat :=
  map (drop_at j) (drop_at i M).

Definition cofactor (M : mat) (i j : nat) : R :=
  (-1) ^ (i + j) * det_rec (Nat.pred (length M)) (minor i j M).

Definition inv (M : mat) : result mat :=
  d ← det M;
  if Req_dec_T d 0 then Raise LinAlgError
  else Ok (map (λ i, map (λ j, cofactor M j i / d) (seq 0 (length M)))
               (seq 0 (length M))).

End Np.

(** ** The program *)

Module Cavi.

Import Np.

Section Program.

(** [scipy.special.psi], [gammaln] and [multigammaln]. *)
Variable psi : R → R.
Variable gammaln : R → R.
Variable multigammaln : R → nat → R.

(** [K = args.k], the module-level number of components. *)
Variable K : Z.

Definition THRESHOLD : R := / 10000000000.

Definition dirichlet_expectation (alpha : vec) (k : nat) : result R :=
  a ← getitem alpha k;
  Ok (psi (a + float32_eps) - psi (Np.sum alpha)).

Definition softmax (x : vec) : result vec :=
  m ← Np.max x;
  let e_x := map (λ xi, exp (xi - m)) x in
  Ok (map (λ e, (e + float32_eps) / (Np.sum e_x + float32_eps)) e_x).

Definition update_lambda_pi (lambda_pi : vec) (lambda_phi : mat)
    (alpha_o : vec) : result vec :=
  for_each (range K) (λ k lambda_pi,
    a ← getitem alpha_o k;
    col ← column lambda_phi k;
    setitem lambda_pi k (a + Np.sum col)) lambda_pi.

Definition update_lambda_beta (lambda_beta : vec) (beta_o : R) (Nks : vec)
    : result vec :=
  for_each (range K) (λ k lambda_beta,
    nk ← getitem Nks k;
    setitem lambda_beta k (beta_o + nk)) lambda_beta.

Definition update_lambda_nu (lambda_nu : vec) (nu_o : R) (Nks : vec)
    : result vec :=
  for_each (range K) (λ k lambda_nu,
    nk ← getitem Nks k;
    setitem lambda_nu k (nu_o + nk)) lambda_nu.

(** [lambda_phi[n, k]]. *)
Definition getitem2 (M : mat) (n k : nat) : result R :=
  row ← getitem M n; getitem row k.

(** The accumulation [aux = [0., 0.]; for n in range(N): aux +=
    lambda_phi[n, k] * xn[n, :]], shared by [update_lambda_m] and
    [elbo]. *)
Definition weighted_points (lambda_phi xn : mat) (N k : nat) : result vec :=
  for_each (seq 0 N) (λ n aux,
    p ← getitem2 lambda_phi n k;
    x ← getitem xn n;
    iadd aux (scal p x)) [0; 0].

(** The same with [aux = [[0., 0.], [0., 0.]]] and [xn_xnt[n]]. *)
Definition weighted_outers (lambda_phi : mat) (xn_xnt : list mat)
    (N k : nat) : result mat :=
  for_each (seq 0 N) (λ n aux,
    p ← getitem2 lambda_phi n k;
    X ← getitem xn_xnt n;
    miadd aux (mscal p X)) [[0; 0]; [0; 0]].

Definition update_lambda_m (lambda_m lambda_phi : mat) (lambda_beta m_o : vec)
    (beta_o : R) (xn : mat) (N : nat) : result mat :=
  for_each (range K) (λ k lambda_m,
    aux ← weighted_points lambda_phi xn N k;
    s ← broadcast2 Rplus (map (λ m, m * beta_o) m_o) aux;
    b ← getitem lambda_beta k;
    q ← mapM (λ a, Np.div a b) s;
    old ← getitem lambda_m k;
    row ← fit_row (length old) q;
    setitem lambda_m k row) lambda_m.

Definition update_lambda_W (lambda_W : list mat) (lambda_phi : mat)
    (lambda_beta : vec) (lambda_m W_o : mat) (beta_o : R) (m_o : vec)
    (xn_xnt : list mat) (K : Z) (N : nat) : result (list mat) :=
  for_each (range K) (λ k lambda_W,
    aux ← weighted_outers lambda_phi xn_xnt N k;
    s1 ← mbroadcast2 Rplus W_o (outer (scal beta_o m_o) m_o);
    s2 ← mbroadcast2 Rplus s1 aux;
    b ← getitem lambda_beta k;
    m ← getitem lambda_m k;
    s3 ← mbroadcast2 Rminus s2 (outer (scal b m) m);
    old ← getitem lambda_W k;
    V ← fit_mat (nrows old) (ncols old) s3;
    setitem lambda_W k V) lambda_W.

(** [[((nu / 2.) + ((1 - i) / 2.)) for i in range(D)]]. *)
Definition psi_args (nu : R) (D : nat) : vec :=
  map (λ i : nat, nu / 2 + (1 - INR i) / 2) (seq 0 D).

(** The terms that [update_lambda_phi] adds to and takes from
    [lambda_phi[n, k]], in the order of the source. *)
Section Terms.

Variables (lambda_m : mat) (lambda_nu : vec) (lambda_W : list mat)
          (lambda_beta : vec) (xn : mat) (D : nat).

Definition phi_term1 (n k : nat) : result R :=
  m ← getitem lambda_m k;
  nu ← getitem lambda_nu k;
  W ← getitem lambda_W k;
  A ← inv W;
  x ← getitem xn n;
  y ← dot_Mv (mscal nu A) x;
  dot_vv m y.

Definition phi_term2 (n k : nat) : result R :=
  nu ← getitem lambda_nu k;
  W ← getitem lambda_W k;
  A ← inv W;
  x ← getitem xn n;
  P ← dot_MM (mscal (1 / 2 * nu) A) (outer x x);
  Ok (trace P).

Definition phi_term3 (k : nat) : result R :=
  b ← getitem lambda_beta k;
  q ← Np.div 1 b;
  Ok (INR D / 2 * q).

Definition phi_term4 (k : nat) : result R :=
  nu ← getitem lambda_nu k;
  m ← getitem lambda_m k;
  W ← getitem lambda_W k;
  A ← inv W;
  y ← dot_vM (scal nu m) A;
  d ← dot_vv y m;
  Ok (1 / 2 * d).

Definition phi_term5 : R := INR D / 2 * ln 2.

Definition phi_term6 (k : nat) : result R :=
  nu ← getitem lambda_nu k;
  Ok (1 / 2 * Np.sum (map psi (psi_args nu D))).

Definition phi_term7 (k : nat) : result R :=
  W ← getitem lambda_W k;
  d ← det W;
  l ← Np.log d;
  Ok (1 / 2 * l).

End Terms.

(** The body of the inner loop: the score written to [lambda_phi[n, k]]. *)
Definition phi_entry (lambda_pi : vec) (lambda_m : mat) (lambda_nu : vec)
    (lambda_W : list mat) (lambda_beta : vec) (xn : mat) (D n k : nat)
    (row : vec) : result vec :=
  d ← dirichlet_expectation lambda_pi k;
  row ← setitem row k d;
  t1 ← phi_term1 lambda_m lambda_nu lambda_W xn n k;
  t2 ← phi_term2 lambda_nu lambda_W xn n k;
  t3 ← phi_term3 lambda_beta D k;
  t4 ← phi_term4 lambda_m lambda_nu lambda_W k;
  t6 ← phi_term6 lambda_nu D k;
  t7 ← phi_term7 lambda_W k;
  Ok (<[k := d + t1 - t2 - t3 - t4 + phi_term5 D + t6 - t7]> row).

Definition update_lambda_phi (lambda_phi : mat) (lambda_pi : vec)
    (lambda_m : mat) (lambda_nu : vec) (lambda_W : list mat)
    (lambda_beta : vec) (xn : mat) (N : nat) (K : Z) (D : nat)
    : result mat :=
  for_each (seq 0 N) (λ n lambda_phi,
    row ← getitem lambda_phi n;
    scores ← for_each (range K)
      (phi_entry lambda_pi lambda_m lambda_nu lambda_W lambda_beta xn D n)
      row;
    p ← softmax scores;
    setitem lambda_phi n p) lambda_phi.

(** The four entries of the array that [NIW_sufficient_statistics]
    returns. *)
Record niw_stats : Type := NiwStats {
  ss0 : vec;
  ss1 : mat;
  ss2 : R;
  ss3 : R
}.

Definition NIW_sufficient_statistics (k D : nat) (lambda_nu : vec)
    (lambda_W : list mat) (lambda_m : mat) (lambda_beta : vec)
    : result niw_stats :=
  nu ← getitem lambda_nu k;
  W ← getitem lambda_W k;
  A ← inv W;
  m ← getitem lambda_m k;
  e0 ← dot_Mv (mscal nu A) m;
  let e1 := mscal (-1 / 2 * nu) A in
  b ← getitem lambda_beta k;
  q ← Np.div 1 b;
  y ← dot_vM m A;
  d ← dot_vv y m;
  let e2 := - INR D / 2 * q - 1 / 2 * nu * d in
  dt ← det W;
  l ← Np.log dt;
  let e3 := INR D / 2 * ln 2 + 1 / 2 * Np.sum (map psi (psi_args nu D))
            - 1 / 2 * l in
  Ok (NiwStats e0 e1 e2 e3).

(** [np.dot(np.log(lambda_phi[:, k]).T, lambda_phi[:, k])], the last
    term that [elbo] adds for component [k]. *)
Definition entropy_term (lambda_phi : mat) (k : nat) : result R :=
  col ← column lambda_phi k;
  lg ← mapM Np.log col;
  dot_vv lg col.

Definition elbo (lambda_phi : mat) (lambda_pi : vec) (lambda_m : mat)
    (lambda_W : list mat) (lambda_beta lambda_nu alpha_o : vec)
    (nu_o beta_o : R) (m_o : vec) (W_o xn : mat) (xn_xnt : list mat)
    (N D : nat) (Nks : vec) : result R :=
  let elbop := - (INR D * (INR N + 1) / 2 * IZR K * ln (2 * PI)) in
  let elbop := elbop - IZR K * nu_o * INR D * ln 2 / 2 in
  let elbop := elbop - IZR K * multigammaln (nu_o / 2) D in
  lb ← Np.log (Rabs beta_o);
  let elbop := elbop + INR D / 2 * IZR K * lb in
  dW ← det W_o;
  lW ← Np.log dW;
  let elbop := elbop + nu_o / 2 * IZR K * lW in
  let elboq := - (INR D / 2 * IZR K * ln (2 * PI)) in
  pq ← for_each (range K) (λ k (pq : R * R),
    let (elbop, elboq) := pq in
    aux1 ← weighted_points lambda_phi xn N k;
    aux2 ← weighted_outers lambda_phi xn_xnt N k;
    a ← getitem alpha_o k;
    let elbop := elbop - gammaln a + gammaln (Np.sum alpha_o) in
    col ← column lambda_phi k;
    de ← dirichlet_expectation alpha_o k;
    let elbop := elbop + (a - 1 + Np.sum col) * de in
    ss_niw ← NIW_sufficient_statistics k D lambda_nu lambda_W lambda_m
                lambda_beta;
    v ← broadcast2 Rplus (map (λ m, m * beta_o) m_o) aux1;
    t ← dot_vv v (ss0 ss_niw);
    let elbop := elbop + t in
    s1 ← mbroadcast2 Rplus W_o (outer (scal beta_o m_o) m_o);
    s2 ← mbroadcast2 Rplus s1 aux2;
    P ← dot_MM (transpose s2) (ss1 ss_niw);
    let elbop := elbop + trace P in
    nk ← getitem Nks k;
    let elbop := elbop + (beta_o + nk) * ss2 ss_niw in
    let elbop := elbop + (nu_o + INR D + 2 + nk) * ss3 ss_niw in
    p ← getitem lambda_pi k;
    let elboq := elboq - gammaln p + gammaln (Np.sum lambda_pi) in
    dq ← dirichlet_expectation lambda_pi k;
    let elboq := elboq + (p - 1 + Np.sum col) * dq in
    m ← getitem lambda_m k;
    b ← getitem lambda_beta k;
    t ← dot_vv (map (λ mi, mi * b) m) (ss0 ss_niw);
    let elboq := elboq + t in
    W ← getitem lambda_W k;
    s ← mbroadcast2 Rplus W (outer (scal b m) m);
    Q ← dot_MM (transpose s) (ss1 ss_niw);
    let elboq := elboq + trace Q in
    let elboq := elboq + b * ss2 ss_niw in
    nu ← getitem lambda_nu k;
    let elboq := elboq + (nu + INR D + 2) * ss3 ss_niw in
    let elboq := elboq - nu * INR D / 2 * ln 2 in
    let elboq := elboq - multigammaln (nu / 2) D in
    lb ← Np.log (Rabs b);
    let elboq := elboq + INR D / 2 * lb in
    dW ← det W;
    lW ← Np.log dW;
    let elboq := elboq + nu / 2 * lW in
    h ← entropy_term lambda_phi k;
    Ok (elbop, elboq + h)) (elbop, elboq);
  Ok (pq.1 - pq.2).

(** [KMeans(K).fit(xn).predict(xn)] and [np.random.dirichlet(alpha, N)]:
    the labels the clustering collaborator answers, and the matrix the
    generator draws in this run. *)
Variable KMeans_fit_predict : Z → mat → result (list nat).
Variable np_random_dirichlet : vec → nat → result mat.

Definition init_kmeans (xn : mat) (N : nat) (K : Z) : result mat :=
  if (K - 1 =? 0)%Z then Raise ZeroDivisionError
  else
    let c := 0.1 / IZR (K - 1) in
    if (K <? 0)%Z then Raise ValueError
    else
      let lambda_phi := replicate N (replicate (Z.to_nat K) (c * 1)) in
      labels ← KMeans_fit_predict K xn;
      for_each (enumerate labels) (λ (il : nat * nat) lambda_phi,
        row ← getitem lambda_phi il.1;
        row ← setitem row il.2 0.9;
        setitem lambda_phi il.1 row) lambda_phi.

(** The variational parameters, and what [main] holds when it leaves
    the loop: [stopped] tells whether it left through [break]. *)
Record params : Type := Params {
  lambda_phi : mat;
  lambda_pi : vec;
  lambda_beta : vec;
  lambda_nu : vec;
  lambda_m : mat;
  lambda_W : list mat
}.

Record run : Type := Run {
  final : params;
  lbs : list R;
  n_iters : nat;
  stopped : bool
}.

(** The priors of [main]. *)
Definition alpha_o : vec := replicate (Z.to_nat K) 1.
Definition nu_o : R := 3.
Definition W_o : mat := [[20; 30]; [25; 40]].
Definition m_o : vec := [0; 0].
Definition beta_o : R := 0.7.

(** [np.zeros(shape=K)] and its two- and three-dimensional forms. *)
Definition zeros (n : Z) : result vec :=
  if (n <? 0)%Z then Raise ValueError
  else Ok (replicate (Z.to_nat n) 0).

Definition initial_params (RANDOM_INIT : bool) (xn : mat) (N D : nat)
    : result params :=
  phi ← (if RANDOM_INIT then np_random_dirichlet alpha_o N
         else init_kmeans xn N K);
  z ← zeros K;
  Ok (Params phi z z z
        (replicate (Z.to_nat K) (replicate D 0))
        (replicate (Z.to_nat K) (replicate D (replicate D 0)))).

(** The six updates of one pass of the loop; [Nks] is handed on to
    [elbo]. *)
Definition sweep (p : params) (xn : mat) (xn_xnt : list mat) (N D : nat)
    : result (params * vec) :=
  lambda_pi ← update_lambda_pi (lambda_pi p) (lambda_phi p) alpha_o;
  let Nks := sum_axis0 (Z.to_nat K) (lambda_phi p) in
  lambda_beta ← update_lambda_beta (lambda_beta p) beta_o Nks;
  lambda_nu ← update_lambda_nu (lambda_nu p) nu_o Nks;
  lambda_m ← update_lambda_m (lambda_m p) (lambda_phi p) lambda_beta m_o
                beta_o xn N;
  lambda_W ← update_lambda_W (lambda_W p) (lambda_phi p) lambda_beta
                lambda_m W_o beta_o m_o xn_xnt K N;
  lambda_phi ← update_lambda_phi (lambda_phi p) lambda_pi lambda_m
                  lambda_nu lambda_W lambda_beta xn N K D;
  Ok (Params lambda_phi lambda_pi lambda_beta lambda_nu lambda_m lambda_W,
      Nks).

(** [for i in range(MAX_ITERS): ...] with its [break]. *)
Fixpoint iterate (idx : list nat) (xn : mat) (xn_xnt : list mat) (N D : nat)
    (p : params) (lbs : list R) (n_iters : nat) : result run :=
  match idx with
  | [] => Ok (Run p lbs n_iters false)
  | i :: idx' =>
      pn ← sweep p xn xn_xnt N D;
      let p := pn.1 in
      lb ← elbo (lambda_phi p) (lambda_pi p) (lambda_m p) (lambda_W p)
              (lambda_beta p) (lambda_nu p) alpha_o nu_o beta_o m_o W_o
              xn xn_xnt N D pn.2;
      let lbs := lbs ++ [lb] in
      let n_iters := S n_iters in
      match i with
      | O => iterate idx' xn xn_xnt N D p lbs n_iters
      | S j =>
          prev ← getitem lbs j;
          if Rlt_dec (Rabs (lb - prev)) THRESHOLD
          then Ok (Run p lbs n_iters true)
          else iterate idx' xn xn_xnt N D p lbs n_iters
      end
  end.

(** [main], for the dataset [xn] of shape [(N, D)]. *)
Definition main (MAX_ITERS : Z) (RANDOM_INIT : bool) (xn : mat) (N D : nat)
    : result run :=
  p ← initial_params RANDOM_INIT xn N D;
  xn_xnt ← mapM (λ n, x ← getitem xn n; Ok (outer x x)) (seq 0 N);
  iterate (range MAX_ITERS) xn xn_xnt N D p [] 0.

End Program.

(** ** The update of [lambda_W] in the words of the specification *)

Module Spec.

Import Np.

Definition madd (A B : mat) : mat := zip_with (zip_with Rplus) A B.
Definition msub (A B : mat) : mat := zip_with (zip_with Rminus) A B.
Definition mzero (D : nat) : mat := replicate D (replicate D 0).

(** The sum of a sequence of [D] by [D] matrices. *)
Definition msum (D : nat) (Ms : list mat) : mat :=
  fold_left madd Ms (mzero D).

(** [W_o + beta_o * outer(m_o, m_o)
     + Σ_n lambda_phi[n,k] * outer(x_n, x_n)
     − lambda_beta[k] * outer(lambda_m[k], lambda_m[k])],
    where [phi_k] is the column [lambda_phi[:, k]]. *)
Definition lambda_W_closed_form (D : nat) (W_o : mat) (beta_o : R)
    (m_o phi_k : vec) (xn : mat) (beta_k : R) (m_k : vec) : mat :=
  msub (madd (madd W_o (mscal beta_o (outer m_o m_o)))
             (msum D (zip_with (λ p x, mscal p (outer x x)) phi_k xn)))
       (mscal beta_k (outer m_k m_k)).

End Spec.

(** A symmetric matrix is its own transpose. *)
Definition symmetric (M : mat) : Prop := transpose M = M.

(** A two by two array of positive determinant. *)
Definition pos_det_2x2 (W : mat) : Prop :=
  ∃ a b c d, W = [[a; b]; [c; d]] ∧ 0 < a * d - b * c.

(** The weighted sum [Σ_n p_n * f(x_n)] over points [x_n] of the plane,
    [f] a function of their two coordinates. *)
Definition wsum (f : R → R → R) (col : vec) (xn : mat) : R :=
  Np.sum (zip_with (λ p x, p * f (nth 0 x 0) (nth 1 x 0)) col xn).

(** The shapes of the variational parameters for [K] components and
    [N] points of the plane. *)
Definition params_shape (K : Z) (N : nat) (p : params) : Prop :=
  has_shape N (Z.to_nat K) (lambda_phi p) ∧
  length (lambda_pi p) = Z.to_nat K ∧
  length (lambda_beta p) = Z.to_nat K ∧
  length (lambda_nu p) = Z.to_nat K ∧
  has_shape (Z.to_nat K) 2 (lambda_m p) ∧
  length (lambda_W p) = Z.to_nat K ∧
  Forall (has_shape 2 2) (lambda_W p).

(** The condition of the [break] of [main] at sweep [i], on the trace
    [lbs]: [i > 0] and [|lbs[i] - lbs[i - 1]| < THRESHOLD]. *)
Definition converged_at (lbs : list R) (i : nat) : Prop :=
  (0 < i)%nat ∧
  ∃ lb prev, lbs !! i = Some lb ∧ lbs !! (i - 1)%nat = Some prev ∧
             Rabs (lb - prev) < THRESHOLD.

(** ** Example data *)

(** Ten components that differ in their means only, and one point at
    the origin. *)
Definition K10_lambda_phi : mat := [replicate 10 (1 / 10)].
Definition K10_lambda_pi : vec := replicate 10 1.
Definition K10_lambda_m : mat := [0; 0] :: replicate 9 [16; 0].
Definition K10_lambda_nu : vec := replicate 10 2.
Definition K10_lambda_W : list mat := replicate 10 [[1; 0]; [0; 1]].
Definition K10_lambda_beta : vec := replicate 10 1.
Definition K10_xn : mat := [[0; 0]].

(** One component with the prior scale matrix of [main] as its
    [lambda_W], which is not symmetric. *)
Definition A1_lambda_m : mat := [[1; 0]].
Definition A1_lambda_nu : vec := [1].
Definition A1_lambda_W : list mat := [[[20; 30]; [25; 40]]].
Definition A1_lambda_beta : vec := [1].
Definition A1_xn : mat := [[0; 1]].

(** Two points of the plane, the labels a clustering gives them, and
    parameters of the shapes of [main] for two components. *)
Definition ex_xn : mat := [[0; 0]; [4; 3]].
Definition ex_KMeans : Z → mat → result (list nat) :=
  λ _ _, Ok [0%nat; 1%nat].
Definition ex_p0 : params :=
  Params [[0.9; 0.1]; [0.1; 0.9]] [0; 0] [0; 0] [0; 0] [[0; 0]; [0; 0]]
    [[[0; 0]; [0; 0]]; [[0; 0]; [0; 0]]].

(** The draw of the responsibilities for a single component: every row
    is [[1.]]. *)
Definition K1_dirichlet : vec → nat → result mat :=
  λ _ N, Ok (replicate N [1]).

(** A component with a symmetric scale matrix. *)
Definition S1_lambda_W : list mat := [[[2; 1]; [1; 2]]].

(** A point of three coordinates, with arrays of that dimension. *)
Definition D3_xn : mat := [[1; 2; 3]].
Definition D3_lambda_phi : mat := [[1]].
Definition D3_lambda_beta : vec := [1].
Definition D3_lambda_m : mat := [[0; 0; 0]].
Definition D3_W_o : mat := [[1; 0; 0]; [0; 1; 0]; [0; 0; 1]].
Definition D3_m_o : vec := [0; 0; 0].
Definition D3_lambda_W : list mat := [[[0; 0; 0]; [0; 0; 0]; [0; 0; 0]]].

(** The same in one dimension. *)
Definition D1_xn : mat := [[1]].
Definition D1_lambda_m : mat := [[0]].
Definition D1_W_o : mat := [[1]].
Definition D1_m_o : vec := [0].
Definition D1_lambda_W : list mat := [[[0]]].

(** ** The values that the loops write *)

(** The score that [update_lambda_phi] leaves in [lambda_phi[n, k]]
    before the row goes through [softmax]. *)
Definition phi_score (psi : R → R) (lambda_pi : vec) (lambda_m : mat)
    (lambda_nu : vec) (lambda_W : list mat) (lambda_beta : vec) (xn : mat)
    (D n k : nat) : result R :=
  d ← dirichlet_expectation psi lambda_pi k;
  t1 ← phi_term1 lambda_m lambda_nu lambda_W xn n k;
  t2 ← phi_term2 lambda_nu lambda_W xn n k;
  t3 ← phi_term3 lambda_beta D k;
  t4 ← phi_term4 lambda_m lambda_nu lambda_W k;
  t6 ← phi_term6 psi lambda_nu D k;
  t7 ← phi_term7 lambda_W k;
  Ok (d + t1 - t2 - t3 - t4 + phi_term5 D + t6 - t7).

(** The row it writes for point [n]. *)
Definition phi_row (psi : R → R) (lambda_pi : vec) (lambda_m : mat)
    (lambda_nu : vec) (lambda_W : list mat) (lambda_beta : vec) (xn : mat)
    (K : Z) (D n : nat) : result vec :=
  scores ← mapM (phi_score psi lambda_pi lambda_m lambda_nu lambda_W
                   lambda_beta xn D n) (range K);
  softmax scores.

(** The value [update_lambda_m] writes to [lambda_m[k, :]], a row of
    [d] entries. *)
Definition lambda_m_row (lambda_phi : mat) (lambda_beta m_o : vec)
    (beta_o : R) (xn : mat) (N d k : nat) : result vec :=
  aux ← weighted_points lambda_phi xn N k;
  s ← broadcast2 Rplus (map (λ m, m * beta_o) m_o) aux;
  b ← getitem lambda_beta k;
  q ← mapM (λ a, Np.div a b) s;
  fit_row d q.

(** The value [update_lambda_W] writes to [lambda_W[k, :, :]], a slot
    of [d] by [d] entries. *)
Definition lambda_W_slot (lambda_phi : mat) (lambda_beta : vec)
    (lambda_m W_o : mat) (beta_o : R) (m_o : vec) (xn_xnt : list mat)
    (N d k : nat) : result mat :=
  aux ← weighted_outers lambda_phi xn_xnt N k;
  s1 ← mbroadcast2 Rplus W_o (outer (scal beta_o m_o) m_o);
  s2 ← mbroadcast2 Rplus s1 aux;
  b ← getitem lambda_beta k;
  m ← getitem lambda_m k;
  s3 ← mbroadcast2 Rminus s2 (outer (scal b m) m);
  fit_mat d d s3.

(** The shapes of the variational parameters for [K] components and
    [N] points of dimension [D], as [main] allocates them. *)
Definition params_shape_in (K : Z) (N D : nat) (p : params) : Prop :=
  has_shape N (Z.to_nat K) (lambda_phi p) ∧
  length (lambda_pi p) = Z.to_nat K ∧
  length (lambda_beta p) = Z.to_nat K ∧
  length (lambda_nu p) = Z.to_nat K ∧
  has_shape (Z.to_nat K) D (lambda_m p) ∧
  length (lambda_W p) = Z.to_nat K ∧
  Forall (has_shape D D) (lambda_W p).

(** A symmetric positive-definite two by two array. *)
Definition spd_2x2 (W : mat) : Prop :=
  ∃ a b d, W = [[a; b]; [b; d]] ∧ 0 < a ∧ 0 < a * d - b * b.

(** ** More example data *)

(** Two points of the line. *)
Definition line_xn : mat := [[1]; [2]].

(** A clustering that answers a label outside [range(2)]. *)
Definition far_KMeans : Z → mat → result (list nat) :=
  λ _ _, Ok [0%nat; 5%nat].

(** The responsibilities of [ex_p0] with other arrays of the same
    shapes. *)
Definition ex_p1 : params :=
  Params [[0.9; 0.1]; [0.1; 0.9]] [1; 1] [1; 1] [1; 1] [[1; 1]; [1; 1]]
    [[[1; 1]; [1; 1]]; [[1; 1]; [1; 1]]].

(** A symmetric positive-definite prior scale matrix. *)
Definition S_W_o : mat := [[2; 1]; [1; 2]].

(** Two points, the second at the origin, and responsibilities of ten
    components for them. *)
Definition K10_xn2 : mat := [[3; 4]; [0; 0]].
Definition K10_lambda_phi2 : mat := [replicate 10 0; replicate 10 0].


(** Two columns of [lambda_phi] that agree in every row, and two
    components that agree in all their parameters. *)
Definition tied (k1 k2 : nat) (lambda_phi : mat) : Prop :=
  Forall (λ row : vec, row !! k1 = row !! k2) lambda_phi.

Definition tied_params (k1 k2 : nat) (p : params) : Prop :=
  lambda_pi p !! k1 = lambda_pi p !! k2 ∧
  lambda_beta p !! k1 = lambda_beta p !! k2 ∧
  lambda_nu p !! k1 = lambda_nu p !! k2 ∧
  lambda_m p !! k1 = lambda_m p !! k2 ∧
  lambda_W p !! k1 = lambda_W p !! k2 ∧
  tied k1 k2 (lambda_phi p).

(** Two components with the same responsibilities for both example
    points, as parameters and as a draw. *)
Definition tie_p0 : params :=
  Params [[0.5; 0.5]; [0.5; 0.5]] [0; 0] [0; 0] [0; 0] [[0; 0]; [0; 0]]
    [[[0; 0]; [0; 0]]; [[0; 0]; [0; 0]]].

Definition tie_dirichlet : vec → nat → result mat :=
  λ _ _, Ok [[0.5; 0.5]; [0.5; 0.5]].

(** ** Reasoning about results and loops *)

Lemma bind_Ok {A B} (m : result A) (f : A → result B) (b : B) :
  m ≫= f = Ok b ↔ ∃ a, m = Ok a ∧ f a = Ok b.
Proof.
  destruct m as [a|e]; simpl; split.
  - intros H. exists a. auto.
  - intros (a' & Ha & Hf). congruence.
  - discriminate.
  - intros (a' & Ha & _). discriminate.
Qed.

Lemma getitem_Ok {A} (l : list A) (i : nat) (a : A) :
  getitem l i = Ok a ↔ l !! i = Some a.
Proof.
  unfold getitem. destruct (l !! i); split; congruence.
Qed.

Lemma setitem_Ok {A} (l l' : list A) (i : nat) (a : A) :
  setitem l i a = Ok l' ↔ (i < length l)%nat ∧ l' = <[i:=a]> l.
Proof.
  unfold setitem. destruct (Nat.ltb_spec i (length l)); split.
  - intros [= <-]. auto.
  - intros [_ ->]. reflexivity.
  - discriminate.
  - intros [? _]. lia.
Qed.

Lemma getitem_Some {A} (l : list A) (i : nat) (a : A) :
  l !! i = Some a → getitem l i = Ok a.
Proof. apply getitem_Ok. Qed.

Lemma setitem_lt {A} (l : list A) (i : nat) (a : A) :
  (i < length l)%nat → setitem l i a = Ok (<[i:=a]> l).
Proof. intros Hi. by apply setitem_Ok. Qed.

Ltac inv_result :=
  repeat match goal with
  | H : _ ≫= _ = Ok _ |- _ =>
      apply bind_Ok in H; destruct H as (? & ? & H)
  | H : Ok _ = Ok _ |- _ => injection H as H
  | H : Raise _ = Ok _ |- _ => discriminate H
  | H : getitem _ _ = Ok _ |- _ => apply getitem_Ok in H
  | H : setitem _ _ _ = Ok _ |- _ => apply setitem_Ok in H; destruct H as [? H]
  end.

(** The invariant rule of [for k in range(a, a + n)]. *)
Lemma for_each_seq_inv {T} (P : nat → T → Prop) (body : nat → T → result T)
    (n a : nat) (s s' : T) :
  for_each (seq a n) body s = Ok s' →
  P a s →
  (∀ k t t', (a ≤ k < a + n)%nat → P k t → body k t = Ok t' → P (S k) t') →
  P (a + n)%nat s'.
Proof.
  revert a s. induction n as [|n IH]; intros a s Hrun Hinit Hstep.
  - simpl in Hrun. injection Hrun as <-. by rewrite Nat.add_0_r.
  - simpl in Hrun. apply bind_Ok in Hrun as (t & Hbody & Hrun).
    replace (a + S n)%nat with (S a + n)%nat by lia.
    apply (IH (S a) t); [done| |].
    + apply (Hstep a s t); [lia|done|done].
    + intros k u u' Hk. apply Hstep. lia.
Qed.

(** Its total form: a body that answers under the invariant makes the
    loop answer. *)
Lemma for_each_seq_total {T} (P : nat → T → Prop) (body : nat → T → result T)
    (n a : nat) (s : T) :
  P a s →
  (∀ k t, (a ≤ k < a + n)%nat → P k t → ∃ t', body k t = Ok t' ∧ P (S k) t') →
  ∃ s', for_each (seq a n) body s = Ok s' ∧ P (a + n)%nat s'.
Proof.
  revert a s. induction n as [|n IH]; intros a s Hinit Hstep.
  - exists s. rewrite Nat.add_0_r. auto.
  - destruct (Hstep a s) as (t & Hbody & Ht); [lia|done|].
    destruct (IH (S a) t) as (s' & Hrun & Hs'); [done| |].
    + intros k u Hk. apply Hstep. lia.
    + exists s'. simpl. rewrite Hbody. simpl.
      replace (a + S n)%nat with (S a + n)%nat by lia. auto.
Qed.

Lemma mapM_Ok {A B} (f : A → result B) (l : list A) (l' : list B) :
  mapM f l = Ok l' ↔ Forall2 (λ a b, f a = Ok b) l l'.
Proof.
  revert l'. induction l as [|a l IH]; intros l'; simpl.
  - split.
    + intros [= <-]. constructor.
    + intros H. inversion H. reflexivity.
  - split.
    + intros H. apply bind_Ok in H as (b & Hb & H).
      apply bind_Ok in H as (bs & Hbs & H). injection H as <-.
      constructor; [done|]. by apply IH.
    + intros H. inversion H as [|? b ? bs Hb Hbs]; subst.
      apply IH in Hbs. rewrite Hb. simpl. rewrite Hbs. reflexivity.
Qed.

Lemma column_lookup (M : mat) (j : nat) (col : vec) :
  column M j = Ok col ↔ Forall2 (λ row a, row !! j = Some a) M col.
Proof.
  unfold column. rewrite mapM_Ok. split; intros H;
    (eapply Forall2_impl; [exact H|]); intros row a; by rewrite getitem_Ok.
Qed.

(** ** Sums *)

Lemma sum_nonneg (x : vec) : Forall (λ a, 0 <= a) x → 0 <= Np.sum x.
Proof.
  induction 1 as [|a x Ha _ IH]; simpl; lra.
Qed.

Lemma sum_app (x y : vec) : Np.sum (x ++ y) = Np.sum x + Np.sum y.
Proof.
  induction x as [|a x IH]; simpl; lra.
Qed.


Lemma sum_replicate (n : nat) (c : R) : Np.sum (replicate n c) = INR n * c.
Proof.
  induction n as [|n IH].
  - simpl. lra.
  - rewrite S_INR. simpl. rewrite IH. lra.
Qed.

Lemma sum_insert (x : vec) (i : nat) (a b : R) :
  x !! i = Some a → Np.sum (<[i:=b]> x) = Np.sum x - a + b.
Proof.
  revert i. induction x as [|c x IH]; intros [|i] H; simpl in *; try done.
  - injection H as ->. lra.
  - rewrite (IH i H). lra.
Qed.

(** [np.sum(M, axis=0)[k]] is [np.sum(M[:, k])]. *)
Lemma fold_zip_lookup (M : mat) (acc col : vec) (k : nat) (a : R) :
  acc !! k = Some a → column M k = Ok col →
  fold_left (zip_with Rplus) M acc !! k = Some (a + Np.sum col).
Proof.
  rewrite column_lookup. intros Ha H. revert acc a Ha.
  induction H as [|row b M col Hb _ IH]; intros acc a Ha; simpl.
  - rewrite Ha. f_equal. lra.
  - rewrite (IH (zip_with Rplus acc row) (a + b)).
    + f_equal. lra.
    + rewrite lookup_zip_with, Ha, Hb. reflexivity.
Qed.

Lemma sum_axis0_lookup (c : nat) (M : mat) (col : vec) (k : nat) :
  (k < c)%nat → column M k = Ok col →
  sum_axis0 c M !! k = Some (Np.sum col).
Proof.
  intros Hk Hcol. unfold sum_axis0.
  rewrite (fold_zip_lookup M _ col k 0); [f_equal; lra| |done].
  by apply lookup_replicate_2.
Qed.

(** ** [softmax] *)

Lemma float32_eps_pos : 0 < float32_eps.
Proof. unfold float32_eps. lra. Qed.

Lemma fold_Rmax_ge (x : vec) (a : R) :
  a <= fold_left Rmax x a ∧ Forall (λ b, b <= fold_left Rmax x a) x.
Proof.
  revert a. induction x as [|b x IH]; intros a; simpl.
  - split; [lra|constructor].
  - destruct (IH (Rmax a b)) as [H1 H2]. split.
    + pose proof (Rmax_l a b). lra.
    + constructor; [|done]. pose proof (Rmax_r a b). lra.
Qed.

Lemma fold_Rmax_in (x : vec) (a : R) : fold_left Rmax x a ∈ a :: x.
Proof.
  revert a. induction x as [|b x IH]; intros a; simpl.
  - left.
  - specialize (IH (Rmax a b)). apply elem_of_cons in IH as [IH|IH].
    + rewrite IH. unfold Rmax. destruct (Rle_dec a b).
      * right. left.
      * left.
    + right. by right.
Qed.

Lemma max_Ok (x : vec) (m : R) :
  Np.max x = Ok m → m ∈ x ∧ Forall (λ b, b <= m) x.
Proof.
  destruct x as [|a x]; simpl; [discriminate|]. intros [= <-]. split.
  - apply fold_Rmax_in.
  - destruct (fold_Rmax_ge x a). by constructor.
Qed.

Lemma sum_ge_elem (x : vec) (a : R) :
  Forall (λ b, 0 <= b) x → a ∈ x → a <= Np.sum x.
Proof.
  intros Hx Ha. induction Hx as [|b x Hb Hx IH]; [by apply elem_of_nil in Ha|].
  simpl. pose proof (sum_nonneg x Hx).
  apply elem_of_cons in Ha as [->|Ha]; [lra|]. specialize (IH Ha). lra.
Qed.

Lemma sum_le_length (x : vec) :
  Forall (λ b, b <= 1) x → Np.sum x <= INR (length x).
Proof.
  induction 1 as [|b x Hb _ IH].
  - simpl. lra.
  - change (length (b :: x)) with (S (length x)). rewrite S_INR. simpl. lra.
Qed.

(** What [softmax] computes: the shifted exponentials [e_x], whose sum
    lies between one and the length of the row. *)
Lemma softmax_Ok (x p : vec) :
  softmax x = Ok p →
  ∃ e_x : vec,
    length e_x = length x ∧
    Forall (λ e, 0 < e) e_x ∧
    1 <= Np.sum e_x <= INR (length x) ∧
    p = map (λ e, (e + float32_eps) / (Np.sum e_x + float32_eps)) e_x.
Proof.
  unfold softmax. intros H. apply bind_Ok in H as (m & Hm & H).
  injection H as <-. apply max_Ok in Hm as [Hin Hle].
  exists (map (λ xi, exp (xi - m)) x). repeat split.
  - by rewrite length_map.
  - apply Forall_map, Forall_forall. intros xi _. apply exp_pos.
  - apply (sum_ge_elem _ 1).
    + apply Forall_map, Forall_forall. intros xi _. left. apply exp_pos.
    + apply list_elem_of_fmap. exists m. split; [|done].
      by rewrite Rminus_diag, exp_0.
  - rewrite <- (length_map (λ xi, exp (xi - m)) x). apply sum_le_length.
    apply Forall_map. eapply Forall_impl; [exact Hle|]. simpl. intros xi Hxi.
    rewrite <- exp_0. destruct (Req_dec_T (xi - m) 0) as [->|Hne]; [lra|].
    left. apply exp_increasing. lra.
Qed.

Lemma softmax_total (x : vec) : x ≠ [] → ∃ p, softmax x = Ok p.
Proof.
  destruct x as [|a x]; [done|]. intros _. unfold softmax. simpl. eauto.
Qed.

Lemma softmax_length (x p : vec) : softmax x = Ok p → length p = length x.
Proof.
  intros H. apply softmax_Ok in H as (e_x & Hlen & _ & _ & ->).
  by rewrite length_map.
Qed.

(** Every entry that [softmax] returns is positive (it is at least
    [eps / (len(x) + eps)]). *)
Lemma softmax_pos (x p : vec) :
  softmax x = Ok p →
  Forall (λ v, float32_eps / (INR (length x) + float32_eps) <= v ∧ 0 < v) p.
Proof.
  intros H. apply softmax_Ok in H as (e_x & Hlen & Hpos & [H1 HL] & ->).
  pose proof float32_eps_pos as He.
  apply Forall_map. eapply Forall_impl; [exact Hpos|]. simpl. intros e He0.
  assert (Hd : 0 < Np.sum e_x + float32_eps) by lra.
  assert (HD : 0 < INR (length x) + float32_eps) by lra.
  split.
  - apply (Rmult_le_reg_r (INR (length x) + float32_eps)); [done|].
    apply (Rmult_le_reg_r (Np.sum e_x + float32_eps)); [done|].
    field_simplify; [|lra|lra]. nra.
  - apply Rdiv_lt_0_compat; lra.
Qed.



Lemma softmax_unfold (x p : vec) :
  softmax x = Ok p →
  ∃ m, m ∈ x ∧ Forall (λ b, b <= m) x ∧
    let e_x := map (λ xi, exp (xi - m)) x in
    p = map (λ e, (e + float32_eps) / (Np.sum e_x + float32_eps)) e_x.
Proof.
  unfold softmax. intros H. apply bind_Ok in H as (m & Hm & H).
  injection H as <-. apply max_Ok in Hm as [Hin Hle]. eauto.
Qed.

(** ** The updates of [lambda_pi], [lambda_beta] and [lambda_nu] *)

(** A loop [for k in range(n): l[k] = f(k)]. *)
Lemma for_each_assign {A} (body : nat → list A → result (list A))
    (f : nat → result A) (n : nat) (l l' : list A) :
  (∀ k t t', (k < n)%nat → body k t = Ok t' →
     ∃ v, f k = Ok v ∧ (k < length t)%nat ∧ t' = <[k:=v]> t) →
  for_each (seq 0 n) body l = Ok l' →
  length l' = length l ∧
  (∀ k, (k < n)%nat → ∃ v, f k = Ok v ∧ l' !! k = Some v) ∧
  (∀ k, (n ≤ k)%nat → l' !! k = l !! k).
Proof.
  intros Hbody Hrun.
  apply (for_each_seq_inv (λ i t,
    length t = length l ∧
    (∀ k, (k < i)%nat → ∃ v, f k = Ok v ∧ t !! k = Some v) ∧
    (∀ k, (i ≤ k)%nat → t !! k = l !! k)) body n 0 l l' Hrun).
  - split; [done|]. split; [lia|done].
  - intros k t t' Hkn (Hlen & Hlow & Hhigh) Hk.
    destruct (Hbody k t t' ltac:(lia) Hk) as (v & Hv & Hlt & ->).
    split; [by rewrite length_insert|]. split.
    + intros j Hj. destruct (decide (j = k)) as [->|Hne].
      * exists v. split; [done|]. by apply list_lookup_insert_eq.
      * destruct (Hlow j) as (w & Hw & Hjw); [lia|].
        exists w. split; [done|]. by rewrite list_lookup_insert_ne.
    + intros j Hj. rewrite list_lookup_insert_ne by lia. apply Hhigh. lia.
Qed.

Lemma update_lambda_pi_Ok (K : Z) (lambda_pi : vec) (lambda_phi : mat)
    (alpha_o lambda_pi' : vec) :
  update_lambda_pi K lambda_pi lambda_phi alpha_o = Ok lambda_pi' →
  length lambda_pi' = length lambda_pi ∧
  ∀ k, (k < Z.to_nat K)%nat →
    ∃ a col, alpha_o !! k = Some a ∧ column lambda_phi k = Ok col ∧
             lambda_pi' !! k = Some (a + Np.sum col).
Proof.
  intros H. unfold update_lambda_pi, range in H.
  apply (for_each_assign _
    (λ k, a ← getitem alpha_o k; col ← column lambda_phi k;
          Ok (a + Np.sum col))) in H as (Hlen & Hlow & _).
  - split; [done|]. intros k Hk. destruct (Hlow k Hk) as (v & Hv & Hlk).
    inv_result. subst v. eauto.
  - intros k t t' _ Hk. inv_result. subst t'.
    match goal with Ha : alpha_o !! k = Some ?a, Hc : column _ k = Ok ?c |- _ =>
      exists (a + Np.sum c); rewrite <- getitem_Ok in Ha; rewrite Ha; simpl;
      rewrite Hc; simpl
    end. auto.
Qed.

Lemma update_counts_Ok (K : Z) (lam : vec) (c : R) (Nks lam' : vec) :
  for_each (range K) (λ k lam, nk ← getitem Nks k; setitem lam k (c + nk))
    lam = Ok lam' →
  length lam' = length lam ∧
  ∀ k, (k < Z.to_nat K)%nat →
    ∃ nk, Nks !! k = Some nk ∧ lam' !! k = Some (c + nk).
Proof.
  intros H. unfold range in H.
  apply (for_each_assign _ (λ k, nk ← getitem Nks k; Ok (c + nk)))
    in H as (Hlen & Hlow & _).
  - split; [done|]. intros k Hk. destruct (Hlow k Hk) as (v & Hv & Hlk).
    inv_result. subst v. eauto.
  - intros k t t' _ Hk. inv_result. subst t'.
    match goal with Hn : Nks !! k = Some ?n |- _ =>
      exists (c + n); rewrite <- getitem_Ok in Hn; rewrite Hn; simpl
    end. auto.
Qed.

Lemma column_Forall (P : R → Prop) (M : mat) (k : nat) (col : vec) :
  column M k = Ok col → Forall (Forall P) M → Forall P col.
Proof.
  rewrite column_lookup. induction 1 as [|row a M col Ha _ IH]; intros HM.
  - constructor.
  - apply Forall_cons in HM as [Hrow HM]. constructor; [|by apply IH].
    rewrite Forall_lookup in Hrow. by apply (Hrow k).
Qed.

(** ** Two-dimensional data *)

(** Equality of arrays of reals, entry by entry. *)
Ltac list_eq :=
  repeat match goal with
  | |- @cons R _ _ = _ :: _ => apply (f_equal2 cons); [try ring|]
  | |- @cons (list R) _ _ = _ :: _ => apply (f_equal2 cons)
  | |- @nil _ = [] => reflexivity
  end.

Lemma length_2 {A} (v : list A) : length v = 2%nat → ∃ a b, v = [a; b].
Proof.
  destruct v as [|a [|b [|c v]]]; try discriminate. eauto.
Qed.

Lemma shape_2x2 (M : mat) :
  has_shape 2 2 M → ∃ a b c d, M = [[a; b]; [c; d]].
Proof.
  intros [Hlen Hrows]. apply length_2 in Hlen as (r1 & r2 & ->).
  apply Forall_cons in Hrows as [H1 Hrows].
  apply Forall_cons in Hrows as [H2 _].
  apply length_2 in H1 as (a & b & ->). apply length_2 in H2 as (c & d & ->).
  eauto 6.
Qed.

Lemma has_shape_2x2 (a b c d : R) : has_shape 2 2 [[a; b]; [c; d]].
Proof.
  split; [done|]. repeat constructor.
Qed.

Lemma has_shape_lookup (r c : nat) (M : mat) (i : nat) (row : vec) :
  has_shape r c M → M !! i = Some row → length row = c.
Proof.
  intros [_ H] Hi. rewrite Forall_lookup in H. by apply (H i).
Qed.

Lemma outer_2 (a b c d : R) :
  outer [a; b] [c; d] = [[a * c; a * d]; [b * c; b * d]].
Proof. reflexivity. Qed.

(** A loop [for k in range(n): l[k] = v_k] whose body answers. *)
Lemma for_each_assign_total {A} (I : list A → Prop) (Q : nat → A → Prop)
    (body : nat → list A → result (list A)) (n : nat) (l : list A) :
  (n ≤ length l)%nat → I l →
  (∀ k t, (k < n)%nat → length t = length l → I t →
     ∃ v, body k t = Ok (<[k:=v]> t) ∧ Q k v ∧ I (<[k:=v]> t)) →
  ∃ l', for_each (seq 0 n) body l = Ok l' ∧ length l' = length l ∧ I l' ∧
        ∀ k, (k < n)%nat → ∃ v, l' !! k = Some v ∧ Q k v.
Proof.
  intros Hn HI Hbody.
  destruct (for_each_seq_total (λ i t,
    length t = length l ∧ I t ∧
    ∀ k, (k < i)%nat → ∃ v, t !! k = Some v ∧ Q k v) body n 0 l)
    as (l' & Hrun & Hlen & HI' & HQ).
  - split; [done|]. split; [done|]. lia.
  - intros k t Hk (Hlen & HIt & HQ).
    destruct (Hbody k t) as (v & Hv & HQv & HIv); [lia|done|done|].
    exists (<[k:=v]> t). split; [done|]. split; [by rewrite length_insert|].
    split; [done|]. intros j Hj. destruct (decide (j = k)) as [->|Hne].
    + exists v. split; [|done]. apply list_lookup_insert_eq. lia.
    + destruct (HQ j) as (w & Hw & HQw); [lia|]. exists w.
      split; [|done]. by rewrite list_lookup_insert_ne.
  - exists l'. eauto.
Qed.

Lemma column_total (M : mat) (k c : nat) :
  Forall (λ row, length row = c) M → (k < c)%nat →
  ∃ col, column M k = Ok col ∧ length col = length M.
Proof.
  intros HM Hk. induction HM as [|row M Hrow _ (col & Hcol & Hlen)].
  - exists []. auto.
  - destruct (lookup_lt_is_Some_2 row k) as [a Ha]; [lia|].
    exists (a :: col). split; [|simpl; lia].
    apply column_lookup. constructor; [done|]. by apply column_lookup.
Qed.

Lemma column_getitem2 (M : mat) (k n : nat) (col : vec) (p : R) :
  column M k = Ok col → col !! n = Some p → getitem2 M n k = Ok p.
Proof.
  rewrite column_lookup. intros H Hp.
  destruct (Forall2_lookup_r _ _ _ _ _ H Hp) as (row & Hrow & Hk).
  unfold getitem2, getitem. rewrite Hrow. simpl. by rewrite Hk.
Qed.

(** The accumulation of the weighted outer products, on points of the
    plane. *)
Lemma madd_2x2 (a b c d e f g h : R) :
  Spec.madd [[a; b]; [c; d]] [[e; f]; [g; h]]
  = [[a + e; b + f]; [c + g; d + h]].
Proof. reflexivity. Qed.

Lemma miadd_2x2 (a b c d e f g h : R) :
  miadd [[a; b]; [c; d]] [[e; f]; [g; h]]
  = Ok (Spec.madd [[a; b]; [c; d]] [[e; f]; [g; h]]).
Proof. reflexivity. Qed.

Lemma weighted_outers_2d (lambda_phi xn : mat) (N k : nat) (col : vec) :
  has_shape N 2 xn → column lambda_phi k = Ok col → length col = N →
  let terms := zip_with (λ p x, mscal p (outer x x)) col xn in
  weighted_outers lambda_phi (map (λ x, outer x x) xn) N k
    = Ok (Spec.msum 2 terms) ∧ has_shape 2 2 (Spec.msum 2 terms).
Proof.
  intros [Hlen Hxn] Hcol Hlc terms. unfold weighted_outers.
  destruct (for_each_seq_total (λ i aux,
    aux = Spec.msum 2 (take i terms) ∧ has_shape 2 2 aux)
    (λ n aux, p ← getitem2 lambda_phi n k;
              X ← getitem (map (λ x, outer x x) xn) n;
              miadd aux (mscal p X)) N 0 [[0; 0]; [0; 0]])
    as (aux & Hrun & Haux & Hshape).
  - split; [reflexivity|apply has_shape_2x2].
  - intros n aux Hn [-> Hshape].
    destruct (lookup_lt_is_Some_2 col n) as [p Hp]; [lia|].
    destruct (lookup_lt_is_Some_2 xn n) as [x Hx]; [lia|].
    rewrite (column_getitem2 _ _ _ _ _ Hcol Hp). simpl.
    unfold getitem. rewrite list_lookup_fmap, Hx. simpl.
    assert (Hlx : length x = 2%nat).
    { rewrite Forall_lookup in Hxn. by apply (Hxn n). }
    apply length_2 in Hlx as (x0 & x1 & ->).
    apply shape_2x2 in Hshape as (a & b & c & d & Hshape).
    assert (Ht : terms !! n = Some (mscal p (outer [x0; x1] [x0; x1]))).
    { unfold terms. by rewrite lookup_zip_with, Hp, Hx. }
    rewrite (take_S_r _ _ _ Ht). unfold Spec.msum at 2.
    rewrite fold_left_app. fold (Spec.msum 2 (take n terms)).
    rewrite Hshape. simpl. eexists. split; [reflexivity|].
    split; [reflexivity|apply has_shape_2x2].
  - simpl in Haux. rewrite Hrun. subst aux. rewrite firstn_all2 in Hshape |- *.
    + done.
    + unfold terms. rewrite length_zip_with. lia.
    + unfold terms. rewrite length_zip_with. lia.
Qed.

(** One pass of the loop of [update_lambda_W] on data of the plane. *)
Lemma update_lambda_W_body_2d (t : list mat) (lambda_phi : mat)
    (lambda_beta : vec) (lambda_m W_o : mat) (beta_o : R) (m_o : vec)
    (xn : mat) (N k : nat) (col : vec) (b : R) (m : vec) (old : mat) :
  has_shape N 2 xn → column lambda_phi k = Ok col → length col = N →
  lambda_beta !! k = Some b → lambda_m !! k = Some m → length m = 2%nat →
  t !! k = Some old → has_shape 2 2 old →
  has_shape 2 2 W_o → length m_o = 2%nat →
  let V := Spec.lambda_W_closed_form 2 W_o beta_o m_o col xn b m in
  (aux ← weighted_outers lambda_phi (map (λ x, outer x x) xn) N k;
   s1 ← mbroadcast2 Rplus W_o (outer (scal beta_o m_o) m_o);
   s2 ← mbroadcast2 Rplus s1 aux;
   b ← getitem lambda_beta k;
   m ← getitem lambda_m k;
   s3 ← mbroadcast2 Rminus s2 (outer (scal b m) m);
   old ← getitem t k;
   V ← fit_mat (nrows old) (ncols old) s3;
   setitem t k V) = Ok (<[k:=V]> t) ∧ has_shape 2 2 V.
Proof.
  intros Hxn Hcol Hlc Hb Hm Hlm Hold Hso HW Hmo V.
  destruct (weighted_outers_2d lambda_phi xn N k col Hxn Hcol Hlc)
    as [Haux Hsa].
  rewrite Haux. subst V. unfold Spec.lambda_W_closed_form.
  set (aux := Spec.msum 2 _) in *. clearbody aux.
  apply shape_2x2 in Hsa as (a11 & a12 & a21 & a22 & ->).
  apply shape_2x2 in HW as (w11 & w12 & w21 & w22 & ->).
  apply shape_2x2 in Hso as (o11 & o12 & o21 & o22 & ->).
  apply length_2 in Hmo as (m0 & m1 & ->).
  apply length_2 in Hlm as (u0 & u1 & ->).
  assert (Hk : (k <? length t)%nat = true).
  { apply Nat.ltb_lt. by eapply lookup_lt_Some. }
  unfold getitem. rewrite Hb, Hm, Hold. cbn. unfold setitem. rewrite Hk.
  split; [|apply has_shape_2x2].
  do 2 f_equal. list_eq.
Qed.

(** [update_lambda_W] on data of the plane: it answers, with the closed
    form of the specification in every component. *)
Lemma update_lambda_W_total_2d (lambda_W : list mat) (lambda_phi : mat)
    (lambda_beta : vec) (lambda_m W_o : mat) (beta_o : R) (m_o : vec)
    (xn : mat) (K : Z) (N : nat) :
  has_shape N 2 xn →
  has_shape N (Z.to_nat K) lambda_phi →
  length lambda_beta = Z.to_nat K →
  has_shape (Z.to_nat K) 2 lambda_m →
  length lambda_W = Z.to_nat K → Forall (has_shape 2 2) lambda_W →
  has_shape 2 2 W_o → length m_o = 2%nat →
  ∃ lambda_W',
    update_lambda_W lambda_W lambda_phi lambda_beta lambda_m W_o beta_o m_o
      (map (λ x, outer x x) xn) K N = Ok lambda_W' ∧
    length lambda_W' = length lambda_W ∧
    ∀ k, (k < Z.to_nat K)%nat →
      ∃ col b m,
        column lambda_phi k = Ok col ∧ lambda_beta !! k = Some b ∧
        lambda_m !! k = Some m ∧
        lambda_W' !! k
          = Some (Spec.lambda_W_closed_form 2 W_o beta_o m_o col xn b m).
Proof.
  intros Hxn [Hpn Hphi] Hlb [Hmk Hm] HlW HW HWo Hmo.
  unfold update_lambda_W, range.
  destruct (for_each_assign_total (Forall (has_shape 2 2))
    (λ k V, ∃ col b m,
       column lambda_phi k = Ok col ∧ lambda_beta !! k = Some b ∧
       lambda_m !! k = Some m ∧
       V = Spec.lambda_W_closed_form 2 W_o beta_o m_o col xn b m)
    (λ k lambda_W,
       aux ← weighted_outers lambda_phi (map (λ x, outer x x) xn) N k;
       s1 ← mbroadcast2 Rplus W_o (outer (scal beta_o m_o) m_o);
       s2 ← mbroadcast2 Rplus s1 aux;
       b ← getitem lambda_beta k;
       m ← getitem lambda_m k;
       s3 ← mbroadcast2 Rminus s2 (outer (scal b m) m);
       old ← getitem lambda_W k;
       V ← fit_mat (nrows old) (ncols old) s3;
       setitem lambda_W k V)
    (Z.to_nat K) lambda_W) as (lambda_W' & Hrun & Hlen & _ & Hpost).
  - lia.
  - done.
  - intros k t Hk Hlt Ht.
    destruct (column_total lambda_phi k (Z.to_nat K) Hphi Hk)
      as (col & Hcol & Hlc).
    destruct (lookup_lt_is_Some_2 lambda_beta k) as [b Hb]; [lia|].
    destruct (lookup_lt_is_Some_2 lambda_m k) as [m Hmk']; [lia|].
    destruct (lookup_lt_is_Some_2 t k) as [old Hold]; [lia|].
    assert (Hlm : length m = 2%nat).
    { rewrite Forall_lookup in Hm. by apply (Hm k). }
    assert (Hso : has_shape 2 2 old).
    { rewrite Forall_lookup in Ht. by apply (Ht k). }
    destruct (update_lambda_W_body_2d t lambda_phi lambda_beta lambda_m W_o
      beta_o m_o xn N k col b m old) as [Hbody HV]; try done; [lia|].
    eexists. split; [exact Hbody|]. split; [by eauto 8|].
    by apply Forall_insert.
  - exists lambda_W'. split; [done|]. split; [done|].
    intros k Hk. destruct (Hpost k Hk) as (V & HV & col & b & m & ? & ? & ? & ->).
    eauto 8.
Qed.

(** ** The rows that [update_lambda_phi] writes *)



(** Every row below [N] of the result is what [softmax] returns on a
    score vector as long as the row it replaces; the rows from [N] on
    are left as they were. *)
Lemma update_lambda_phi_rows (psi : R → R) (lambda_phi : mat)
    (lambda_pi : vec) (lambda_m : mat) (lambda_nu : vec)
    (lambda_W : list mat) (lambda_beta : vec) (xn : mat) (N : nat) (K : Z)
    (D : nat) (lambda_phi' : mat) :
  update_lambda_phi psi lambda_phi lambda_pi lambda_m lambda_nu lambda_W
    lambda_beta xn N K D = Ok lambda_phi' →
  length lambda_phi' = length lambda_phi ∧
  (∀ n, (n < N)%nat →
     ∃ row scores p,
       lambda_phi !! n = Some row ∧
       for_each (range K)
         (phi_entry psi lambda_pi lambda_m lambda_nu lambda_W lambda_beta
            xn D n) row = Ok scores ∧
       softmax scores = Ok p ∧
       lambda_phi' !! n = Some p) ∧
  (∀ n, (N ≤ n)%nat → lambda_phi' !! n = lambda_phi !! n).
Proof.
  intros Hrun. unfold update_lambda_phi in Hrun.
  apply (for_each_seq_inv (λ i t,
    length t = length lambda_phi ∧
    (∀ n, (n < i)%nat →
       ∃ row scores p,
         lambda_phi !! n = Some row ∧
         for_each (range K)
           (phi_entry psi lambda_pi lambda_m lambda_nu lambda_W lambda_beta
              xn D n) row = Ok scores ∧
         softmax scores = Ok p ∧
         t !! n = Some p) ∧
    (∀ n, (i ≤ n)%nat → t !! n = lambda_phi !! n)) _ N 0 _ _ Hrun).
  - split; [done|]. split; [lia|done].
  - intros n t t' _ (Hlen & Hlow & Hhigh) Hbody. inv_result. subst t'.
    split; [by rewrite length_insert|]. split.
    + intros j Hj. destruct (decide (j = n)) as [->|Hne].
      * rewrite list_lookup_insert_eq by done.
        rewrite Hhigh in * by lia. eauto 8.
      * rewrite list_lookup_insert_ne by done. apply Hlow. lia.
    + intros j Hj. rewrite list_lookup_insert_ne by lia. apply Hhigh. lia.
Qed.

Lemma mapM_length {A B} (f : A → result B) (l : list A) (l' : list B) :
  mapM f l = Ok l' → length l' = length l.
Proof.
  rewrite mapM_Ok. intros H. symmetry. by eapply Forall2_length.
Qed.

Lemma log_total (col : vec) :
  Forall (λ v, 0 < v) col → ∃ lg, mapM Np.log col = Ok lg.
Proof.
  induction 1 as [|a col Ha _ (lg & Hlg)].
  - by exists [].
  - exists (ln a :: lg). apply mapM_Ok. constructor; [|by apply mapM_Ok].
    unfold Np.log. by destruct (Rlt_dec 0 a).
Qed.

(** On positive responsibilities the entropy term of [elbo] is a real
    number: no logarithm is taken at zero. *)
Lemma entropy_term_total (lambda_phi : mat) (k : nat) (col : vec) :
  column lambda_phi k = Ok col → Forall (Forall (λ v, 0 < v)) lambda_phi →
  ∃ h, entropy_term lambda_phi k = Ok h.
Proof.
  intros Hcol Hpos. unfold entropy_term. rewrite Hcol. simpl.
  destruct (log_total col) as (lg & Hlg).
  { by apply (column_Forall _ lambda_phi k). }
  rewrite Hlg. simpl. unfold dot_vv.
  rewrite (mapM_length _ _ _ Hlg), Nat.eqb_refl. eauto.
Qed.

Lemma softmax_positive (x p : vec) :
  softmax x = Ok p → Forall (λ v, 0 < v) p.
Proof.
  intros Hp. apply softmax_pos in Hp.
  eapply Forall_impl; [exact Hp|]. by intros v [_ Hv].
Qed.

Lemma update_lambda_phi_pos (psi : R → R) (lambda_phi : mat)
    (lambda_pi : vec) (lambda_m : mat) (lambda_nu : vec)
    (lambda_W : list mat) (lambda_beta : vec) (xn : mat) (N : nat) (K : Z)
    (D : nat) (lambda_phi' : mat) :
  update_lambda_phi psi lambda_phi lambda_pi lambda_m lambda_nu lambda_W
    lambda_beta xn N K D = Ok lambda_phi' →
  length lambda_phi = N →
  Forall (Forall (λ v, 0 < v)) lambda_phi'.
Proof.
  intros Hrun HN.
  apply update_lambda_phi_rows in Hrun as (Hlen & Hlow & _).
  apply Forall_lookup. intros n row Hn.
  destruct (Hlow n) as (r & scores & p & _ & _ & Hp & Hn').
  { apply lookup_lt_Some in Hn. lia. }
  rewrite Hn in Hn'. injection Hn' as ->. by apply (softmax_positive scores).
Qed.

(** ** Determinant and inverse of a two by two array *)

Lemma det_2x2 (a b c d : R) : det [[a; b]; [c; d]] = Ok (a * d - b * c).
Proof. unfold det. cbn. f_equal. ring. Qed.

Lemma inv_2x2 (a b c d : R) :
  a * d - b * c ≠ 0 →
  inv [[a; b]; [c; d]]
  = Ok [[d / (a * d - b * c); - b / (a * d - b * c)];
        [- c / (a * d - b * c); a / (a * d - b * c)]].
Proof.
  intros Hd. unfold inv. rewrite det_2x2. cbn.
  destruct (Req_dec_T _ _) as [?|_]; [done|].
  unfold cofactor, minor, drop_at. cbn. f_equal.
  repeat match goal with
  | |- @cons R _ _ = _ :: _ => apply (f_equal2 cons); [try (field; done)|]
  | |- @cons (list R) _ _ = _ :: _ => apply (f_equal2 cons)
  | |- @nil _ = [] => reflexivity
  end.
Qed.

#[local] Arguments inv : simpl never.
#[local] Arguments det : simpl never.
#[local] Arguments getitem : simpl never.
#[local] Arguments setitem : simpl never.

Lemma log_pos (x : R) : 0 < x → Np.log x = Ok (ln x).
Proof. intros Hx. unfold Np.log. by destruct (Rlt_dec 0 x). Qed.

Lemma div_nonzero (a x : R) : x ≠ 0 → Np.div a x = Ok (a / x).
Proof. intros Hx. unfold Np.div. by destruct (Req_dec_T x 0). Qed.

(** ** The updates on data of the plane answer *)

(** One entry of the score row, for a component whose [lambda_W[k]] has
    a positive determinant. *)
Lemma phi_entry_total_2d (psi : R → R) (lambda_pi : vec) (lambda_m : mat)
    (lambda_nu : vec) (lambda_W : list mat) (lambda_beta : vec) (xn : mat)
    (n k : nat) (row : vec) (p nu b : R) (m x : vec) (W : mat) :
  lambda_pi !! k = Some p → lambda_m !! k = Some m → length m = 2%nat →
  lambda_nu !! k = Some nu → lambda_W !! k = Some W → pos_det_2x2 W →
  lambda_beta !! k = Some b → b ≠ 0 →
  xn !! n = Some x → length x = 2%nat → (k < length row)%nat →
  ∃ s, phi_entry psi lambda_pi lambda_m lambda_nu lambda_W lambda_beta xn 2
         n k row = Ok (<[k:=s]> row).
Proof.
  intros Hp Hm Hlm Hnu HW (a & b' & c & d & -> & Hdet) Hb Hb0 Hx Hlx Hk.
  apply length_2 in Hlm as (u & v & ->).
  apply length_2 in Hlx as (x0 & x1 & ->).
  unfold phi_entry, dirichlet_expectation, phi_term1, phi_term2, phi_term3,
    phi_term4, phi_term6, phi_term7.
  rewrite !(getitem_Some _ _ _ Hp), !(getitem_Some _ _ _ Hm),
    !(getitem_Some _ _ _ Hnu), !(getitem_Some _ _ _ HW),
    !(getitem_Some _ _ _ Hb), !(getitem_Some _ _ _ Hx). cbn.
  rewrite setitem_lt by done. cbn.
  rewrite inv_2x2 by lra. cbn. rewrite div_nonzero by done. cbn.
  rewrite det_2x2. cbn. rewrite log_pos by done. cbn.
  rewrite list_insert_insert_eq. eauto.
Qed.

Lemma update_lambda_phi_total_2d (psi : R → R) (lambda_phi : mat)
    (lambda_pi : vec) (lambda_m : mat) (lambda_nu : vec)
    (lambda_W : list mat) (lambda_beta : vec) (xn : mat) (N : nat) (K : Z) :
  (0 < K)%Z →
  has_shape N (Z.to_nat K) lambda_phi →
  length lambda_pi = Z.to_nat K →
  has_shape (Z.to_nat K) 2 lambda_m →
  length lambda_nu = Z.to_nat K →
  length lambda_W = Z.to_nat K → Forall pos_det_2x2 lambda_W →
  length lambda_beta = Z.to_nat K → Forall (λ b, b ≠ 0) lambda_beta →
  has_shape N 2 xn →
  ∃ lambda_phi',
    update_lambda_phi psi lambda_phi lambda_pi lambda_m lambda_nu lambda_W
      lambda_beta xn N K 2 = Ok lambda_phi' ∧
    has_shape N (Z.to_nat K) lambda_phi'.
Proof.
  intros HK [Hpn Hphi] Hpi [Hmk Hm] Hnu HlW HW Hlb Hb [Hxl Hxn].
  unfold update_lambda_phi.
  destruct (for_each_assign_total
    (Forall (λ row : vec, length row = Z.to_nat K)) (λ _ _, True)
    (λ n lambda_phi,
       row ← getitem lambda_phi n;
       scores ← for_each (range K)
         (phi_entry psi lambda_pi lambda_m lambda_nu lambda_W lambda_beta
            xn 2 n) row;
       p ← softmax scores;
       setitem lambda_phi n p)
    N lambda_phi) as (lambda_phi' & Hrun & Hlen & Hshape & _).
  - lia.
  - done.
  - intros n t Hn Hlt Ht.
    destruct (lookup_lt_is_Some_2 t n) as [row Hrow]; [lia|].
    destruct (lookup_lt_is_Some_2 xn n) as [x Hx]; [lia|].
    assert (Hlr : length row = Z.to_nat K).
    { rewrite Forall_lookup in Ht. by apply (Ht n). }
    assert (Hlx : length x = 2%nat).
    { rewrite Forall_lookup in Hxn. by apply (Hxn n). }
    destruct (for_each_assign_total (λ _, True) (λ _ _, True)
      (phi_entry psi lambda_pi lambda_m lambda_nu lambda_W lambda_beta
         xn 2 n) (Z.to_nat K) row) as (scores & Hsc & Hls & _ & _).
    + lia.
    + done.
    + intros k r Hk Hlr' _.
      destruct (lookup_lt_is_Some_2 lambda_pi k) as [p Hp]; [lia|].
      destruct (lookup_lt_is_Some_2 lambda_m k) as [m Hmk']; [lia|].
      destruct (lookup_lt_is_Some_2 lambda_nu k) as [nu Hnuk]; [lia|].
      destruct (lookup_lt_is_Some_2 lambda_W k) as [W HWk]; [lia|].
      destruct (lookup_lt_is_Some_2 lambda_beta k) as [b Hbk]; [lia|].
      destruct (phi_entry_total_2d psi lambda_pi lambda_m lambda_nu lambda_W
        lambda_beta xn n k r p nu b m x W) as (s & Hs); try done.
      * rewrite Forall_lookup in Hm. by apply (Hm k).
      * rewrite Forall_lookup in HW. by apply (HW k).
      * rewrite Forall_lookup in Hb. by apply (Hb k).
      * lia.
      * exists s. auto.
    + destruct (softmax_total scores) as (p & Hp).
      { intros ->. simpl in Hls. lia. }
      exists p. rewrite (getitem_Some _ _ _ Hrow). simpl.
      unfold range. rewrite Hsc. simpl. rewrite Hp. simpl.
      rewrite setitem_lt by lia. split; [done|]. split; [done|].
      apply Forall_insert; [done|].
      rewrite (softmax_length _ _ Hp). lia.
  - exists lambda_phi'. split; [done|]. split; [lia|done].
Qed.

(** ** Weighted sums over the points *)

Lemma wsum_cons (f : R → R → R) (p : R) (col : vec) (x : vec) (xn : mat) :
  wsum f (p :: col) (x :: xn)
  = p * f (nth 0 x 0) (nth 1 x 0) + wsum f col xn.
Proof. reflexivity. Qed.

Lemma wsum_take_S (f : R → R → R) (col : vec) (xn : mat) (n : nat) (p : R)
    (x : vec) :
  col !! n = Some p → xn !! n = Some x →
  wsum f (take (S n) col) (take (S n) xn)
  = wsum f (take n col) (take n xn) + p * f (nth 0 x 0) (nth 1 x 0).
Proof.
  intros Hp Hx. unfold wsum.
  rewrite (take_S_r _ _ _ Hp), (take_S_r _ _ _ Hx).
  rewrite zip_with_app by (rewrite !length_take; apply lookup_lt_Some in Hp, Hx; lia).
  rewrite sum_app. simpl. lra.
Qed.

Lemma wsum_nonneg (f : R → R → R) (col : vec) (xn : mat) :
  Forall (λ p, 0 <= p) col → (∀ x y, 0 <= f x y) → 0 <= wsum f col xn.
Proof.
  intros Hcol Hf. unfold wsum. apply sum_nonneg.
  revert xn. induction Hcol as [|p col Hp _ IH]; intros [|x xn]; simpl;
    try constructor; [|apply IH].
  apply Rmult_le_pos; [done|apply Hf].
Qed.

Lemma wsum_ext (f g : R → R → R) (col : vec) (xn : mat) :
  (∀ x y, f x y = g x y) → wsum f col xn = wsum g col xn.
Proof.
  intros Hfg. unfold wsum. f_equal.
  revert xn. induction col as [|p col IH]; intros [|x xn]; simpl; try done.
  by rewrite Hfg, IH.
Qed.

Lemma wsum_one (col : vec) (xn : mat) :
  length xn = length col → wsum (λ _ _, 1) col xn = Np.sum col.
Proof.
  revert xn. induction col as [|p col IH]; intros [|x xn] Hlen;
    try done. rewrite wsum_cons, IH by (simpl in Hlen; lia). simpl. lra.
Qed.

(** The accumulations of [update_lambda_m] and [update_lambda_W] as
    weighted sums. *)
Lemma weighted_points_wsum (lambda_phi xn : mat) (N k : nat) (col : vec) :
  has_shape N 2 xn → column lambda_phi k = Ok col → length col = N →
  weighted_points lambda_phi xn N k
  = Ok [wsum (λ x _, x) col xn; wsum (λ _ y, y) col xn].
Proof.
  intros [Hlen Hxn] Hcol Hlc. unfold weighted_points.
  destruct (for_each_seq_total (λ i aux,
    aux = [wsum (λ x _, x) (take i col) (take i xn);
           wsum (λ _ y, y) (take i col) (take i xn)])
    (λ n aux, p ← getitem2 lambda_phi n k; x ← getitem xn n;
              iadd aux (scal p x)) N 0 [0; 0]) as (aux & Hrun & Haux).
  - done.
  - intros n aux Hn ->.
    destruct (lookup_lt_is_Some_2 col n) as [p Hp]; [lia|].
    destruct (lookup_lt_is_Some_2 xn n) as [x Hx]; [lia|].
    rewrite (column_getitem2 _ _ _ _ _ Hcol Hp). simpl.
    rewrite (getitem_Some _ _ _ Hx). simpl.
    rewrite !(wsum_take_S _ _ _ _ _ _ Hp Hx).
    assert (Hlx : length x = 2%nat).
    { rewrite Forall_lookup in Hxn. by apply (Hxn n). }
    apply length_2 in Hlx as (x0 & x1 & ->).
    eexists. split; reflexivity.
  - rewrite Hrun, Haux. simpl. by rewrite !firstn_all2 by lia.
Qed.

Lemma msum_wsum_acc (col : vec) (xn : mat) (a b c d : R) :
  Forall (λ x : vec, length x = 2%nat) xn →
  fold_left Spec.madd (zip_with (λ p x, mscal p (outer x x)) col xn)
    [[a; b]; [c; d]]
  = [[a + wsum (λ x _, x * x) col xn; b + wsum (λ x y, x * y) col xn];
     [c + wsum (λ x y, y * x) col xn; d + wsum (λ _ y, y * y) col xn]].
Proof.
  intros Hxn. revert col a b c d.
  induction Hxn as [|x xn Hx _ IH]; intros [|p col] a b c d;
    try (unfold wsum; simpl; list_eq; done).
  apply length_2 in Hx as (x0 & x1 & ->). simpl.
  rewrite IH, !wsum_cons. simpl. list_eq.
Qed.

Lemma msum_wsum (col : vec) (xn : mat) :
  Forall (λ x : vec, length x = 2%nat) xn →
  Spec.msum 2 (zip_with (λ p x, mscal p (outer x x)) col xn)
  = [[wsum (λ x _, x * x) col xn; wsum (λ x y, x * y) col xn];
     [wsum (λ x y, y * x) col xn; wsum (λ _ y, y * y) col xn]].
Proof.
  intros Hxn. unfold Spec.msum, Spec.mzero. simpl.
  rewrite (msum_wsum_acc _ _ _ _ _ _ Hxn). list_eq.
Qed.

(** ** The updated means and scale matrices *)

Lemma update_lambda_m_total_2d (K : Z) (lambda_m lambda_phi : mat)
    (lambda_beta : vec) (m0 m1 beta_o : R) (xn : mat) (N : nat) :
  has_shape N 2 xn →
  has_shape N (Z.to_nat K) lambda_phi →
  length lambda_beta = Z.to_nat K → Forall (λ b, b ≠ 0) lambda_beta →
  has_shape (Z.to_nat K) 2 lambda_m →
  ∃ lambda_m',
    update_lambda_m K lambda_m lambda_phi lambda_beta [m0; m1] beta_o xn N
      = Ok lambda_m' ∧
    has_shape (Z.to_nat K) 2 lambda_m' ∧
    ∀ k, (k < Z.to_nat K)%nat →
      ∃ col b,
        column lambda_phi k = Ok col ∧ lambda_beta !! k = Some b ∧
        lambda_m' !! k
          = Some [(m0 * beta_o + wsum (λ x _, x) col xn) / b;
                  (m1 * beta_o + wsum (λ _ y, y) col xn) / b].
Proof.
  intros Hxn [Hpn Hphi] Hlb Hb [Hmk Hm].
  unfold update_lambda_m, range.
  destruct (for_each_assign_total (Forall (λ row : vec, length row = 2%nat))
    (λ k row, ∃ col b,
       column lambda_phi k = Ok col ∧ lambda_beta !! k = Some b ∧
       row = [(m0 * beta_o + wsum (λ x _, x) col xn) / b;
              (m1 * beta_o + wsum (λ _ y, y) col xn) / b])
    (λ k lambda_m,
       aux ← weighted_points lambda_phi xn N k;
       s ← broadcast2 Rplus (map (λ m, m * beta_o) [m0; m1]) aux;
       b ← getitem lambda_beta k;
       q ← mapM (λ a, Np.div a b) s;
       old ← getitem lambda_m k;
       row ← fit_row (length old) q;
       setitem lambda_m k row)
    (Z.to_nat K) lambda_m) as (lambda_m' & Hrun & Hlen & Hshape & Hpost).
  - lia.
  - done.
  - intros k t Hk Hlt Ht.
    destruct (column_total lambda_phi k (Z.to_nat K) Hphi Hk)
      as (col & Hcol & Hlc).
    destruct (lookup_lt_is_Some_2 lambda_beta k) as [b Hbk]; [lia|].
    destruct (lookup_lt_is_Some_2 t k) as [old Hold]; [lia|].
    assert (Hlo : length old = 2%nat).
    { rewrite Forall_lookup in Ht. by apply (Ht k). }
    assert (Hb0 : b ≠ 0).
    { rewrite Forall_lookup in Hb. by apply (Hb k). }
    apply length_2 in Hlo as (o0 & o1 & ->).
    rewrite (weighted_points_wsum lambda_phi xn N k col Hxn Hcol) by lia.
    cbn. rewrite (getitem_Some _ _ _ Hbk). cbn.
    rewrite !div_nonzero by done. cbn. rewrite (getitem_Some _ _ _ Hold).
    cbn. rewrite setitem_lt by lia.
    eexists. split; [reflexivity|]. split; [by eauto|].
    by apply Forall_insert.
  - exists lambda_m'. split; [done|]. split; [split; [lia|done]|].
    intros k Hk. destruct (Hpost k Hk) as (row & Hrow & col & b & ? & ? & ->).
    eauto.
Qed.

Lemma psd_2x2 (s11 s12 s22 : R) :
  (∀ u v, 0 <= s11 * u * u + 2 * s12 * u * v + s22 * v * v) →
  0 <= s11 ∧ 0 <= s22 ∧ s12 * s12 <= s11 * s22.
Proof.
  intros H.
  pose proof (H 1 0) as H10. pose proof (H 0 1) as H01.
  pose proof (H 1 1) as H11. pose proof (H 1 (-1)) as H1m.
  pose proof (H s22 (- s12)) as Ha. pose proof (H (- s12) s11) as Hb.
  assert (0 <= s11) by lra. assert (0 <= s22) by lra.
  split; [done|]. split; [done|].
  destruct (Rle_lt_dec (s12 * s12) (s11 * s22)) as [|Hlt]; [done|]. exfalso.
  assert (Hs22 : s22 = 0) by nra.
  assert (Hs11 : s11 = 0) by nra.
  subst. nra.
Qed.

(** The prior scale matrix of [main] plus a positive semi-definite
    matrix has a positive determinant. *)
Lemma det_W_o_plus_psd (s11 s12 s22 : R) :
  0 <= s11 → 0 <= s22 → s12 * s12 <= s11 * s22 →
  0 < (20 + s11) * (40 + s22) - (30 + s12) * (25 + s12).
Proof.
  intros H1 H2 H3.
  assert (55 * s12 <= 40 * s11 + 20 * s22).
  { destruct (Rle_lt_dec (55 * s12) (40 * s11 + 20 * s22)) as [|Hlt]; [done|].
    exfalso.
    assert (Hsq : (40 * s11 + 20 * s22) * (40 * s11 + 20 * s22)
                  < 55 * s12 * (55 * s12))
      by (apply Rmult_le_0_lt_compat; lra).
    pose proof (Rle_0_sqr (40 * s11 - 20 * s22)) as Hq. unfold Rsqr in Hq.
    nra. }
  nra.
Qed.

(** The scatter of the points about a centre [(m1, m2)]. *)
Lemma wsum_centered (col : vec) (xn : mat) (u v m1 m2 : R) :
  length xn = length col →
  wsum (λ x y, (u * (x - m1) + v * (y - m2)) * (u * (x - m1) + v * (y - m2)))
    col xn
  = u * u * (wsum (λ x _, x * x) col xn - 2 * m1 * wsum (λ x _, x) col xn
             + Np.sum col * m1 * m1)
    + 2 * u * v * (wsum (λ x y, x * y) col xn - m1 * wsum (λ _ y, y) col xn
                   - m2 * wsum (λ x _, x) col xn + Np.sum col * m1 * m2)
    + v * v * (wsum (λ _ y, y * y) col xn - 2 * m2 * wsum (λ _ y, y) col xn
               + Np.sum col * m2 * m2).
Proof.
  revert xn. induction col as [|p col IH]; intros [|x xn] Hlen; try done.
  - unfold wsum. simpl. ring.
  - rewrite !wsum_cons, IH by (simpl in Hlen; lia). simpl. ring.
Qed.

Lemma closed_form_pos_det (col : vec) (xn : mat) (b : R) :
  Forall (λ p, 0 <= p) col → has_shape (length col) 2 xn →
  b = beta_o + Np.sum col →
  pos_det_2x2
    (Spec.lambda_W_closed_form 2 W_o beta_o m_o col xn b
       [(0 * beta_o + wsum (λ x _, x) col xn) / b;
        (0 * beta_o + wsum (λ _ y, y) col xn) / b]).
Proof.
  intros Hcol [Hlen Hxn] Hb.
  assert (HP : 0 <= Np.sum col) by (by apply sum_nonneg).
  assert (Hb0 : 0 < b) by (unfold beta_o in Hb; lra).
  unfold Spec.lambda_W_closed_form. rewrite (msum_wsum _ _ Hxn).
  unfold W_o, m_o. cbn.
  rewrite (wsum_ext (λ x y, y * x) (λ x y, x * y)) by (intros; ring).
  set (sx := wsum (λ x _, x) col xn). set (sy := wsum (λ _ y, y) col xn).
  set (A := wsum (λ x _, x * x) col xn). set (B := wsum (λ _ y, y * y) col xn).
  set (C := wsum (λ x y, x * y) col xn).
  set (m1 := (0 * beta_o + sx) / b). set (m2 := (0 * beta_o + sy) / b).
  assert (Hm1 : b * m1 = sx) by (unfold m1; field; lra).
  assert (Hm2 : b * m2 = sy) by (unfold m2; field; lra).
  assert (Hq : ∀ u v,
    0 <= (A - b * (m1 * m1)) * u * u + 2 * (C - b * (m1 * m2)) * u * v
         + (B - b * (m2 * m2)) * v * v).
  { intros u v.
    assert (HT : 0 <= wsum (λ x y, (u * (x - m1) + v * (y - m2))
                                   * (u * (x - m1) + v * (y - m2))) col xn).
    { apply wsum_nonneg; [done|]. intros x y.
      apply Rle_0_sqr. }
    rewrite wsum_centered in HT by done.
    fold sx sy A B C in HT. rewrite <- Hm1, <- Hm2 in HT.
    pose proof (Rle_0_sqr (u * m1 + v * m2)) as Hsq. unfold Rsqr in Hsq.
    replace (Np.sum col) with (b - beta_o) in HT by lra.
    unfold beta_o in HT. nra. }
  apply psd_2x2 in Hq as (H11 & H22 & H12).
  eexists _, _, _, _. split; [reflexivity|].
  pose proof (det_W_o_plus_psd _ _ _ H11 H22 H12) as Hdet.
  unfold beta_o. nra.
Qed.

(** With the prior scale matrix of [main], the two off-diagonal entries
    of the closed form differ by five. *)
Lemma closed_form_off_diagonal (col : vec) (xn : mat) (b u v : R) :
  Forall (λ x : vec, length x = 2%nat) xn →
  ∃ w11 w12 w21 w22,
    Spec.lambda_W_closed_form 2 W_o beta_o m_o col xn b [u; v]
    = [[w11; w12]; [w21; w22]] ∧ w12 - w21 = 5.
Proof.
  intros Hxn. unfold Spec.lambda_W_closed_form. rewrite (msum_wsum _ _ Hxn).
  unfold W_o, m_o. cbn.
  rewrite (wsum_ext (λ x y, y * x) (λ x y, x * y)) by (intros; ring).
  eexists _, _, _, _. split; [reflexivity|]. ring.
Qed.

Lemma off_diagonal_not_symmetric (w11 w12 w21 w22 : R) :
  w12 - w21 = 5 → ¬ symmetric [[w11; w12]; [w21; w22]].
Proof.
  unfold symmetric, transpose. simpl. intros Hd [= H1 H2]. lra.
Qed.

(** ** A sweep on data of the plane answers *)

Lemma update_lambda_pi_total (K : Z) (lambda_pi : vec) (lambda_phi : mat)
    (alpha_o : vec) (N : nat) :
  has_shape N (Z.to_nat K) lambda_phi →
  length lambda_pi = Z.to_nat K → length alpha_o = Z.to_nat K →
  ∃ lambda_pi',
    update_lambda_pi K lambda_pi lambda_phi alpha_o = Ok lambda_pi' ∧
    length lambda_pi' = Z.to_nat K.
Proof.
  intros [_ Hphi] Hpi Ha. unfold update_lambda_pi, range.
  destruct (for_each_assign_total (λ _, True) (λ _ _, True)
    (λ k lambda_pi,
       a ← getitem alpha_o k; col ← column lambda_phi k;
       setitem lambda_pi k (a + Np.sum col))
    (Z.to_nat K) lambda_pi) as (l' & Hrun & Hlen & _ & _); [lia|done| |].
  - intros k t Hk Hlt _.
    destruct (lookup_lt_is_Some_2 alpha_o k) as [a Hak]; [lia|].
    destruct (column_total lambda_phi k (Z.to_nat K) Hphi Hk) as (col & Hcol & _).
    rewrite (getitem_Some _ _ _ Hak). simpl. rewrite Hcol. simpl.
    rewrite setitem_lt by lia. eauto.
  - exists l'. split; [done|lia].
Qed.

Lemma update_counts_total (K : Z) (lam : vec) (c : R) (Nks : vec) :
  length lam = Z.to_nat K → length Nks = Z.to_nat K →
  ∃ lam',
    for_each (range K) (λ k lam, nk ← getitem Nks k; setitem lam k (c + nk))
      lam = Ok lam' ∧
    length lam' = Z.to_nat K ∧
    ∀ k nk, Nks !! k = Some nk → lam' !! k = Some (c + nk).
Proof.
  intros Hl HN. unfold range.
  destruct (for_each_assign_total (λ _, True)
    (λ k v, ∀ nk, Nks !! k = Some nk → v = c + nk)
    (λ k lam, nk ← getitem Nks k; setitem lam k (c + nk))
    (Z.to_nat K) lam) as (l' & Hrun & Hlen & _ & Hpost); [lia|done| |].
  - intros k t Hk Hlt _.
    destruct (lookup_lt_is_Some_2 Nks k) as [nk Hnk]; [lia|].
    rewrite (getitem_Some _ _ _ Hnk). simpl. rewrite setitem_lt by lia.
    eexists. split; [done|]. split; [|done]. intros nk' Hnk'. congruence.
  - exists l'. split; [done|]. split; [lia|]. intros k nk Hnk.
    destruct (Hpost k) as (v & Hv & Hvn).
    { apply lookup_lt_Some in Hnk. lia. }
    by rewrite Hv, (Hvn nk Hnk).
Qed.

Lemma sum_axis0_length (c : nat) (M : mat) :
  Forall (λ row, length row = c) M → length (sum_axis0 c M) = c.
Proof.
  intros HM. unfold sum_axis0.
  assert (Hgen : ∀ acc : vec, length acc = c →
    length (fold_left (zip_with Rplus) M acc) = c).
  { induction HM as [|row M Hrow _ IH]; intros acc Hacc; simpl; [done|].
    apply IH. rewrite length_zip_with. lia. }
  apply Hgen. by rewrite length_replicate.
Qed.

Lemma shape_column_length (M : mat) (k N c : nat) (col : vec) :
  has_shape N c M → column M k = Ok col → length col = N.
Proof.
  intros [HN _] Hcol. apply column_lookup in Hcol.
  apply Forall2_length in Hcol. lia.
Qed.

Lemma sweep_total_2d (psi : R → R) (K : Z) (p : params) (xn : mat)
    (N : nat) :
  (0 < K)%Z → params_shape K N p →
  Forall (Forall (λ v, 0 <= v)) (lambda_phi p) → has_shape N 2 xn →
  ∃ p' Nks,
    sweep psi K p xn (map (λ x, outer x x) xn) N 2 = Ok (p', Nks) ∧
    params_shape K N p' ∧
    Forall (Forall (λ v, 0 < v)) (lambda_phi p') ∧
    Forall pos_det_2x2 (lambda_W p') ∧
    Forall (λ b, 0 < b) (lambda_beta p') ∧
    length Nks = Z.to_nat K ∧
    Forall (λ W, ∃ w11 w12 w21 w22,
              W = [[w11; w12]; [w21; w22]] ∧ w12 - w21 = 5) (lambda_W p').
Proof.
  intros HK (Hphi & Hpi & Hbeta & Hnu & Hm & HlW & HW) Hpos Hxn.
  unfold sweep.
  destruct (update_lambda_pi_total K (lambda_pi p) (lambda_phi p) (alpha_o K) N)
    as (pi' & Hpi' & Hlpi'); [done|done|by unfold alpha_o; rewrite length_replicate|].
  rewrite Hpi'. simpl.
  set (Nks := sum_axis0 (Z.to_nat K) (lambda_phi p)).
  assert (HlN : length Nks = Z.to_nat K).
  { apply sum_axis0_length. by destruct Hphi. }
  destruct (update_counts_total K (lambda_beta p) beta_o Nks)
    as (beta' & Hbeta' & Hlbeta' & Hbv); [done|done|].
  unfold update_lambda_beta. rewrite Hbeta'. simpl.
  destruct (update_counts_total K (lambda_nu p) nu_o Nks)
    as (nu' & Hnu' & Hlnu' & _); [done|done|].
  unfold update_lambda_nu. rewrite Hnu'. simpl.
  assert (Hbk : ∀ k b, beta' !! k = Some b →
    ∃ col, column (lambda_phi p) k = Ok col ∧ length col = N ∧
           Forall (λ v, 0 <= v) col ∧ b = beta_o + Np.sum col).
  { intros k b Hb.
    assert (Hk : (k < Z.to_nat K)%nat) by (apply lookup_lt_Some in Hb; lia).
    destruct (column_total (lambda_phi p) k (Z.to_nat K)) as (col & Hcol & _);
      [by destruct Hphi|done|].
    exists col. split; [done|].
    split; [by apply (shape_column_length _ _ _ _ _ Hphi Hcol)|].
    split; [by apply (column_Forall _ (lambda_phi p) k)|].
    pose proof (sum_axis0_lookup (Z.to_nat K) _ col k Hk Hcol) as Hs.
    rewrite (Hbv k _ Hs) in Hb. by injection Hb as <-. }
  assert (Hbpos : Forall (λ b, 0 < b) beta').
  { apply Forall_lookup. intros k b Hb.
    destruct (Hbk k b Hb) as (col & _ & _ & Hc & ->).
    apply sum_nonneg in Hc. unfold beta_o. lra. }
  destruct (update_lambda_m_total_2d K (lambda_m p) (lambda_phi p) beta' 0 0
    beta_o xn N) as (m' & Hm' & Hsm' & Hmv); try done.
  { eapply Forall_impl; [exact Hbpos|]. simpl. intros; lra. }
  change [0; 0] with m_o in Hm'. rewrite Hm'. simpl.
  destruct (update_lambda_W_total_2d (lambda_W p) (lambda_phi p) beta' m'
    W_o beta_o m_o xn K N) as (W' & HW' & HlW' & HWv); try done.
  { apply has_shape_2x2. }
  rewrite HW'. simpl.
  assert (HWpos : Forall pos_det_2x2 W').
  { apply Forall_lookup. intros k W HWk.
    assert (Hk : (k < Z.to_nat K)%nat) by (apply lookup_lt_Some in HWk; lia).
    destruct (HWv k Hk) as (col & b & m & Hcol & Hb & Hmk & HWk').
    rewrite HWk in HWk'. injection HWk' as ->.
    destruct (Hbk k b Hb) as (col' & Hcol' & Hlc & Hcpos & ->).
    rewrite Hcol in Hcol'. injection Hcol' as <-.
    destruct (Hmv k Hk) as (col' & b' & Hcol' & Hb' & Hmk').
    rewrite Hcol in Hcol'. injection Hcol' as <-.
    rewrite Hb in Hb'. injection Hb' as <-.
    rewrite Hmk in Hmk'. injection Hmk' as ->.
    apply closed_form_pos_det; [done| |done].
    rewrite Hlc. done. }
  assert (HWoff : Forall (λ W, ∃ w11 w12 w21 w22,
    W = [[w11; w12]; [w21; w22]] ∧ w12 - w21 = 5) W').
  { apply Forall_lookup. intros k W HWk.
    assert (Hk : (k < Z.to_nat K)%nat) by (apply lookup_lt_Some in HWk; lia).
    destruct (HWv k Hk) as (col & b & m & Hcol & Hb & Hmk & HWk').
    rewrite HWk in HWk'. injection HWk' as ->.
    assert (Hlm : length m = 2%nat) by (by apply (has_shape_lookup _ _ _ k _ Hsm')).
    apply length_2 in Hlm as (u & v & ->).
    apply closed_form_off_diagonal. by destruct Hxn. }
  destruct (update_lambda_phi_total_2d psi (lambda_phi p) pi' m' nu' W' beta'
    xn N K) as (phi' & Hphi' & Hsphi'); try done; try lia.
  { eapply Forall_impl; [exact Hbpos|]. simpl. intros; lra. }
  rewrite Hphi'. simpl. eexists _, _. split; [reflexivity|].
  split; [|split; [|done]].
  - repeat split; simpl; try done; try lia; try (by destruct Hsphi');
      try (by destruct Hsm').
    eapply Forall_impl; [exact HWpos|].
    intros W (a & b & c & d & -> & _). apply has_shape_2x2.
  - simpl. apply (update_lambda_phi_pos _ _ _ _ _ _ _ _ _ _ _ _ Hphi').
    by destruct Hphi.
Qed.

(** ** [elbo] on data of the plane answers *)

Lemma NIW_total_2d (psi : R → R) (k : nat) (lambda_nu : vec)
    (lambda_W : list mat) (lambda_m : mat) (lambda_beta : vec)
    (nu b : R) (m : vec) (W : mat) :
  lambda_nu !! k = Some nu → lambda_W !! k = Some W → pos_det_2x2 W →
  lambda_m !! k = Some m → length m = 2%nat →
  lambda_beta !! k = Some b → b ≠ 0 →
  ∃ e00 e01 e10 e11 e12 e13 e2 e3,
    NIW_sufficient_statistics psi k 2 lambda_nu lambda_W lambda_m lambda_beta
    = Ok (NiwStats [e00; e01] [[e10; e11]; [e12; e13]] e2 e3).
Proof.
  intros Hnu HW (a & b' & c & d & -> & Hdet) Hm Hlm Hb Hb0.
  apply length_2 in Hlm as (u & v & ->).
  unfold NIW_sufficient_statistics.
  rewrite (getitem_Some _ _ _ Hnu), (getitem_Some _ _ _ HW),
    (getitem_Some _ _ _ Hm), (getitem_Some _ _ _ Hb). cbn.
  rewrite inv_2x2 by lra. cbn. rewrite div_nonzero by done. cbn.
  rewrite det_2x2. cbn. rewrite log_pos by done. cbn.
  eauto 10.
Qed.

Lemma elbo_total_2d (psi gammaln : R → R) (multigammaln : R → nat → R)
    (K : Z) (p : params) (xn : mat) (N : nat) (Nks : vec) :
  params_shape K N p →
  Forall (Forall (λ v, 0 < v)) (lambda_phi p) →
  Forall pos_det_2x2 (lambda_W p) →
  Forall (λ b, 0 < b) (lambda_beta p) →
  has_shape N 2 xn → length Nks = Z.to_nat K →
  ∃ lb,
    elbo psi gammaln multigammaln K (lambda_phi p) (lambda_pi p) (lambda_m p)
      (lambda_W p) (lambda_beta p) (lambda_nu p) (alpha_o K) nu_o beta_o m_o
      W_o xn (map (λ x, outer x x) xn) N 2 Nks = Ok lb.
Proof.
  intros (Hphi & Hpi & Hbeta & Hnu & Hm & HlW & HW) Hpos HWpos Hbpos Hxn HN.
  unfold elbo.
  rewrite log_pos by (unfold beta_o; rewrite Rabs_pos_eq; lra).
  simpl (Ok _ ≫= _).
  rewrite log_pos by lra. simpl (Ok _ ≫= _).
  match goal with |- ∃ lb, for_each _ ?body ?init ≫= _ = _ =>
    destruct (for_each_seq_total (λ _ _, True) body (Z.to_nat K) 0 init)
      as (pq & Hrun & _)
  end.
  - done.
  - intros k [elbop elboq] Hk _.
    destruct (column_total (lambda_phi p) k (Z.to_nat K)) as (col & Hcol & _);
      [by destruct Hphi|lia|].
    pose proof (shape_column_length _ _ _ _ _ Hphi Hcol) as Hlc.
    destruct (weighted_outers_2d (lambda_phi p) xn N k col Hxn Hcol Hlc)
      as [Haux2 Hsa].
    apply shape_2x2 in Hsa as (a11 & a12 & a21 & a22 & Hsa).
    rewrite Hsa in Haux2.
    destruct (lookup_lt_is_Some_2 (alpha_o K) k) as [a Ha].
    { unfold alpha_o. rewrite length_replicate. lia. }
    destruct (lookup_lt_is_Some_2 (lambda_pi p) k) as [pk Hpk]; [lia|].
    destruct (lookup_lt_is_Some_2 (lambda_m p) k) as [m Hmk]; [destruct Hm; lia|].
    destruct (lookup_lt_is_Some_2 (lambda_nu p) k) as [nu Hnuk]; [lia|].
    destruct (lookup_lt_is_Some_2 (lambda_W p) k) as [W HWk]; [lia|].
    destruct (lookup_lt_is_Some_2 (lambda_beta p) k) as [b Hbk]; [lia|].
    destruct (lookup_lt_is_Some_2 Nks k) as [nk Hnk]; [lia|].
    assert (Hlm : length m = 2%nat) by (by apply (has_shape_lookup _ _ _ k _ Hm)).
    assert (HWp : pos_det_2x2 W).
    { rewrite Forall_lookup in HWpos. by apply (HWpos k). }
    assert (Hb0 : 0 < b).
    { rewrite Forall_lookup in Hbpos. by apply (Hbpos k). }
    destruct (NIW_total_2d psi k (lambda_nu p) (lambda_W p) (lambda_m p)
      (lambda_beta p) nu b m W) as (e00 & e01 & e10 & e11 & e12 & e13 & e2 & e3 & HNIW);
      try done; [lra|].
    destruct (entropy_term_total (lambda_phi p) k col Hcol Hpos) as (h & Hh).
    destruct HWp as (wa & wb & wc & wd & -> & Hdet).
    apply length_2 in Hlm as (u & v & ->).
    rewrite (weighted_points_wsum (lambda_phi p) xn N k col Hxn Hcol Hlc).
    simpl (Ok _ ≫= _). rewrite Haux2. simpl (Ok _ ≫= _).
    unfold dirichlet_expectation.
    rewrite !(getitem_Some _ _ _ Ha), Hcol, HNIW, !(getitem_Some _ _ _ Hnk),
      !(getitem_Some _ _ _ Hpk), !(getitem_Some _ _ _ Hmk),
      !(getitem_Some _ _ _ Hbk), !(getitem_Some _ _ _ HWk),
      !(getitem_Some _ _ _ Hnuk), Hh.
    try unfold m_o. try unfold W_o. cbn.
    rewrite log_pos by (rewrite Rabs_pos_eq; lra). cbn.
    rewrite det_2x2. cbn. rewrite log_pos by done. cbn. eauto.
  - unfold range. rewrite Hrun. simpl. eauto.
Qed.

(** ** The warm start *)

Lemma init_kmeans_rows (KMeans_fit_predict : Z → mat → result (list nat))
    (xn : mat) (N : nat) (K : Z) (labels : list nat) :
  (2 ≤ K)%Z →
  KMeans_fit_predict K xn = Ok labels →
  length labels = N → Forall (λ lab, lab < Z.to_nat K)%nat labels →
  ∃ lambda_phi,
    init_kmeans KMeans_fit_predict xn N K = Ok lambda_phi ∧
    has_shape N (Z.to_nat K) lambda_phi ∧
    Forall (λ row, Forall (λ v, 0 < v) row ∧ Np.sum row = 1) lambda_phi.
Proof.
  intros HK Hlab Hlen Hlt. unfold init_kmeans.
  destruct (Z.eqb_spec (K - 1) 0) as [?|_]; [lia|].
  destruct (Z.ltb_spec K 0) as [?|_]; [lia|].
  rewrite Hlab. simpl. unfold enumerate.
  set (c := 0.1 / IZR (K - 1) * 1).
  assert (Hc : 0 < c ∧ INR (Z.to_nat K) * c - c + 0.9 = 1).
  { assert (HK1 : 1 <= IZR (K - 1)) by (apply IZR_le; lia).
    split.
    - unfold c. apply Rmult_lt_0_compat; [|lra].
      apply Rdiv_lt_0_compat; lra.
    - rewrite INR_IZR_INZ, Z2Nat.id by lia. unfold c.
      rewrite minus_IZR in *. unfold Rdiv.
      assert (Hq : (IZR K - 1) * / (IZR K - 1) = 1) by (apply Rinv_r; lra).
      nra. }
  destruct Hc as [Hc0 Hc1].
  set (good := λ row : vec,
    length row = Z.to_nat K ∧ Forall (λ v, 0 < v) row ∧
    (Np.sum row = 1 ∨ row = replicate (Z.to_nat K) c)).
  assert (Hgen : ∀ (labs : list nat) (i : nat) (phi : mat),
    Forall (λ lab, lab < Z.to_nat K)%nat labs →
    (i + length labs ≤ length phi)%nat →
    Forall good phi →
    (∀ j, (i ≤ j)%nat → j < length phi → phi !! j = Some (replicate (Z.to_nat K) c))%nat →
    ∃ phi',
      for_each (zip (seq i (length labs)) labs)
        (λ (il : nat * nat) lambda_phi,
           row ← getitem lambda_phi il.1;
           row ← setitem row il.2 0.9;
           setitem lambda_phi il.1 row) phi = Ok phi' ∧
      length phi' = length phi ∧ Forall good phi' ∧
      ∀ j, (j < i + length labs)%nat → ∀ row, phi' !! j = Some row →
           Np.sum row = 1 ∨ (j < i)%nat ∧ phi !! j = Some row).
  { induction labs as [|lab labs IH]; intros i phi Hl Hi Hgood Hfresh.
    - exists phi. simpl. split; [done|]. split; [done|]. split; [done|].
      intros j Hj row Hrow. right. split; [lia|done].
    - apply Forall_cons in Hl as [Hlab0 Hl]. simpl in Hi.
      assert (Hrow : phi !! i = Some (replicate (Z.to_nat K) c)).
      { apply Hfresh; lia. }
      set (row' := <[lab:=0.9]> (replicate (Z.to_nat K) c)).
      assert (Hrow' : good row' ∧ Np.sum row' = 1).
      { split; [split; [|split]|].
        - unfold row'. by rewrite length_insert, length_replicate.
        - unfold row'. apply Forall_insert; [|lra].
          apply Forall_replicate. done.
        - left. unfold row'.
          rewrite (sum_insert _ _ c) by (by apply lookup_replicate_2).
          rewrite sum_replicate. lra.
        - unfold row'.
          rewrite (sum_insert _ _ c) by (by apply lookup_replicate_2).
          rewrite sum_replicate. lra. }
      destruct Hrow' as [Hg Hs].
      destruct (IH (S i) (<[i:=row']> phi)) as (phi' & Hrun & Hlen' & Hg' & Hsum).
      + done.
      + rewrite length_insert. lia.
      + by apply Forall_insert.
      + intros j Hj Hjl. rewrite length_insert in Hjl.
        rewrite list_lookup_insert_ne by lia. apply Hfresh; lia.
      + exists phi'. simpl. rewrite (getitem_Some _ _ _ Hrow). simpl.
        rewrite setitem_lt by (rewrite length_replicate; lia). simpl.
        rewrite setitem_lt by lia. simpl. fold row'.
        split; [done|]. split; [by rewrite Hlen', length_insert|].
        split; [done|]. intros j Hj row Hjr.
        destruct (Hsum j ltac:(lia) row Hjr) as [?|[Hji Hjr']]; [by left|].
        destruct (decide (j = i)) as [->|Hne].
        * rewrite list_lookup_insert_eq in Hjr' by lia.
          injection Hjr' as <-. by left.
        * rewrite list_lookup_insert_ne in Hjr' by done.
          right. split; [lia|done]. }
  destruct (Hgen labels 0%nat (replicate N (replicate (Z.to_nat K) c)))
    as (phi' & Hrun & Hlen' & Hg' & Hsum).
  - done.
  - rewrite length_replicate. lia.
  - apply Forall_replicate. split; [by rewrite length_replicate|].
    split; [by apply Forall_replicate|by right].
  - intros j _ Hj. rewrite length_replicate in Hj.
    by apply lookup_replicate_2.
  - exists phi'. split; [exact Hrun|].
    rewrite length_replicate in Hlen'. split.
    + split; [done|]. eapply Forall_impl; [exact Hg'|]. by intros row [? _].
    + apply Forall_lookup. intros j row Hj. split.
      * rewrite Forall_lookup in Hg'. by destruct (Hg' j row Hj) as (_ & ? & _).
      * destruct (Hsum j) with (row := row) as [?|[? _]]; try done; [|lia].
        apply lookup_lt_Some in Hj. lia.
Qed.


(** ** Linear algebra on lists, in any dimension *)

Lemma dot_vv_Ok (x y : vec) :
  length x = length y → dot_vv x y = Ok (Np.sum (zip_with Rmult x y)).
Proof.
  intros H. unfold dot_vv. by rewrite H, Nat.eqb_refl.
Qed.

Lemma dot_vv_inv (x y : vec) (d : R) :
  dot_vv x y = Ok d →
  length x = length y ∧ d = Np.sum (zip_with Rmult x y).
Proof.
  unfold dot_vv. destruct (Nat.eqb_spec (length x) (length y)); [|done].
  by intros [= <-].
Qed.

Lemma dot_Mv_Ok (M : mat) (x : vec) :
  Forall (λ row, length row = length x) M →
  dot_Mv M x = Ok (map (λ row, Np.sum (zip_with Rmult row x)) M).
Proof.
  intros HM. unfold dot_Mv. apply mapM_Ok.
  induction HM as [|row M Hrow _ IH]; simpl; constructor; [|done].
  by apply dot_vv_Ok.
Qed.

Lemma dot_Mv_inv (M : mat) (x y : vec) :
  dot_Mv M x = Ok y →
  Forall (λ row, length row = length x) M ∧
  y = map (λ row, Np.sum (zip_with Rmult row x)) M.
Proof.
  unfold dot_Mv. rewrite mapM_Ok.
  induction 1 as [|row d M y Hd _ [IH1 IH2]]; [done|].
  apply dot_vv_inv in Hd as [Hl ->]. split; [by constructor|].
  simpl. by rewrite IH2.
Qed.

Lemma sum_scal (c : R) (x : vec) : Np.sum (scal c x) = c * Np.sum x.
Proof.
  induction x as [|a x IH]; simpl; [lra|]. rewrite IH. lra.
Qed.

Lemma zip_scal_l (c : R) (x y : vec) :
  zip_with Rmult (scal c x) y = scal c (zip_with Rmult x y).
Proof.
  revert y. induction x as [|a x IH]; intros [|b y]; simpl; try done.
  rewrite IH. f_equal. ring.
Qed.

Lemma zip_scal_r (c : R) (x y : vec) :
  zip_with Rmult x (scal c y) = scal c (zip_with Rmult x y).
Proof.
  revert y. induction x as [|a x IH]; intros [|b y]; simpl; try done.
  rewrite IH. f_equal. ring.
Qed.

Lemma sum_zip_comm (x y : vec) :
  Np.sum (zip_with Rmult x y) = Np.sum (zip_with Rmult y x).
Proof.
  revert y. induction x as [|a x IH]; intros [|b y]; simpl; try done.
  rewrite IH. ring.
Qed.

Lemma length_scal (c : R) (x : vec) : length (scal c x) = length x.
Proof. apply length_map. Qed.

Lemma has_shape_mscal (r c : nat) (a : R) (M : mat) :
  has_shape r c M → has_shape r c (mscal a M).
Proof.
  intros [Hr Hc]. split; [by unfold mscal; rewrite length_map|].
  unfold mscal. apply Forall_map. eapply Forall_impl; [exact Hc|].
  intros row Hrow. simpl. by rewrite length_scal.
Qed.

(** The transpose with the number of columns given. *)
Lemma transpose_shape (r c : nat) (M : mat) :
  has_shape r c M → (0 < r)%nat →
  transpose M = map (λ j, map (λ row, nth j row 0) M) (seq 0 c) ∧
  has_shape c r (transpose M).
Proof.
  intros [Hr Hc] Hpos.
  assert (Hn : ncols M = c).
  { destruct M as [|row M]; [simpl in Hr; lia|].
    apply Forall_cons in Hc as [Hrow _]. done. }
  unfold transpose. rewrite Hn. split; [done|]. split.
  - by rewrite length_map, length_seq.
  - apply Forall_map, Forall_forall. intros j _. simpl.
    by rewrite length_map.
Qed.

Lemma map_nth_seq (row : vec) :
  map (λ j, nth j row 0) (seq 0 (length row)) = row.
Proof.
  apply list_eq. intros i. rewrite list_lookup_fmap.
  destruct (decide (i < length row)%nat) as [Hi|Hi].
  - rewrite lookup_seq_lt by done. simpl.
    destruct (lookup_lt_is_Some_2 row i Hi) as [a Ha]. rewrite Ha.
    f_equal. by apply nth_lookup_Some with (d := 0) in Ha.
  - rewrite lookup_seq_ge by lia. simpl. symmetry.
    apply lookup_ge_None_2. lia.
Qed.

Lemma sum_zip_map_plus (v : vec) (f g : nat → R) (js : list nat) :
  Np.sum (zip_with Rmult v (map (λ j, f j + g j) js))
  = Np.sum (zip_with Rmult v (map f js))
    + Np.sum (zip_with Rmult v (map g js)).
Proof.
  revert v. induction js as [|j js IH]; intros [|a v]; simpl; try lra.
  rewrite IH. ring.
Qed.

Lemma sum_zip_map_scal (v : vec) (c : R) (f : nat → R) (js : list nat) :
  Np.sum (zip_with Rmult v (map (λ j, f j * c) js))
  = c * Np.sum (zip_with Rmult v (map f js)).
Proof.
  revert v. induction js as [|j js IH]; intros [|a v]; simpl; try lra.
  rewrite IH. ring.
Qed.

Lemma sum_zip_map_zero (v : vec) (js : list nat) :
  Np.sum (zip_with Rmult v (map (λ _, 0) js)) = 0.
Proof.
  revert v. induction js as [|j js IH]; intros [|a v]; simpl; try lra.
  rewrite IH. ring.
Qed.

(** The bilinear form [u · (M v)] and its value on the transpose. *)
Lemma bilinear_transpose (M : mat) (u v : vec) (c : nat) :
  Forall (λ row, length row = c) M → length v = c →
  Np.sum (zip_with Rmult u (map (λ row, Np.sum (zip_with Rmult row v)) M))
  = Np.sum (zip_with Rmult v
      (map (λ j, Np.sum (zip_with Rmult (map (λ row, nth j row 0) M) u))
         (seq 0 c))).
Proof.
  intros HM Hv. revert u.
  induction HM as [|row M Hrow _ IH]; intros u.
  - simpl. destruct u; simpl; by rewrite sum_zip_map_zero.
  - destruct u as [|u0 u].
    + simpl. by rewrite sum_zip_map_zero.
    + simpl. rewrite IH.
      rewrite (sum_zip_map_plus v (λ j, nth j row 0 * u0)
        (λ j, Np.sum (zip_with Rmult (map (λ row0, nth j row0 0) M) u))).
      rewrite (sum_zip_map_scal v u0 (λ j, nth j row 0)).
      rewrite <- Hrow, map_nth_seq, (sum_zip_comm v row). ring.
Qed.

Lemma bilinear_symmetric (A : mat) (u v : vec) (r : nat) :
  has_shape r r A → symmetric A → length u = r → length v = r →
  Np.sum (zip_with Rmult u (map (λ row, Np.sum (zip_with Rmult row v)) A))
  = Np.sum (zip_with Rmult v (map (λ row, Np.sum (zip_with Rmult row u)) A)).
Proof.
  intros HA Hsym Hu Hv. destruct (decide (r = 0)%nat) as [->|Hr].
  - destruct u, v; try done.
  - rewrite (bilinear_transpose A u v r) by (by destruct HA).
    destruct (transpose_shape r r A HA) as [Ht _]; [lia|].
    rewrite Hsym in Ht.
    replace (map (λ j, Np.sum (zip_with Rmult (map (λ row, nth j row 0) A) u))
               (seq 0 r))
      with (map (λ row, Np.sum (zip_with Rmult row u)) A); [done|].
    rewrite Ht at 1. by rewrite map_map.
Qed.

Lemma inv_shape (W A : mat) :
  inv W = Ok A → has_shape (length W) (length W) A.
Proof.
  unfold inv. intros H. apply bind_Ok in H as (d & _ & H).
  destruct (Req_dec_T d 0); [done|]. injection H as <-. split.
  - by rewrite length_map, length_seq.
  - apply Forall_map, Forall_forall. intros i _. simpl.
    by rewrite length_map, length_seq.
Qed.

Lemma transpose_row_length (M : mat) :
  Forall (λ row, length row = length M) (transpose M).
Proof.
  unfold transpose. apply Forall_map, Forall_forall. intros j _. simpl.
  by rewrite length_map.
Qed.

Lemma dot_vM_inv (x : vec) (M : mat) (y : vec) :
  dot_vM x M = Ok y →
  length x = length M ∧
  y = map (λ col, Np.sum (zip_with Rmult col x)) (transpose M).
Proof.
  unfold dot_vM. destruct (Nat.eqb_spec (length x) (length M)); [|done].
  intros H. apply dot_Mv_inv in H as [_ ->]. done.
Qed.

Lemma dot_vM_Ok (x : vec) (M : mat) :
  length x = length M →
  dot_vM x M = Ok (map (λ col, Np.sum (zip_with Rmult col x)) (transpose M)).
Proof.
  intros H. unfold dot_vM.
  destruct (Nat.eqb_spec (length x) (length M)); [|done]. apply dot_Mv_Ok.
  eapply Forall_impl; [apply transpose_row_length|].
  simpl. intros; lia.
Qed.

Lemma dot_vM_scal (c : R) (x : vec) (M : mat) (y : vec) :
  dot_vM x M = Ok y → dot_vM (scal c x) M = Ok (scal c y).
Proof.
  intros H. apply dot_vM_inv in H as [Hl ->].
  rewrite dot_vM_Ok by (by rewrite length_scal). f_equal.
  unfold scal at 2. rewrite map_map. apply map_ext. intros col.
  by rewrite zip_scal_r, sum_scal.
Qed.

Lemma dot_vv_scal_l (c : R) (x y : vec) (d : R) :
  dot_vv x y = Ok d → dot_vv (scal c x) y = Ok (c * d).
Proof.
  intros H. apply dot_vv_inv in H as [Hl ->].
  rewrite dot_vv_Ok by (by rewrite length_scal).
  by rewrite zip_scal_l, sum_scal.
Qed.

Lemma dot_MM_mscal (c : R) (A B P : mat) :
  dot_MM A B = Ok P → dot_MM (mscal c A) B = Ok (mscal c P).
Proof.
  unfold dot_MM. rewrite !mapM_Ok. intros H. unfold mscal.
  apply Forall2_fmap. eapply Forall2_impl; [exact H|].
  intros row y. apply dot_vM_scal.
Qed.

Lemma dot_MM_total (A B : mat) :
  Forall (λ row, length row = length B) A → ∃ P, dot_MM A B = Ok P.
Proof.
  intros HA. unfold dot_MM.
  induction HA as [|row A Hrow _ (P & HP)]; [by exists []|].
  eexists. apply mapM_Ok. constructor.
  - by apply dot_vM_Ok.
  - apply mapM_Ok. exact HP.
Qed.

Lemma nth_scal (c : R) (row : vec) (i : nat) :
  nth i (scal c row) 0 = c * nth i row 0.
Proof.
  revert i. induction row as [|a row IH]; intros [|i]; simpl; try lra.
  apply IH.
Qed.

Lemma trace_from_mscal (c : R) (M : mat) (i : nat) :
  trace_from i (mscal c M) = c * trace_from i M.
Proof.
  revert i. induction M as [|row M IH]; intros i; simpl; [lra|].
  rewrite nth_scal, IH. lra.
Qed.

Lemma transpose_mscal (c : R) (M : mat) :
  transpose (mscal c M) = mscal c (transpose M).
Proof.
  unfold transpose.
  assert (Hn : ncols (mscal c M) = ncols M).
  { destruct M; [done|]. simpl. apply length_scal. }
  rewrite Hn. unfold mscal at 2. rewrite map_map. apply map_ext. intros j.
  unfold mscal, scal. rewrite !map_map. apply map_ext. intros row.
  apply nth_scal.
Qed.

Lemma symmetric_mscal (c : R) (M : mat) :
  symmetric M → symmetric (mscal c M).
Proof.
  unfold symmetric. intros H. by rewrite transpose_mscal, H.
Qed.

Lemma length_outer (x y : vec) : length (outer x y) = length x.
Proof. apply length_map. Qed.

(** The inverse of a symmetric two by two array is symmetric. *)
Lemma inv_symmetric_2x2 (a b c d : R) (A : mat) :
  symmetric [[a; b]; [c; d]] → inv [[a; b]; [c; d]] = Ok A → symmetric A.
Proof.
  unfold symmetric at 1, transpose. simpl. intros [= Hbc _] H.
  destruct (Req_dec_T (a * d - b * c) 0) as [Hz|Hnz].
  - unfold inv in H. rewrite det_2x2 in H. simpl in H.
    by destruct (Req_dec_T (a * d - b * c) 0).
  - rewrite inv_2x2 in H by done. injection H as <-.
    unfold symmetric, transpose. simpl. by rewrite Hbc.
Qed.

(** ** The loop of [main] *)

Lemma iterate_inv (psi gammaln : R → R) (multigammaln : R → nat → R) (K : Z)
    (xn : mat) (xn_xnt : list mat) (N D : nat) (n a : nat) (p : params)
    (lbs0 : list R) (r : run) :
  iterate psi gammaln multigammaln K (seq a n) xn xn_xnt N D p lbs0 a
    = Ok r →
  length lbs0 = a →
  ∃ new,
    lbs r = lbs0 ++ new ∧ n_iters r = (a + length new)%nat ∧
    (length new ≤ n)%nat ∧
    (stopped r = false → length new = n) ∧
    (stopped r = true → ∃ i, n_iters r = S i ∧ converged_at (lbs r) i) ∧
    (∀ i, (a ≤ i)%nat →
       (S i < n_iters r)%nat ∨ (S i = n_iters r ∧ stopped r = false) →
       ¬ converged_at (lbs r) i).
Proof.
  revert a p lbs0 r. induction n as [|n IH]; intros a p lbs0 r Hrun Hlen.
  - simpl in Hrun. injection Hrun as <-. exists []. simpl.
    rewrite app_nil_r, Nat.add_0_r. repeat split; try done.
    intros i Hi [?|[? _]]; lia.
  - simpl in Hrun. apply bind_Ok in Hrun as (pn & Hsweep & Hrun).
    apply bind_Ok in Hrun as (lb & Helbo & Hrun).
    assert (Hlb : (lbs0 ++ [lb]) !! a = Some lb).
    { rewrite lookup_app_r by lia. by rewrite Hlen, Nat.sub_diag. }
    assert (Hrec : ∀ r',
      iterate psi gammaln multigammaln K (seq (S a) n) xn xn_xnt N D pn.1
        (lbs0 ++ [lb]) (S a) = Ok r' →
      ∃ new,
        lbs r' = lbs0 ++ lb :: new ∧
        n_iters r' = (a + S (length new))%nat ∧ (length new ≤ n)%nat ∧
        (stopped r' = false → length new = n) ∧
        (stopped r' = true → ∃ i, n_iters r' = S i ∧ converged_at (lbs r') i) ∧
        (∀ i, (S a ≤ i)%nat →
           (S i < n_iters r')%nat ∨ (S i = n_iters r' ∧ stopped r' = false) →
           ¬ converged_at (lbs r') i)).
    { intros r' Hr'. apply IH in Hr' as (new & Hl & Hn & Hle & Hf & Ht & Hno).
      - exists new. split; [by rewrite Hl, <- app_assoc|].
        repeat split; try done; lia.
      - rewrite length_app. simpl. lia. }
    destruct a as [|j].
    + apply Hrec in Hrun as (new & Hl & Hn & Hle & Hf & Ht & Hno).
      exists (lb :: new). simpl.
      split; [done|]. split; [lia|]. split; [lia|]. split; [|split; [done|]].
      * intros Hs. by rewrite Hf.
      * intros i _ Hi. destruct i as [|i]; [intros [? _]; lia|].
        apply Hno; [lia|done].
    + apply bind_Ok in Hrun as (prev & Hprev & Hrun).
      apply getitem_Ok in Hprev.
      destruct (Rlt_dec (Rabs (lb - prev)) THRESHOLD) as [Hlt|Hge].
      * injection Hrun as <-. exists [lb]. simpl.
        split; [done|]. split; [lia|]. split; [lia|]. split; [done|]. split.
        -- intros _. exists (S j). split; [lia|]. split; [lia|].
           exists lb, prev. simpl. rewrite Nat.sub_0_r. done.
        -- intros i Hi [?|[? ?]]; [lia|done].
      * apply Hrec in Hrun as (new & Hl & Hn & Hle & Hf & Ht & Hno).
        exists (lb :: new). simpl.
        split; [done|]. split; [lia|]. split; [lia|]. split; [|split; [done|]].
        -- intros Hs. by rewrite Hf.
        -- intros i Hi Hcase.
           destruct (decide (i = S j)) as [->|Hne]; [|apply Hno; [lia|done]].
           intros (_ & lb' & prev' & Hi1 & Hi2 & Hlt). apply Hge.
           rewrite Hl in Hi1, Hi2.
           replace (lbs0 ++ lb :: new) with ((lbs0 ++ [lb]) ++ new) in Hi1, Hi2
             by (by rewrite <- app_assoc).
           rewrite lookup_app_l in Hi1 by (rewrite length_app; simpl; lia).
           rewrite lookup_app_l in Hi2 by (rewrite length_app; simpl; lia).
           simpl in Hi2. rewrite Nat.sub_0_r in Hi2. congruence.
Qed.

Lemma xn_xnt_total (xn : mat) (N : nat) :
  length xn = N →
  mapM (λ n, x ← getitem xn n; Ok (outer x x)) (seq 0 N)
    = Ok (map (λ x, outer x x) xn).
Proof.
  intros <-. apply mapM_Ok. apply Forall2_same_length_lookup_2.
  - by rewrite length_seq, length_map.
  - intros i n X Hn HX. apply lookup_seq in Hn as [-> Hi]. simpl.
    rewrite list_lookup_fmap in HX.
    destruct (xn !! i) as [x|] eqn:Hx; [|done]. injection HX as <-.
    by rewrite (getitem_Some _ _ _ Hx).
Qed.

(** ** The run on data of the plane answers *)

Lemma iterate_total (psi gammaln : R → R) (multigammaln : R → nat → R)
    (K : Z) (xn : mat) (N : nat) (n a : nat) (p : params) (lbs0 : list R) :
  (0 < K)%Z → has_shape N 2 xn → params_shape K N p →
  Forall (Forall (λ v, 0 <= v)) (lambda_phi p) → length lbs0 = a →
  ∃ r, iterate psi gammaln multigammaln K (seq a n) xn
         (map (λ x, outer x x) xn) N 2 p lbs0 a = Ok r.
Proof.
  intros HK Hxn. revert a p lbs0.
  induction n as [|n IH]; intros a p lbs0 Hshape Hpos Hlen; simpl; [eauto|].
  destruct (sweep_total_2d psi K p xn N HK Hshape Hpos Hxn)
    as (p' & Nks & Hsweep & Hshape' & Hpos' & HW' & Hb' & HN & _).
  rewrite Hsweep. simpl.
  destruct (elbo_total_2d psi gammaln multigammaln K p' xn N Nks)
    as (lb & Hlb); try done.
  rewrite Hlb. simpl.
  assert (Hnext : ∃ r,
    iterate psi gammaln multigammaln K (seq (S a) n) xn
      (map (λ x, outer x x) xn) N 2 p' (lbs0 ++ [lb]) (S a) = Ok r).
  { apply IH; [done| |rewrite length_app; simpl; lia].
    eapply Forall_impl; [exact Hpos'|]. intros row Hrow.
    eapply Forall_impl; [exact Hrow|]. simpl. intros; lra. }
  destruct a as [|j]; [done|].
  destruct (lookup_lt_is_Some_2 (lbs0 ++ [lb]) j) as [prev Hprev].
  { rewrite length_app. simpl. lia. }
  rewrite (getitem_Some _ _ _ Hprev). simpl.
  destruct (Rlt_dec (Rabs (lb - prev)) THRESHOLD); eauto.
Qed.

Lemma initial_params_shape (K : Z)
    (KMeans_fit_predict : Z → mat → result (list nat))
    (np_random_dirichlet : vec → nat → result mat)
    (RANDOM_INIT : bool) (xn : mat) (N : nat) (p0 : params) :
  initial_params K KMeans_fit_predict np_random_dirichlet RANDOM_INIT xn N 2
    = Ok p0 →
  has_shape N (Z.to_nat K) (lambda_phi p0) →
  params_shape K N p0.
Proof.
  unfold initial_params, zeros. intros H Hphi.
  apply bind_Ok in H as (phi & _ & H).
  destruct (Z.ltb_spec K 0); [done|]. simpl in H. injection H as <-.
  unfold params_shape. simpl in *. rewrite !length_replicate.
  split; [done|]. do 3 (split; [done|]). split; [|split; [done|]].
  - split; [by rewrite length_replicate|]. by apply Forall_replicate.
  - apply Forall_replicate. apply has_shape_2x2.
Qed.

Lemma main_total (psi gammaln : R → R) (multigammaln : R → nat → R) (K : Z)
    (KMeans_fit_predict : Z → mat → result (list nat))
    (np_random_dirichlet : vec → nat → result mat)
    (MAX_ITERS : Z) (RANDOM_INIT : bool) (xn : mat) (N : nat) (p0 : params) :
  (0 < K)%Z → has_shape N 2 xn →
  initial_params K KMeans_fit_predict np_random_dirichlet RANDOM_INIT xn N 2
    = Ok p0 →
  has_shape N (Z.to_nat K) (lambda_phi p0) →
  Forall (Forall (λ v, 0 <= v)) (lambda_phi p0) →
  ∃ r, main psi gammaln multigammaln K KMeans_fit_predict np_random_dirichlet
         MAX_ITERS RANDOM_INIT xn N 2 = Ok r.
Proof.
  intros HK Hxn Hinit Hphi Hpos. unfold main. rewrite Hinit. simpl.
  rewrite (xn_xnt_total xn N) by (by destruct Hxn). simpl.
  apply (iterate_total psi gammaln multigammaln K xn N); try done.
  by apply (initial_params_shape K KMeans_fit_predict np_random_dirichlet
              RANDOM_INIT xn).
Qed.

(** With the warm start, at least two components and labels inside
    [range(K)], [main] answers for every dataset of the plane and every
    number of iterations: no sweep meets a singular [lambda_W[k]]. *)
Lemma main_warm_start_total (psi gammaln : R → R)
    (multigammaln : R → nat → R) (K : Z)
    (KMeans_fit_predict : Z → mat → result (list nat))
    (np_random_dirichlet : vec → nat → result mat)
    (MAX_ITERS : Z) (xn : mat) (N : nat) (labels : list nat) :
  (2 ≤ K)%Z → has_shape N 2 xn →
  KMeans_fit_predict K xn = Ok labels →
  length labels = N → Forall (λ lab, lab < Z.to_nat K)%nat labels →
  ∃ r, main psi gammaln multigammaln K KMeans_fit_predict np_random_dirichlet
         MAX_ITERS false xn N 2 = Ok r.
Proof.
  intros HK Hxn Hlab Hlen Hlt.
  destruct (init_kmeans_rows KMeans_fit_predict xn N K labels HK Hlab Hlen Hlt)
    as (phi & Hphi & Hshape & Hrows).
  eapply main_total with (p0 := Params phi _ _ _ _ _); try done; [lia| |].
  - unfold initial_params, zeros. rewrite Hphi. simpl.
    destruct (Z.ltb_spec K 0); [lia|]. reflexivity.
  - simpl. eapply Forall_impl; [exact Hrows|]. intros row [Hrow _].
    eapply Forall_impl; [exact Hrow|]. simpl. intros; lra.
Qed.

(** What a run that returns tells about its trace of ELBO values. *)
Lemma main_trace (psi gammaln : R → R) (multigammaln : R → nat → R) (K : Z)
    (KMeans_fit_predict : Z → mat → result (list nat))
    (np_random_dirichlet : vec → nat → result mat)
    (MAX_ITERS : Z) (RANDOM_INIT : bool) (xn : mat) (N D : nat) (r : run) :
  main psi gammaln multigammaln K KMeans_fit_predict np_random_dirichlet
    MAX_ITERS RANDOM_INIT xn N D = Ok r →
  length (lbs r) = n_iters r ∧
  (n_iters r ≤ Z.to_nat MAX_ITERS)%nat ∧
  (stopped r = true ↔ ∃ i, n_iters r = S i ∧ converged_at (lbs r) i) ∧
  (stopped r = true → (2 ≤ n_iters r)%nat) ∧
  (∀ i, (S i < n_iters r)%nat → ¬ converged_at (lbs r) i) ∧
  (stopped r = false → n_iters r = Z.to_nat MAX_ITERS).
Proof.
  unfold main, range. intros Hrun.
  apply bind_Ok in Hrun as (p0 & _ & Hrun).
  apply bind_Ok in Hrun as (xn_xnt & _ & Hrun).
  apply iterate_inv in Hrun as (new & Hl & Hn & Hle & Hf & Ht & Hno); [|done].
  simpl in Hl, Hn. split; [by rewrite Hl, Hn|]. split; [lia|].
  assert (Hiff : stopped r = true ↔ ∃ i, n_iters r = S i ∧ converged_at (lbs r) i).
  { split; [done|]. intros (i & Hi & Hc).
    destruct (stopped r) eqn:Hs; [done|]. exfalso.
    apply (Hno i); [lia| |done]. right. done. }
  split; [done|]. split.
  - intros Hs. apply Ht in Hs as (i & Hi & Hpos & _). lia.
  - split.
    + intros i Hi. apply Hno; [lia|]. by left.
    + intros Hs. rewrite Hn, (Hf Hs). done.
Qed.

(** ** Rows of [lambda_phi] as probability distributions *)



(** ** The scale matrices after a sweep *)

(** C3.  After a sweep of [main] on data of the plane, started from
    non-negative responsibilities, every [lambda_W[k]] has a positive
    determinant but is not symmetric: the prior [W_o] of [main] is
    [[20, 30], [25, 40]], and its two off-diagonal entries stay five
    apart in every [lambda_W[k]]. *)
Theorem lambda_W_after_sweep (psi : R → R) (K : Z) (p : params) (xn : mat)
    (N : nat) (p' : params) (Nks : vec) :
  (0 < K)%Z → params_shape K N p →
  Forall (Forall (λ v, 0 <= v)) (lambda_phi p) → has_shape N 2 xn →
  sweep psi K p xn (map (λ x, outer x x) xn) N 2 = Ok (p', Nks) →
  length (lambda_W p') = Z.to_nat K ∧
  Forall (λ W, ¬ symmetric W ∧ pos_det_2x2 W) (lambda_W p').
Proof.
  intros HK Hshape Hpos Hxn Hrun.
  destruct (sweep_total_2d psi K p xn N HK Hshape Hpos Hxn)
    as (q & Nks' & Hq & Hshape' & _ & Hdet & _ & _ & Hoff).
  rewrite Hrun in Hq. injection Hq as <- <-.
  split; [by destruct Hshape' as (_ & _ & _ & _ & _ & ? & _)|].
  apply Forall_lookup. intros k W HW.
  rewrite Forall_lookup in Hdet. rewrite Forall_lookup in Hoff.
  split; [|by apply (Hdet k)].
  destruct (Hoff k W HW) as (w11 & w12 & w21 & w22 & -> & Hd).
  by apply off_diagonal_not_symmetric.
Qed.

(** ** The update of [lambda_W] *)

(** C4, as amended.  On a dataset of [N] points of the plane (D = 2),
    with arrays of the shapes [main] gives them, [update_lambda_W]
    answers and sets every [lambda_W[k]], [k < K], to
    [W_o + beta_o * outer(m_o, m_o) + Σ_n lambda_phi[n,k] * outer(x_n, x_n)
     − lambda_beta[k] * outer(lambda_m[k], lambda_m[k])]. *)
Theorem update_lambda_W_closed_form (lambda_W : list mat) (lambda_phi : mat)
    (lambda_beta : vec) (lambda_m W_o : mat) (beta_o : R) (m_o : vec)
    (xn : mat) (K : Z) (N : nat) :
  has_shape N 2 xn →
  has_shape N (Z.to_nat K) lambda_phi →
  length lambda_beta = Z.to_nat K →
  has_shape (Z.to_nat K) 2 lambda_m →
  length lambda_W = Z.to_nat K → Forall (has_shape 2 2) lambda_W →
  has_shape 2 2 W_o → length m_o = 2%nat →
  ∃ lambda_W',
    update_lambda_W lambda_W lambda_phi lambda_beta lambda_m W_o beta_o m_o
      (map (λ x, outer x x) xn) K N = Ok lambda_W' ∧
    length lambda_W' = length lambda_W ∧
    ∀ k, (k < Z.to_nat K)%nat →
      ∃ col b m,
        column lambda_phi k = Ok col ∧ lambda_beta !! k = Some b ∧
        lambda_m !! k = Some m ∧
        lambda_W' !! k
          = Some (Spec.lambda_W_closed_form 2 W_o beta_o m_o col xn b m).
Proof.
  apply update_lambda_W_total_2d.
Qed.

(** ** Termination of the run *)


(** ** The inline terms of update 6 and the sufficient statistics *)

Lemma NIW_inv (psi : R → R) (k D : nat) (lambda_nu : vec)
    (lambda_W : list mat) (lambda_m : mat) (lambda_beta : vec)
    (ss : niw_stats) :
  NIW_sufficient_statistics psi k D lambda_nu lambda_W lambda_m lambda_beta
    = Ok ss →
  ∃ nu W A m b q y d dt l,
    lambda_nu !! k = Some nu ∧ lambda_W !! k = Some W ∧ inv W = Ok A ∧
    lambda_m !! k = Some m ∧ dot_Mv (mscal nu A) m = Ok (ss0 ss) ∧
    ss1 ss = mscal (-1 / 2 * nu) A ∧
    lambda_beta !! k = Some b ∧ Np.div 1 b = Ok q ∧
    dot_vM m A = Ok y ∧ dot_vv y m = Ok d ∧
    ss2 ss = - INR D / 2 * q - 1 / 2 * nu * d ∧
    det W = Ok dt ∧ Np.log dt = Ok l ∧
    ss3 ss = INR D / 2 * ln 2 + 1 / 2 * Np.sum (map psi (psi_args nu D))
             - 1 / 2 * l.
Proof.
  unfold NIW_sufficient_statistics. intros H.
  apply bind_Ok in H as (nu & Hnu & H). apply bind_Ok in H as (W & HW & H).
  apply bind_Ok in H as (A & HA & H). apply bind_Ok in H as (m & Hm & H).
  apply bind_Ok in H as (e0 & He0 & H). cbv zeta in H.
  apply bind_Ok in H as (b & Hb & H). apply bind_Ok in H as (q & Hq & H).
  apply bind_Ok in H as (y & Hy & H). apply bind_Ok in H as (d & Hd & H).
  apply bind_Ok in H as (dt & Hdt & H). apply bind_Ok in H as (l & Hl & H).
  injection H as <-. apply getitem_Ok in Hnu, HW, Hm, Hb.
  exists nu, W, A, m, b, q, y, d, dt, l. simpl. repeat split; done.
Qed.

(** C6, as amended.  Where [NIW_sufficient_statistics] answers for
    component [k] and [x_n] has the dimension of the component, the
    terms computed inline in [update_lambda_phi] answer too, and three
    of the four groups are equal to the helper's entries for every value
    of the parameters: minus the trace term is the trace of
    [ss[1]] times [outer(x_n, x_n)], minus the beta term minus the
    quadratic mean term is [ss[2]], and the log-determinant group is
    [ss[3]].  The precision-weighted mean term is [x_n · ss[0]] when the
    inverse of [lambda_W[k]] is symmetric. *)
Theorem inline_terms_and_statistics (psi : R → R) (lambda_m : mat)
    (lambda_nu : vec) (lambda_W : list mat) (lambda_beta : vec) (xn : mat)
    (D n k : nat) (ss : niw_stats) (x : vec) :
  NIW_sufficient_statistics psi k D lambda_nu lambda_W lambda_m lambda_beta
    = Ok ss →
  xn !! n = Some x → length x = length (ss0 ss) →
  ∃ t1 t2 t3 t4 t6 t7 P,
    phi_term1 lambda_m lambda_nu lambda_W xn n k = Ok t1 ∧
    phi_term2 lambda_nu lambda_W xn n k = Ok t2 ∧
    phi_term3 lambda_beta D k = Ok t3 ∧
    phi_term4 lambda_m lambda_nu lambda_W k = Ok t4 ∧
    phi_term6 psi lambda_nu D k = Ok t6 ∧
    phi_term7 lambda_W k = Ok t7 ∧
    dot_MM (ss1 ss) (outer x x) = Ok P ∧
    - t2 = trace P ∧
    - t3 - t4 = ss2 ss ∧
    phi_term5 D + t6 - t7 = ss3 ss ∧
    ((∃ W A, lambda_W !! k = Some W ∧ inv W = Ok A ∧ symmetric A) →
     dot_vv x (ss0 ss) = Ok t1).
Proof.
  intros HNIW Hx Hlx.
  apply NIW_inv in HNIW
    as (nu & W & A & m & b & q & y & d & dt & l & Hnu & HW & HA & Hm & He0
        & Hs1 & Hb & Hq & Hy & Hd & Hs2 & Hdt & Hl & Hs3).
  pose proof (inv_shape W A HA) as HsA. set (r := length W) in *.
  pose proof (dot_Mv_inv _ _ _ He0) as [_ He0v].
  assert (Hxr : length x = r).
  { rewrite Hlx, He0v, length_map. unfold mscal. rewrite length_map.
    by destruct HsA. }
  pose proof (dot_vM_inv _ _ _ Hy) as [Hmr _].
  assert (Hmr' : length m = r) by (destruct HsA; lia).
  assert (HnA : has_shape r r (mscal nu A)) by (by apply has_shape_mscal).
  assert (Hrows : Forall (λ row : vec, length row = length x) (mscal nu A)).
  { destruct HnA as [_ Hc]. eapply Forall_impl; [exact Hc|].
    simpl. intros; lia. }
  destruct (dot_MM_total A (outer x x)) as (P0 & HP0).
  { destruct HsA as [_ Hc]. eapply Forall_impl; [exact Hc|].
    simpl. intros row Hrow. rewrite length_outer. lia. }
  exists (Np.sum (zip_with Rmult m
            (map (λ row, Np.sum (zip_with Rmult row x)) (mscal nu A)))),
    (trace (mscal (1 / 2 * nu) P0)), (INR D / 2 * q), (1 / 2 * (nu * d)),
    (1 / 2 * Np.sum (map psi (psi_args nu D))), (1 / 2 * l),
    (mscal (-1 / 2 * nu) P0).
  split.
  { unfold phi_term1.
    rewrite (getitem_Some _ _ _ Hm), (getitem_Some _ _ _ Hnu),
      (getitem_Some _ _ _ HW). simpl. rewrite HA. simpl.
    rewrite (getitem_Some _ _ _ Hx). simpl.
    rewrite (dot_Mv_Ok _ _ Hrows). simpl. apply dot_vv_Ok.
    rewrite length_map. destruct HnA. lia. }
  split.
  { unfold phi_term2.
    rewrite (getitem_Some _ _ _ Hnu), (getitem_Some _ _ _ HW). simpl.
    rewrite HA. simpl. rewrite (getitem_Some _ _ _ Hx). simpl.
    by rewrite (dot_MM_mscal _ _ _ _ HP0). }
  split.
  { unfold phi_term3. rewrite (getitem_Some _ _ _ Hb). simpl.
    by rewrite Hq. }
  split.
  { unfold phi_term4.
    rewrite (getitem_Some _ _ _ Hnu), (getitem_Some _ _ _ Hm),
      (getitem_Some _ _ _ HW). simpl. rewrite HA. simpl.
    rewrite (dot_vM_scal _ _ _ _ Hy). simpl.
    by rewrite (dot_vv_scal_l _ _ _ _ Hd). }
  split.
  { unfold phi_term6. by rewrite (getitem_Some _ _ _ Hnu). }
  split.
  { unfold phi_term7. rewrite (getitem_Some _ _ _ HW). simpl.
    rewrite Hdt. simpl. by rewrite Hl. }
  split.
  { rewrite Hs1. by apply dot_MM_mscal. }
  split.
  { unfold trace. rewrite !trace_from_mscal. lra. }
  split; [rewrite Hs2; lra|].
  split; [rewrite Hs3; unfold phi_term5; lra|].
  intros (W' & A' & HW' & HA' & Hsym).
  rewrite HW in HW'. injection HW' as <-.
  rewrite HA in HA'. injection HA' as <-.
  rewrite dot_vv_Ok by done. f_equal. rewrite He0v.
  apply (bilinear_symmetric (mscal nu A) x m r); try done.
  by apply symmetric_mscal.
Qed.

(** C6 fails as stated: for the (non-symmetric) prior scale matrix of
    [main] as [lambda_W[0]], the mean [(1, 0)] and the point [(0, 1)],
    the term computed inline is [-3/5] and the contraction of the point
    with the helper's first entry is [-1/2]. *)
Lemma inline_mean_term_differs :
  phi_term1 A1_lambda_m A1_lambda_nu A1_lambda_W A1_xn 0 0 = Ok (- 3 / 5) ∧
  ∀ psi : R → R, ∃ ss,
    NIW_sufficient_statistics psi 0 2 A1_lambda_nu A1_lambda_W A1_lambda_m
      A1_lambda_beta = Ok ss ∧
    dot_vv [0; 1] (ss0 ss) = Ok (- 1 / 2) ∧
    - 3 / 5 ≠ - 1 / 2.
Proof.
  split.
  - unfold phi_term1, A1_lambda_m, A1_lambda_nu, A1_lambda_W, A1_xn, getitem.
    cbn. rewrite inv_2x2 by lra. cbn. f_equal. field.
  - intros psi. unfold NIW_sufficient_statistics, A1_lambda_m, A1_lambda_nu,
      A1_lambda_W, A1_lambda_beta, getitem.
    cbn. rewrite inv_2x2 by lra. cbn. rewrite div_nonzero by lra. cbn.
    rewrite det_2x2. cbn. rewrite log_pos by lra. cbn.
    eexists. split; [reflexivity|]. split; [|lra].
    unfold dot_vv. cbn. f_equal. field.
Qed.

(** C7.  With [MAX_ITERS = 0] the loop body never runs: [main] ends with
    the initial parameters as they were made, an empty trace of ELBO
    values, zero iterations, and without having taken the [break]
    (the budget is exhausted). *)
Theorem main_zero_iterations (psi gammaln : R → R)
    (multigammaln : R → nat → R) (K : Z)
    (KMeans_fit_predict : Z → mat → result (list nat))
    (np_random_dirichlet : vec → nat → result mat)
    (RANDOM_INIT : bool) (xn : mat) (N D : nat) (p0 : params) :
  initial_params K KMeans_fit_predict np_random_dirichlet RANDOM_INIT xn N D
    = Ok p0 →
  length xn = N →
  main psi gammaln multigammaln K KMeans_fit_predict np_random_dirichlet
    0 RANDOM_INIT xn N D = Ok (Run p0 [] 0 false).
Proof.
  intros Hinit HN. unfold main. rewrite Hinit. simpl.
  rewrite (xn_xnt_total xn N HN). reflexivity.
Qed.

(** ** The number of components is not validated *)

(** C8, as amended.  [main] has no check of [K].  With [K = 1] and the
    warm start the run ends in [init_kmeans] with [ZeroDivisionError],
    raised by [0.1 / (K - 1)]; with a negative [K] it ends with an
    exception raised while the arrays are made.  Both are exceptions of
    the computation, whatever the dataset and the iteration budget. *)
Theorem main_small_K (psi gammaln : R → R) (multigammaln : R → nat → R)
    (KMeans_fit_predict : Z → mat → result (list nat))
    (np_random_dirichlet : vec → nat → result mat)
    (MAX_ITERS : Z) (xn : mat) (N D : nat) :
  main psi gammaln multigammaln 1 KMeans_fit_predict np_random_dirichlet
    MAX_ITERS false xn N D = Raise ZeroDivisionError ∧
  ∀ (K : Z) (RANDOM_INIT : bool), (K < 0)%Z →
    ∃ e, main psi gammaln multigammaln K KMeans_fit_predict
           np_random_dirichlet MAX_ITERS RANDOM_INIT xn N D = Raise e.
Proof.
  split; [reflexivity|].
  intros K RANDOM_INIT HK. unfold main, initial_params, zeros.
  destruct (if RANDOM_INIT then np_random_dirichlet (alpha_o K) N
            else init_kmeans KMeans_fit_predict xn N K) as [phi|e];
    simpl; [|eauto].
  destruct (Z.ltb_spec K 0); [|lia]. simpl. eauto.
Qed.

(** ** The expected membership counts *)

(** C9.  After a sweep, for every component [k], the new
    [lambda_pi[k] - alpha_o[k]], [lambda_beta[k] - beta_o] and
    [lambda_nu[k] - nu_o] are all equal to the sum over [n] of the
    responsibilities [lambda_phi[n, k]] the sweep started from, and this
    count is non-negative when those responsibilities are. *)
Theorem sweep_expected_counts (psi : R → R) (K : Z) (p : params) (xn : mat)
    (xn_xnt : list mat) (N D : nat) (p' : params) (Nks : vec) :
  sweep psi K p xn xn_xnt N D = Ok (p', Nks) →
  ∀ k, (k < Z.to_nat K)%nat →
    ∃ (col : vec) (a pi_k beta_k nu_k : R),
      column (lambda_phi p) k = Ok col ∧
      alpha_o K !! k = Some a ∧
      lambda_pi p' !! k = Some pi_k ∧
      lambda_beta p' !! k = Some beta_k ∧
      lambda_nu p' !! k = Some nu_k ∧
      pi_k - a = Np.sum col ∧
      beta_k - beta_o = Np.sum col ∧
      nu_k - nu_o = Np.sum col ∧
      (Forall (Forall (λ v, 0 <= v)) (lambda_phi p) → 0 <= Np.sum col).
Proof.
  intros H k Hk. unfold sweep in H. inv_result. subst p'.
  match goal with H : update_lambda_pi _ _ _ _ = Ok _ |- _ =>
    apply update_lambda_pi_Ok in H as [_ Hpi] end.
  match goal with H : update_lambda_beta _ _ _ _ = Ok _ |- _ =>
    apply update_counts_Ok in H as [_ Hbeta] end.
  match goal with H : update_lambda_nu _ _ _ _ = Ok _ |- _ =>
    apply update_counts_Ok in H as [_ Hnu] end.
  destruct (Hpi k Hk) as (a & col & Ha & Hcol & Hpik).
  destruct (Hbeta k Hk) as (nb & Hnb & Hbk).
  destruct (Hnu k Hk) as (nn & Hnn & Hnk).
  pose proof (sum_axis0_lookup (Z.to_nat K) (lambda_phi p) col k Hk Hcol) as Hs.
  rewrite Hs in Hnb, Hnn. injection Hnb as <-. injection Hnn as <-.
  exists col, a, (a + Np.sum col), (beta_o + Np.sum col), (nu_o + Np.sum col).
  simpl. repeat split; try done; try lra.
  intros Hpos. apply sum_nonneg. by apply (column_Forall _ (lambda_phi p) k).
Qed.

(** ** Positive responsibilities *)




Lemma K10_update_answers (psi : R → R) :
  ∃ lambda_phi',
    update_lambda_phi psi K10_lambda_phi K10_lambda_pi K10_lambda_m
      K10_lambda_nu K10_lambda_W K10_lambda_beta K10_xn 1 10 2
      = Ok lambda_phi' ∧
    has_shape 1 (Z.to_nat 10) lambda_phi'.
Proof.
  apply update_lambda_phi_total_2d; try done.
  - split; [done|]. by repeat constructor.
  - split; [done|]. by repeat constructor.
  - apply Forall_replicate. exists 1, 0, 0, 1. split; [done|lra].
  - apply Forall_replicate. lra.
  - split; [done|]. by repeat constructor.
Qed.


(** C4 fails as stated: on a point of three coordinates
    [update_lambda_W] raises [ValueError] (the buffer [aux] is two by
    two) and sets no [lambda_W[k]]. *)
Lemma update_lambda_W_three_dimensions :
  has_shape 1 3 D3_xn ∧
  update_lambda_W D3_lambda_W D3_lambda_phi D3_lambda_beta D3_lambda_m D3_W_o
    1 D3_m_o (map (λ x, outer x x) D3_xn) 1 1 = Raise ValueError ∧
  ¬ ∃ lambda_W',
      update_lambda_W D3_lambda_W D3_lambda_phi D3_lambda_beta D3_lambda_m
        D3_W_o 1 D3_m_o (map (λ x, outer x x) D3_xn) 1 1 = Ok lambda_W' ∧
      lambda_W' !! 0%nat
        = Some (Spec.lambda_W_closed_form 3 D3_W_o 1 D3_m_o [1] D3_xn 1
                  [0; 0; 0]).
Proof.
  assert (H : update_lambda_W D3_lambda_W D3_lambda_phi D3_lambda_beta
    D3_lambda_m D3_W_o 1 D3_m_o (map (λ x, outer x x) D3_xn) 1 1
    = Raise ValueError) by reflexivity.
  split; [split; [done|by repeat constructor]|]. split; [done|].
  intros (lambda_W' & Hrun & _). rewrite H in Hrun. discriminate.
Qed.

(** In one dimension the accumulation is broadcast, and the assignment
    to the one by one slot [lambda_W[k, :, :]] raises. *)
Lemma update_lambda_W_one_dimension :
  update_lambda_W D1_lambda_W D3_lambda_phi D3_lambda_beta D1_lambda_m D1_W_o
    1 D1_m_o (map (λ x, outer x x) D1_xn) 1 1 = Raise ValueError.
Proof. reflexivity. Qed.

(** ** The theorems at work on the example data *)

Lemma ex_xn_shape : has_shape 2 2 ex_xn.
Proof. split; [done|]. by repeat constructor. Qed.

Lemma ex_p0_shape : params_shape 2 2 ex_p0.
Proof.
  unfold params_shape, ex_p0. simpl.
  repeat split; try done; repeat constructor; done.
Qed.

Lemma ex_p0_nonneg : Forall (Forall (λ v, 0 <= v)) (lambda_phi ex_p0).
Proof. simpl. repeat constructor; lra. Qed.

(** C8 fails as stated: with [K = 1] and the random start the run is
    not rejected; it makes its sweep and returns. *)
Lemma single_component_run_accepted :
  has_shape 2 2 ex_xn ∧
  ∀ (psi gammaln : R → R) (multigammaln : R → nat → R), ∃ r,
    main psi gammaln multigammaln 1 ex_KMeans K1_dirichlet 1 true ex_xn 2 2
      = Ok r ∧
    n_iters r = 1%nat ∧ stopped r = false.
Proof.
  split; [exact ex_xn_shape|]. intros psi gammaln multigammaln.
  destruct (main_total psi gammaln multigammaln 1 ex_KMeans K1_dirichlet 1
    true ex_xn 2
    (Params [[1]; [1]] [0] [0] [0] [[0; 0]] [[[0; 0]; [0; 0]]]))
    as (r & Hr).
  - lia.
  - exact ex_xn_shape.
  - reflexivity.
  - split; [done|]. by repeat constructor.
  - simpl. repeat constructor; lra.
  - exists r. split; [done|].
    destruct (main_trace _ _ _ _ _ _ _ _ _ _ _ _ Hr)
      as (_ & Hle & _ & H2 & _ & Hmax).
    change (Z.to_nat 1) with 1%nat in *.
    destruct (stopped r); [specialize (H2 eq_refl); lia|].
    split; [by apply Hmax|done].
Qed.


(** The scale matrices after one sweep on the two example points. *)
Lemma lambda_W_after_sweep_witness :
  params_shape 2 2 ex_p0 ∧
  ∀ psi : R → R, ∃ p' Nks,
    sweep psi 2 ex_p0 ex_xn (map (λ x, outer x x) ex_xn) 2 2 = Ok (p', Nks) ∧
    length (lambda_W p') = 2%nat ∧
    Forall (λ W, ¬ symmetric W ∧ pos_det_2x2 W) (lambda_W p').
Proof.
  split; [exact ex_p0_shape|]. intros psi.
  destruct (sweep_total_2d psi 2 ex_p0 ex_xn 2)
    as (p' & Nks & Hs & _); [lia|exact ex_p0_shape|exact ex_p0_nonneg
                             |exact ex_xn_shape|].
  exists p', Nks. split; [done|].
  apply (lambda_W_after_sweep psi 2 ex_p0 ex_xn 2 p' Nks);
    [lia|exact ex_p0_shape|exact ex_p0_nonneg|exact ex_xn_shape|done].
Defined.

(** The closed form on the two example points. *)
Lemma update_lambda_W_closed_form_witness :
  has_shape 2 2 ex_xn ∧
  ∃ lambda_W',
    update_lambda_W (lambda_W ex_p0) (lambda_phi ex_p0) [1.7; 1.7]
      [[1; 0]; [0; 1]] W_o beta_o m_o (map (λ x, outer x x) ex_xn) 2 2
      = Ok lambda_W' ∧
    lambda_W' !! 0%nat
      = Some (Spec.lambda_W_closed_form 2 W_o beta_o m_o [0.9; 0.1] ex_xn
                1.7 [1; 0]).
Proof.
  split; [exact ex_xn_shape|].
  destruct (update_lambda_W_closed_form (lambda_W ex_p0) (lambda_phi ex_p0)
    [1.7; 1.7] [[1; 0]; [0; 1]] W_o beta_o m_o ex_xn 2 2)
    as (lambda_W' & Hrun & _ & Hk).
  - exact ex_xn_shape.
  - by destruct ex_p0_shape.
  - done.
  - split; [done|]. by repeat constructor.
  - done.
  - by destruct ex_p0_shape as (_ & _ & _ & _ & _ & _ & ?).
  - apply has_shape_2x2.
  - done.
  - exists lambda_W'. split; [done|].
    destruct (Hk 0%nat) as (col & b & m & Hcol & Hb & Hm & HW);
      [change (Z.to_nat 2) with 2%nat; lia|].
    injection Hcol as <-. injection Hb as <-. injection Hm as <-. exact HW.
Defined.


(** The mean term for a symmetric [lambda_W[0]]. *)
Lemma inline_terms_and_statistics_witness :
  symmetric [[2; 1]; [1; 2]] ∧
  ∀ psi : R → R, ∃ ss t1,
    NIW_sufficient_statistics psi 0 2 A1_lambda_nu S1_lambda_W A1_lambda_m
      A1_lambda_beta = Ok ss ∧
    phi_term1 A1_lambda_m A1_lambda_nu S1_lambda_W A1_xn 0 0 = Ok t1 ∧
    dot_vv [0; 1] (ss0 ss) = Ok t1.
Proof.
  split; [reflexivity|]. intros psi.
  destruct (NIW_total_2d psi 0 A1_lambda_nu S1_lambda_W A1_lambda_m
    A1_lambda_beta 1 1 [1; 0] [[2; 1]; [1; 2]])
    as (e00 & e01 & e10 & e11 & e12 & e13 & e2 & e3 & Hss);
    [reflexivity|reflexivity|exists 2, 1, 1, 2; split; [reflexivity|lra]
    |reflexivity|reflexivity|reflexivity|lra|].
  destruct (inline_terms_and_statistics psi A1_lambda_m A1_lambda_nu
    S1_lambda_W A1_lambda_beta A1_xn 2 0 0 _ [0; 1] Hss eq_refl eq_refl)
    as (t1 & t2 & t3 & t4 & t6 & t7 & P & H1 & _ & _ & _ & _ & _ & _ & _ & _
        & _ & Hsym).
  eexists _, t1. split; [exact Hss|]. split; [exact H1|].
  apply Hsym. exists [[2; 1]; [1; 2]].
  destruct (inv [[2; 1]; [1; 2]]) as [A|e] eqn:HA.
  - exists A. split; [done|]. split; [done|].
    by apply (inv_symmetric_2x2 2 1 1 2).
  - rewrite inv_2x2 in HA by lra. discriminate.
Defined.

(** The run on the two example points with no iteration. *)
Lemma main_zero_iterations_witness :
  ∃ p0,
    initial_params 2 ex_KMeans K1_dirichlet false ex_xn 2 2 = Ok p0 ∧
    ∀ (psi gammaln : R → R) (multigammaln : R → nat → R),
      main psi gammaln multigammaln 2 ex_KMeans K1_dirichlet 0 false ex_xn
        2 2 = Ok (Run p0 [] 0 false).
Proof.
  eexists. split; [reflexivity|]. intros psi gammaln multigammaln.
  apply (main_zero_iterations psi gammaln multigammaln 2 ex_KMeans
           K1_dirichlet false ex_xn 2 2); reflexivity.
Defined.

(** The counts of the first component after one sweep. *)
Lemma sweep_expected_counts_witness :
  params_shape 2 2 ex_p0 ∧
  ∀ psi : R → R, ∃ p' Nks,
    sweep psi 2 ex_p0 ex_xn (map (λ x, outer x x) ex_xn) 2 2 = Ok (p', Nks) ∧
    ∃ (col : vec) (a pi_k beta_k nu_k : R),
      column (lambda_phi ex_p0) 0 = Ok col ∧
      alpha_o 2 !! 0%nat = Some a ∧
      lambda_pi p' !! 0%nat = Some pi_k ∧
      lambda_beta p' !! 0%nat = Some beta_k ∧
      lambda_nu p' !! 0%nat = Some nu_k ∧
      pi_k - a = Np.sum col ∧
      beta_k - beta_o = Np.sum col ∧
      nu_k - nu_o = Np.sum col ∧
      (Forall (Forall (λ v, 0 <= v)) (lambda_phi ex_p0) → 0 <= Np.sum col).
Proof.
  split; [exact ex_p0_shape|]. intros psi.
  destruct (sweep_total_2d psi 2 ex_p0 ex_xn 2)
    as (p' & Nks & Hs & _); [lia|exact ex_p0_shape|exact ex_p0_nonneg
                             |exact ex_xn_shape|].
  exists p', Nks. split; [done|].
  apply (sweep_expected_counts psi 2 ex_p0 ex_xn _ 2 2 p' Nks Hs 0%nat).
  change (Z.to_nat 2) with 2%nat. lia.
Defined.


(** One component with the warm start, and minus one component. *)
Lemma main_small_K_witness :
  (-1 < 0)%Z ∧
  ∀ (psi gammaln : R → R) (multigammaln : R → nat → R) (MAX_ITERS : Z),
    main psi gammaln multigammaln 1 ex_KMeans K1_dirichlet MAX_ITERS false
      ex_xn 2 2 = Raise ZeroDivisionError ∧
    ∃ e, main psi gammaln multigammaln (-1) ex_KMeans K1_dirichlet MAX_ITERS
           true ex_xn 2 2 = Raise e.
Proof.
  split; [lia|]. intros psi gammaln multigammaln MAX_ITERS.
  destruct (main_small_K psi gammaln multigammaln ex_KMeans K1_dirichlet
    MAX_ITERS ex_xn 2 2) as [H1 Hneg].
  split; [exact H1|]. apply Hneg. lia.
Defined.

(** ** Further properties of the run *)



(** On points of the plane [update_lambda_m] sets every [lambda_m[k]] to
    [(m_o * beta_o + Σ_n lambda_phi[n,k] * x_n) / lambda_beta[k]],
    coordinate by coordinate, when no [lambda_beta[k]] is zero. *)
Theorem update_lambda_m_closed_form (K : Z) (lambda_m lambda_phi : mat)
    (lambda_beta : vec) (m0 m1 beta_o : R) (xn : mat) (N : nat) :
  has_shape N 2 xn →
  has_shape N (Z.to_nat K) lambda_phi →
  length lambda_beta = Z.to_nat K → Forall (λ b, b ≠ 0) lambda_beta →
  has_shape (Z.to_nat K) 2 lambda_m →
  ∃ lambda_m',
    update_lambda_m K lambda_m lambda_phi lambda_beta [m0; m1] beta_o xn N
      = Ok lambda_m' ∧
    has_shape (Z.to_nat K) 2 lambda_m' ∧
    ∀ k, (k < Z.to_nat K)%nat →
      ∃ col b,
        column lambda_phi k = Ok col ∧ lambda_beta !! k = Some b ∧
        lambda_m' !! k
          = Some [(m0 * beta_o + wsum (λ x _, x) col xn) / b;
                  (m1 * beta_o + wsum (λ _ y, y) col xn) / b].
Proof.
  apply update_lambda_m_total_2d.
Qed.

(** The means on the two example points. *)
Lemma update_lambda_m_closed_form_witness :
  has_shape 2 2 ex_xn ∧
  ∃ lambda_m',
    update_lambda_m 2 (lambda_m ex_p0) (lambda_phi ex_p0) [1.7; 1.7] [0; 0]
      beta_o ex_xn 2 = Ok lambda_m' ∧
    has_shape 2 2 lambda_m'.
Proof.
  split; [exact ex_xn_shape|].
  destruct (update_lambda_m_closed_form 2 (lambda_m ex_p0) (lambda_phi ex_p0)
    [1.7; 1.7] 0 0 beta_o ex_xn 2) as (lambda_m' & Hrun & Hshape & _).
  - exact ex_xn_shape.
  - by destruct ex_p0_shape.
  - reflexivity.
  - repeat constructor; lra.
  - by destruct ex_p0_shape as (_ & _ & _ & _ & ? & _).
  - exists lambda_m'. split; [exact Hrun|exact Hshape].
Defined.



(** ** More on [softmax] *)

Lemma Rmax_shift (a b c : R) : Rmax (a + c) (b + c) = Rmax a b + c.
Proof.
  unfold Rmax. destruct (Rle_dec (a + c) (b + c)), (Rle_dec a b); lra.
Qed.

Lemma fold_Rmax_shift (x : vec) (a c : R) :
  fold_left Rmax (map (λ v, v + c) x) (a + c) = fold_left Rmax x a + c.
Proof.
  revert a. induction x as [|b x IH]; intros a; simpl; [done|].
  by rewrite Rmax_shift, IH.
Qed.

(** Adding the same number to every score does not change what
    [softmax] returns, over the reals: the largest score is taken off
    before the exponentials are formed. *)
Theorem softmax_shift_invariant (x : vec) (c : R) :
  softmax (map (λ v, v + c) x) = softmax x.
Proof.
  destruct x as [|a x]; [done|]. unfold softmax. simpl.
  rewrite fold_Rmax_shift. simpl.
  set (m := fold_left Rmax x a).
  assert (Hexp : ∀ v, exp (v + c - (m + c)) = exp (v - m)).
  { intros v. f_equal. lra. }
  rewrite map_map, Hexp.
  rewrite (map_ext (λ v, exp (v + c - (m + c))) (λ v, exp (v - m))) by done.
  reflexivity.
Qed.

(** The entries of the row in terms of the scores. *)
Lemma softmax_lookup (x p : vec) :
  softmax x = Ok p →
  ∃ (m S : R), 1 <= S ∧ Forall (λ b, b <= m) x ∧
    (∀ i a, x !! i = Some a → exp (a - m) <= S) ∧
    (∀ i j a b, x !! i = Some a → x !! j = Some b → i ≠ j →
       exp (a - m) + exp (b - m) <= S) ∧
    ∀ i a, x !! i = Some a →
      p !! i = Some ((exp (a - m) + float32_eps) / (S + float32_eps)).
Proof.
  intros H. apply softmax_unfold in H as (m & Hin & Hle & Hp). simpl in Hp.
  set (e_x := map (λ xi, exp (xi - m)) x) in *.
  assert (Hpos : Forall (λ e, 0 <= e) e_x).
  { apply Forall_map, Forall_forall. intros xi _. left. apply exp_pos. }
  exists m, (Np.sum e_x). split; [|split; [done|split; [|split]]].
  - apply (sum_ge_elem _ 1 Hpos). apply list_elem_of_fmap. exists m.
    split; [|done]. by rewrite Rminus_diag, exp_0.
  - intros i a Ha. apply (sum_ge_elem _ _ Hpos).
    apply list_elem_of_fmap. exists a. split; [done|].
    by eapply list_elem_of_lookup_2.
  - assert (Hgen : ∀ (y : vec) i j a b, y !! i = Some a → y !! j = Some b →
      (i < j)%nat → Forall (λ e, 0 <= e) y → a + b <= Np.sum y).
    { induction y as [|c y IH]; intros i j a b Ha Hb Hij Hy; [done|].
      apply Forall_cons in Hy as [Hc Hy]. destruct j as [|j]; [lia|].
      simpl in Hb. destruct i as [|i].
      - injection Ha as ->. simpl.
        assert (b <= Np.sum y); [|lra]. apply (sum_ge_elem _ _ Hy).
        by eapply list_elem_of_lookup_2.
      - simpl in Ha. simpl. specialize (IH i j a b Ha Hb ltac:(lia) Hy). lra. }
    intros i j a b Ha Hb Hij.
    assert (Ha' : e_x !! i = Some (exp (a - m)))
      by (unfold e_x; by rewrite list_lookup_fmap, Ha).
    assert (Hb' : e_x !! j = Some (exp (b - m)))
      by (unfold e_x; by rewrite list_lookup_fmap, Hb).
    destruct (decide (i < j)%nat).
    + by apply (Hgen e_x i j).
    + rewrite Rplus_comm. apply (Hgen e_x j i); [done|done|lia|done].
  - intros i a Ha. rewrite Hp. unfold e_x.
    by rewrite !list_lookup_fmap, Ha.
Qed.

(** [softmax] keeps the order of the scores: of two entries of the row
    it returns, the one of the larger score is the larger, and equal
    scores give equal entries. *)
Theorem softmax_order (x p : vec) (i j : nat) (a b : R) :
  softmax x = Ok p → x !! i = Some a → x !! j = Some b →
  ∃ u v, p !! i = Some u ∧ p !! j = Some v ∧
         (a <= b ↔ u <= v) ∧ (a < b ↔ u < v).
Proof.
  intros Hp Ha Hb.
  destruct (softmax_lookup x p Hp) as (m & S & HS & _ & _ & _ & Hlk).
  pose proof float32_eps_pos as He.
  assert (Hd : 0 < / (S + float32_eps)) by (apply Rinv_0_lt_compat; lra).
  eexists _, _. split; [by apply Hlk|]. split; [by apply Hlk|].
  unfold Rdiv.
  assert (Hmono : ∀ s t, s < t → exp (s - m) < exp (t - m)).
  { intros s t Hst. apply exp_increasing. lra. }
  split; split; intros H.
  - apply Rmult_le_compat_r; [lra|].
    destruct (Req_dec_T a b) as [->|Hne]; [lra|].
    specialize (Hmono a b). lra.
  - destruct (Rle_lt_dec a b) as [|Hlt]; [done|]. exfalso.
    specialize (Hmono b a Hlt).
    assert ((exp (b - m) + float32_eps) * / (S + float32_eps)
            < (exp (a - m) + float32_eps) * / (S + float32_eps)); [|lra].
    apply Rmult_lt_compat_r; lra.
  - apply Rmult_lt_compat_r; [lra|]. specialize (Hmono a b H). lra.
  - destruct (Rlt_le_dec a b) as [|Hle]; [done|]. exfalso.
    assert ((exp (b - m) + float32_eps) * / (S + float32_eps)
            <= (exp (a - m) + float32_eps) * / (S + float32_eps)); [|lra].
    apply Rmult_le_compat_r; [lra|].
    destruct (Req_dec_T a b) as [->|Hne]; [lra|].
    specialize (Hmono b a). lra.
Qed.

(** The scores zero and one. *)
Lemma softmax_order_witness :
  ∃ p u v,
    softmax [0; 1] = Ok p ∧ p !! 0%nat = Some u ∧ p !! 1%nat = Some v ∧
    u < v.
Proof.
  destruct (softmax_total [0; 1]) as (p & Hp); [done|].
  destruct (softmax_order [0; 1] p 0 1 0 1 Hp eq_refl eq_refl)
    as (u & v & Hu & Hv & _ & Hlt).
  exists p, u, v. split; [exact Hp|]. split; [exact Hu|].
  split; [exact Hv|]. apply Hlt. lra.
Defined.

(** No entry of the row that [softmax] returns exceeds one; with two
    scores or more every entry is below one, and for a single score the
    row is [[1.]]. *)
Theorem softmax_at_most_one (x p : vec) :
  softmax x = Ok p →
  Forall (λ v, v <= 1) p ∧
  ((2 ≤ length x)%nat → Forall (λ v, v < 1) p) ∧
  (length x = 1%nat → p = [1]).
Proof.
  intros Hp.
  destruct (softmax_lookup x p Hp) as (m & S & HS & Hle & H1 & H2 & Hlk).
  pose proof float32_eps_pos as He.
  pose proof (softmax_length x p Hp) as Hlen.
  assert (Hd : 0 < S + float32_eps) by lra.
  split; [|split].
  - apply Forall_lookup. intros i v Hv.
    destruct (lookup_lt_is_Some_2 x i) as [a Ha].
    { apply lookup_lt_Some in Hv. lia. }
    rewrite (Hlk i a Ha) in Hv. injection Hv as <-.
    apply (Rmult_le_reg_r (S + float32_eps)); [done|].
    unfold Rdiv. rewrite Rmult_assoc, Rinv_l by lra.
    specialize (H1 i a Ha). lra.
  - intros Hx. apply Forall_lookup. intros i v Hv.
    destruct (lookup_lt_is_Some_2 x i) as [a Ha].
    { apply lookup_lt_Some in Hv. lia. }
    rewrite (Hlk i a Ha) in Hv. injection Hv as <-.
    destruct (lookup_lt_is_Some_2 x (if decide (i = 0)%nat then 1 else 0)%nat)
      as [b Hb]; [destruct (decide (i = 0)%nat); lia|].
    assert (Hab : exp (a - m) + exp (b - m) <= S).
    { apply (H2 _ _ _ _ Ha Hb). destruct (decide (i = 0)%nat); lia. }
    pose proof (exp_pos (b - m)).
    apply (Rmult_lt_reg_r (S + float32_eps)); [done|].
    unfold Rdiv. rewrite Rmult_assoc, Rinv_l by lra. lra.
  - intros Hx. destruct x as [|a [|??]]; try done.
    unfold softmax in Hp. simpl in Hp. injection Hp as <-.
    rewrite Rminus_diag, exp_0. f_equal. field. lra.
Qed.

(** Two equal scores, and a single one. *)
Lemma softmax_at_most_one_witness :
  (∃ p, softmax [0; 0] = Ok p ∧ Forall (λ v, v < 1) p) ∧
  softmax [7] = Ok [1].
Proof.
  split.
  - destruct (softmax_total [0; 0]) as (p & Hp); [done|].
    destruct (softmax_at_most_one [0; 0] p Hp) as (_ & Hlt & _).
    exists p. split; [exact Hp|]. apply Hlt. simpl. lia.
  - destruct (softmax_total [7]) as (p & Hp); [done|].
    destruct (softmax_at_most_one [7] p Hp) as (_ & _ & H1).
    rewrite Hp. f_equal. by apply H1.
Defined.

(** ** [update_lambda_phi] as a map over the points *)

Lemma bind_ret {A} (m : result A) : m ≫= Ok = m.
Proof. by destruct m. Qed.

(** A loop [for k in range(a, a + n): l[k] = f(k)] gathers the values
    of [f], or stops at the first one that raises. *)
Lemma for_each_insert {A} (Inv : list A → Prop)
    (body : nat → list A → result (list A)) (f : nat → result A)
    (n a : nat) (l : list A) :
  (∀ k t, Inv t → (k < length t)%nat →
     body k t = (v ← f k; Ok (<[k:=v]> t))) →
  (∀ k t v, Inv t → f k = Ok v → Inv (<[k:=v]> t)) →
  Inv l → (a + n ≤ length l)%nat →
  for_each (seq a n) body l
  = (vs ← mapM f (seq a n); Ok (take a l ++ vs ++ drop (a + n) l)).
Proof.
  intros Hbody Hkeep. revert a l.
  induction n as [|n IH]; intros a l HI Hlen.
  - simpl. by rewrite Nat.add_0_r, take_drop.
  - simpl. rewrite (Hbody a l HI) by lia.
    destruct (f a) as [v|e] eqn:Hfa; [|done]. simpl.
    rewrite IH; [|by eapply Hkeep|rewrite length_insert; lia].
    destruct (mapM f (seq (S a) n)) as [vs|e]; [|done]. simpl. f_equal.
    rewrite (take_S_r _ a v) by (apply list_lookup_insert_eq; lia).
    rewrite take_insert_ge by lia. rewrite drop_insert_lt by lia.
    rewrite <- app_assoc. simpl. by rewrite Nat.add_succ_r.
Qed.

Lemma for_each_insert_all {A} (Inv : list A → Prop)
    (body : nat → list A → result (list A)) (f : nat → result A)
    (l : list A) :
  (∀ k t, Inv t → (k < length t)%nat →
     body k t = (v ← f k; Ok (<[k:=v]> t))) →
  (∀ k t v, Inv t → f k = Ok v → Inv (<[k:=v]> t)) →
  Inv l →
  for_each (seq 0 (length l)) body l = mapM f (seq 0 (length l)).
Proof.
  intros Hbody Hkeep HI.
  rewrite (for_each_insert Inv body f) by (done || lia).
  rewrite <- (bind_ret (mapM _ _)) at 2.
  destruct (mapM _ _) as [vs|e]; [|done]. simpl.
  rewrite drop_ge by lia. by rewrite app_nil_r.
Qed.

Lemma phi_entry_score (psi : R → R) (lambda_pi : vec) (lambda_m : mat)
    (lambda_nu : vec) (lambda_W : list mat) (lambda_beta : vec) (xn : mat)
    (D n k : nat) (row : vec) :
  (k < length row)%nat →
  phi_entry psi lambda_pi lambda_m lambda_nu lambda_W lambda_beta xn D n k row
  = (v ← phi_score psi lambda_pi lambda_m lambda_nu lambda_W lambda_beta xn
           D n k;
     Ok (<[k:=v]> row)).
Proof.
  intros Hk. unfold phi_entry, phi_score.
  destruct (dirichlet_expectation psi lambda_pi k) as [d|e]; [|done]. simpl.
  rewrite setitem_lt by done. simpl.
  destruct (phi_term1 _ _ _ _ _ _) as [t1|e]; [|done]. simpl.
  destruct (phi_term2 _ _ _ _ _) as [t2|e]; [|done]. simpl.
  destruct (phi_term3 _ _ _) as [t3|e]; [|done]. simpl.
  destruct (phi_term4 _ _ _ _) as [t4|e]; [|done]. simpl.
  destruct (phi_term6 _ _ _ _) as [t6|e]; [|done]. simpl.
  destruct (phi_term7 _ _) as [t7|e]; [|done]. simpl.
  by rewrite list_insert_insert_eq.
Qed.

(** The scores of a row as long as [range(K)]. *)
Lemma phi_scores_map (psi : R → R) (lambda_pi : vec) (lambda_m : mat)
    (lambda_nu : vec) (lambda_W : list mat) (lambda_beta : vec) (xn : mat)
    (K : Z) (D n : nat) (row : vec) :
  length row = Z.to_nat K →
  for_each (range K)
    (phi_entry psi lambda_pi lambda_m lambda_nu lambda_W lambda_beta xn D n)
    row
  = mapM (phi_score psi lambda_pi lambda_m lambda_nu lambda_W lambda_beta xn
            D n) (range K).
Proof.
  intros Hlen. unfold range. rewrite <- Hlen.
  apply (for_each_insert_all (λ _, True)); [|done|done].
  intros k t _ Hk. by apply phi_entry_score.
Qed.

Lemma phi_row_length (psi : R → R) (lambda_pi : vec) (lambda_m : mat)
    (lambda_nu : vec) (lambda_W : list mat) (lambda_beta : vec) (xn : mat)
    (K : Z) (D n : nat) (p : vec) :
  phi_row psi lambda_pi lambda_m lambda_nu lambda_W lambda_beta xn K D n
    = Ok p →
  length p = Z.to_nat K.
Proof.
  unfold phi_row. intros H. apply bind_Ok in H as (vs & Hvs & Hp).
  rewrite (softmax_length _ _ Hp), (mapM_length _ _ _ Hvs).
  unfold range. by rewrite length_seq.
Qed.

(** On an array of shape [(N, K)], [update_lambda_phi] is a map over
    the points: row [n] of its result is [softmax] of the scores of
    point [n], and an exception is that of the first point that raises
    one. *)
Lemma update_lambda_phi_map (psi : R → R) (lambda_phi : mat)
    (lambda_pi : vec) (lambda_m : mat) (lambda_nu : vec)
    (lambda_W : list mat) (lambda_beta : vec) (xn : mat) (N : nat) (K : Z)
    (D : nat) :
  has_shape N (Z.to_nat K) lambda_phi →
  update_lambda_phi psi lambda_phi lambda_pi lambda_m lambda_nu lambda_W
    lambda_beta xn N K D
  = mapM (phi_row psi lambda_pi lambda_m lambda_nu lambda_W lambda_beta xn
            K D) (seq 0 N).
Proof.
  intros [HN Hrows]. unfold update_lambda_phi. rewrite <- HN.
  apply (for_each_insert_all
    (Forall (λ row : vec, length row = Z.to_nat K))); [| |done].
  - intros n t Ht Hn.
    destruct (lookup_lt_is_Some_2 t n Hn) as [row Hrow].
    rewrite (getitem_Some _ _ _ Hrow). simpl.
    rewrite phi_scores_map by (rewrite Forall_lookup in Ht; by apply (Ht n)).
    unfold phi_row.
    destruct (mapM _ _) as [vs|e]; [|done]. simpl.
    destruct (softmax vs) as [p|e]; [|done]. simpl.
    by rewrite setitem_lt.
  - intros n t p Ht Hp. apply Forall_insert; [done|].
    by apply phi_row_length in Hp.
Qed.

(** The scores of a point read the point; its index and the other
    points do not matter. *)
Lemma phi_score_point (psi : R → R) (lambda_pi : vec) (lambda_m : mat)
    (lambda_nu : vec) (lambda_W : list mat) (lambda_beta : vec)
    (xn xn' : mat) (D n n' k : nat) :
  xn !! n = xn' !! n' →
  phi_score psi lambda_pi lambda_m lambda_nu lambda_W lambda_beta xn D n k
  = phi_score psi lambda_pi lambda_m lambda_nu lambda_W lambda_beta xn' D n' k.
Proof.
  intros Hx.
  assert (Hg : getitem xn n = getitem xn' n') by (unfold getitem; by rewrite Hx).
  unfold phi_score.
  destruct (dirichlet_expectation psi lambda_pi k) as [d|e]; [|done]. simpl.
  assert (H1 : phi_term1 lambda_m lambda_nu lambda_W xn n k
               = phi_term1 lambda_m lambda_nu lambda_W xn' n' k).
  { unfold phi_term1.
    destruct (getitem lambda_m k); [|done]. simpl.
    destruct (getitem lambda_nu k); [|done]. simpl.
    destruct (getitem lambda_W k); [|done]. simpl.
    destruct (inv _); [|done]. simpl. by rewrite Hg. }
  assert (H2 : phi_term2 lambda_nu lambda_W xn n k
               = phi_term2 lambda_nu lambda_W xn' n' k).
  { unfold phi_term2.
    destruct (getitem lambda_nu k); [|done]. simpl.
    destruct (getitem lambda_W k); [|done]. simpl.
    destruct (inv _); [|done]. simpl. by rewrite Hg. }
  by rewrite H1, H2.
Qed.

Lemma mapM_ext_result {A B} (f g : A → result B) (l : list A) :
  (∀ a, f a = g a) → mapM f l = mapM g l.
Proof.
  intros Hfg. induction l as [|a l IH]; [done|]. simpl. by rewrite Hfg, IH.
Qed.

Lemma mapM_seq_lookup {B} (f : nat → result B) (N : nat) (l : list B)
    (n : nat) :
  mapM f (seq 0 N) = Ok l → (n < N)%nat →
  ∃ b, f n = Ok b ∧ l !! n = Some b.
Proof.
  rewrite mapM_Ok. intros H Hn.
  destruct (Forall2_lookup_l _ _ _ n n H) as (b & Hb & Hf).
  { by apply lookup_seq_lt. }
  eauto.
Qed.

Lemma K10_shapes :
  has_shape 1 (Z.to_nat 10) K10_lambda_phi ∧
  has_shape 2 (Z.to_nat 10) K10_lambda_phi2 ∧
  has_shape (Z.to_nat 10) 2 K10_lambda_m ∧
  has_shape 1 2 K10_xn ∧ has_shape 2 2 K10_xn2.
Proof.
  repeat split; try done; by repeat constructor.
Qed.

Lemma K10_update_answers2 (psi : R → R) :
  ∃ lambda_phi',
    update_lambda_phi psi K10_lambda_phi2 K10_lambda_pi K10_lambda_m
      K10_lambda_nu K10_lambda_W K10_lambda_beta K10_xn2 2 10 2
      = Ok lambda_phi'.
Proof.
  destruct K10_shapes as (_ & Hs2 & Hm & _ & Hx2).
  destruct (update_lambda_phi_total_2d psi K10_lambda_phi2 K10_lambda_pi
    K10_lambda_m K10_lambda_nu K10_lambda_W K10_lambda_beta K10_xn2 2 10)
    as (phi' & Hrun & _); try done.
  - apply Forall_replicate. exists 1, 0, 0, 1. split; [done|lra].
  - apply Forall_replicate. lra.
  - by exists phi'.
Qed.

(** [update_lambda_phi] never reads the responsibilities it is given:
    two arrays of shape [(N, K)] give the same result, be it a matrix
    or an exception. *)
Theorem update_lambda_phi_overwrites (psi : R → R) (phi1 phi2 : mat)
    (lambda_pi : vec) (lambda_m : mat) (lambda_nu : vec)
    (lambda_W : list mat) (lambda_beta : vec) (xn : mat) (N : nat) (K : Z)
    (D : nat) :
  has_shape N (Z.to_nat K) phi1 → has_shape N (Z.to_nat K) phi2 →
  update_lambda_phi psi phi1 lambda_pi lambda_m lambda_nu lambda_W
    lambda_beta xn N K D
  = update_lambda_phi psi phi2 lambda_pi lambda_m lambda_nu lambda_W
      lambda_beta xn N K D.
Proof.
  intros H1 H2. by rewrite !update_lambda_phi_map.
Qed.

(** Uniform responsibilities and zeros, for ten components. *)
Lemma update_lambda_phi_overwrites_witness :
  has_shape 1 10 K10_lambda_phi ∧ has_shape 1 10 [replicate 10 0] ∧
  ∀ psi : R → R,
    update_lambda_phi psi K10_lambda_phi K10_lambda_pi K10_lambda_m
      K10_lambda_nu K10_lambda_W K10_lambda_beta K10_xn 1 10 2
    = update_lambda_phi psi [replicate 10 0] K10_lambda_pi K10_lambda_m
        K10_lambda_nu K10_lambda_W K10_lambda_beta K10_xn 1 10 2.
Proof.
  assert (H1 : has_shape 1 10 K10_lambda_phi)
    by (split; [reflexivity|repeat constructor]).
  assert (H2 : has_shape 1 10 [replicate 10 0])
    by (split; [reflexivity|repeat constructor]).
  split; [exact H1|]. split; [exact H2|]. intros psi.
  exact (update_lambda_phi_overwrites psi K10_lambda_phi [replicate 10 0]
           K10_lambda_pi K10_lambda_m K10_lambda_nu K10_lambda_W
           K10_lambda_beta K10_xn 1 10 2 H1 H2).
Defined.

(** The responsibilities of a point depend on the point and on the
    parameters only: not on its index, on the other points of the
    dataset or on the number of points. *)
Theorem responsibilities_of_a_point (psi : R → R) (phi phi' : mat)
    (lambda_pi : vec) (lambda_m : mat) (lambda_nu : vec)
    (lambda_W : list mat) (lambda_beta : vec) (xn xn' : mat) (N N' : nat)
    (K : Z) (D : nat) (r r' : mat) (n n' : nat) :
  has_shape N (Z.to_nat K) phi → has_shape N' (Z.to_nat K) phi' →
  update_lambda_phi psi phi lambda_pi lambda_m lambda_nu lambda_W
    lambda_beta xn N K D = Ok r →
  update_lambda_phi psi phi' lambda_pi lambda_m lambda_nu lambda_W
    lambda_beta xn' N' K D = Ok r' →
  (n < N)%nat → (n' < N')%nat → xn !! n = xn' !! n' →
  r !! n = r' !! n'.
Proof.
  intros Hs Hs' Hr Hr' Hn Hn' Hx.
  rewrite update_lambda_phi_map in Hr, Hr' by done.
  destruct (mapM_seq_lookup _ _ _ n Hr Hn) as (p & Hp & ->).
  destruct (mapM_seq_lookup _ _ _ n' Hr' Hn') as (p' & Hp' & ->).
  unfold phi_row in Hp, Hp'.
  rewrite (mapM_ext_result _
    (phi_score psi lambda_pi lambda_m lambda_nu lambda_W lambda_beta xn' D n'))
    in Hp by (intros k; by apply phi_score_point).
  congruence.
Qed.

(** The origin as the only point of one dataset and as the second
    point of another. *)
Lemma responsibilities_of_a_point_witness :
  K10_xn !! 0%nat = K10_xn2 !! 1%nat ∧
  ∀ psi : R → R, ∃ r r',
    update_lambda_phi psi K10_lambda_phi K10_lambda_pi K10_lambda_m
      K10_lambda_nu K10_lambda_W K10_lambda_beta K10_xn 1 10 2 = Ok r ∧
    update_lambda_phi psi K10_lambda_phi2 K10_lambda_pi K10_lambda_m
      K10_lambda_nu K10_lambda_W K10_lambda_beta K10_xn2 2 10 2 = Ok r' ∧
    r !! 0%nat = r' !! 1%nat.
Proof.
  split; [reflexivity|]. intros psi.
  destruct (K10_update_answers psi) as (r & Hr & _).
  destruct (K10_update_answers2 psi) as (r' & Hr').
  destruct K10_shapes as (Hs1 & Hs2 & _).
  exists r, r'. split; [exact Hr|]. split; [exact Hr'|].
  apply (responsibilities_of_a_point psi K10_lambda_phi K10_lambda_phi2
           K10_lambda_pi K10_lambda_m K10_lambda_nu K10_lambda_W
           K10_lambda_beta K10_xn K10_xn2 1 2 10 2 r r' 0 1 Hs1 Hs2 Hr Hr');
    [lia|lia|reflexivity].
Defined.

(** ** Data that is not two-dimensional *)

Lemma broadcast2_cases (f : R → R → R) (x y : vec) :
  broadcast2 f x y = Raise ValueError ∨
  ∃ s, broadcast2 f x y = Ok s ∧
       (length s = length x ∨ length s = length y).
Proof.
  unfold broadcast2. destruct (Nat.eqb_spec (length x) (length y)) as [Hxy|_].
  - right. eexists. split; [done|]. left. rewrite length_zip_with. lia.
  - destruct x as [|a [|a' x]]; destruct y as [|b [|b' y]]; auto;
      right; eexists; (split; [done|]); rewrite length_map; auto.
Qed.

Lemma iadd_cases (aux y : vec) :
  iadd aux y = Raise ValueError ∨
  ∃ s, iadd aux y = Ok s ∧ length s = length aux.
Proof.
  unfold iadd. destruct (broadcast2_cases Rplus aux y) as [->|(s & -> & _)];
    [by left|]. simpl.
  destruct (Nat.eqb_spec (length s) (length aux)); eauto.
Qed.

(** The accumulation into [aux = [0., 0.]] either raises [ValueError]
    or leaves an array of two entries, whatever the dimension of the
    points. *)
Lemma weighted_points_cases (lambda_phi xn : mat) (N k c : nat) :
  has_shape N c lambda_phi → (k < c)%nat → length xn = N →
  weighted_points lambda_phi xn N k = Raise ValueError ∨
  ∃ aux, weighted_points lambda_phi xn N k = Ok aux ∧ length aux = 2%nat.
Proof.
  intros [HN Hphi] Hk Hxn. unfold weighted_points.
  assert (Hgen : ∀ n a (aux : vec), (a + n ≤ N)%nat → length aux = 2%nat →
    for_each (seq a n) (λ n aux,
      p ← getitem2 lambda_phi n k; x ← getitem xn n; iadd aux (scal p x)) aux
      = Raise ValueError ∨
    ∃ aux', for_each (seq a n) (λ n aux,
      p ← getitem2 lambda_phi n k; x ← getitem xn n; iadd aux (scal p x)) aux
      = Ok aux' ∧ length aux' = 2%nat).
  { induction n as [|n IH]; intros a aux Ha Haux; simpl; [eauto|].
    destruct (lookup_lt_is_Some_2 lambda_phi a) as [row Hrow]; [lia|].
    destruct (lookup_lt_is_Some_2 row k) as [p Hp].
    { rewrite Forall_lookup in Hphi. rewrite (Hphi a row Hrow). done. }
    destruct (lookup_lt_is_Some_2 xn a) as [x Hx]; [lia|].
    unfold getitem2. rewrite (getitem_Some _ _ _ Hrow). simpl.
    rewrite (getitem_Some _ _ _ Hp). simpl.
    rewrite (getitem_Some _ _ _ Hx). simpl.
    destruct (iadd_cases aux (scal p x)) as [->|(s & -> & Hs)]; [by left|].
    simpl. apply IH; [lia|congruence]. }
  apply Hgen; [lia|done].
Qed.

Lemma for_each_first_raises {A T} (k : A) (ks : list A)
    (body : A → T → result T) (s : T) (e : exn) :
  body k s = Raise e → for_each (k :: ks) body s = Raise e.
Proof. intros H. simpl. by rewrite H. Qed.

(** With rows of [lambda_m] that do not have two entries,
    [update_lambda_m] raises [ValueError] at the first component: in the
    accumulation [aux += ...], or when the two entries of the quotient
    are written to the row. *)
Lemma update_lambda_m_wrong_dimension (K : Z) (lambda_m lambda_phi : mat)
    (lambda_beta m_o : vec) (beta_o : R) (xn : mat) (N D : nat) :
  (0 < K)%Z → D ≠ 2%nat →
  has_shape N (Z.to_nat K) lambda_phi → length xn = N →
  length lambda_beta = Z.to_nat K → Forall (λ b, b ≠ 0) lambda_beta →
  has_shape (Z.to_nat K) D lambda_m → length m_o = 2%nat →
  update_lambda_m K lambda_m lambda_phi lambda_beta m_o beta_o xn N
  = Raise ValueError.
Proof.
  intros HK HD Hphi Hxn Hlb Hb [Hlm Hm] Hmo.
  unfold update_lambda_m, range.
  destruct (Z.to_nat K) as [|Kn] eqn:HKn; [lia|]. simpl seq.
  apply for_each_first_raises.
  destruct (weighted_points_cases lambda_phi xn N 0 (S Kn))
    as [->|(aux & -> & Haux)]; [done|lia|done|done|]. simpl.
  apply length_2 in Haux as (a0 & a1 & ->).
  apply length_2 in Hmo as (m0 & m1 & ->). simpl.
  destruct (lookup_lt_is_Some_2 lambda_beta 0) as [b Hbk]; [lia|].
  destruct (lookup_lt_is_Some_2 lambda_m 0) as [old Hold]; [lia|].
  rewrite (getitem_Some _ _ _ Hbk). simpl.
  rewrite !div_nonzero by (rewrite Forall_lookup in Hb; by apply (Hb 0%nat)).
  simpl. rewrite (getitem_Some _ _ _ Hold). simpl.
  assert (Hlo : length old = D).
  { rewrite Forall_lookup in Hm. by apply (Hm 0%nat). }
  unfold fit_row. simpl. rewrite Hlo.
  by destruct D as [|[|[|D]]].
Qed.

(** The first sweep on parameters of the shapes [main] makes for
    points of a dimension other than two. *)
Lemma sweep_wrong_dimension (psi : R → R) (K : Z) (p : params) (xn : mat)
    (xn_xnt : list mat) (N D : nat) :
  (0 < K)%Z → D ≠ 2%nat →
  has_shape N (Z.to_nat K) (lambda_phi p) →
  Forall (Forall (λ v, 0 <= v)) (lambda_phi p) →
  length (lambda_pi p) = Z.to_nat K → length (lambda_beta p) = Z.to_nat K →
  length (lambda_nu p) = Z.to_nat K →
  has_shape (Z.to_nat K) D (lambda_m p) → length xn = N →
  sweep psi K p xn xn_xnt N D = Raise ValueError.
Proof.
  intros HK HD Hphi Hpos Hpi Hbeta Hnu Hm Hxn. unfold sweep.
  destruct (update_lambda_pi_total K (lambda_pi p) (lambda_phi p) (alpha_o K) N)
    as (pi' & -> & _); [done|done|by unfold alpha_o; rewrite length_replicate|].
  simpl.
  set (Nks := sum_axis0 (Z.to_nat K) (lambda_phi p)).
  assert (HlN : length Nks = Z.to_nat K).
  { apply sum_axis0_length. by destruct Hphi. }
  destruct (update_counts_total K (lambda_beta p) beta_o Nks)
    as (beta' & Hbeta' & Hlbeta' & Hbv); [done|done|].
  unfold update_lambda_beta. rewrite Hbeta'. simpl.
  destruct (update_counts_total K (lambda_nu p) nu_o Nks)
    as (nu' & Hnu' & _); [done|done|].
  unfold update_lambda_nu. rewrite Hnu'. simpl.
  rewrite (update_lambda_m_wrong_dimension K (lambda_m p) (lambda_phi p) beta'
    m_o beta_o xn N D); try done.
  apply Forall_lookup. intros k b Hb.
  assert (Hk : (k < Z.to_nat K)%nat) by (apply lookup_lt_Some in Hb; lia).
  destruct (column_total (lambda_phi p) k (Z.to_nat K)) as (col & Hcol & _);
    [by destruct Hphi|done|].
  pose proof (sum_axis0_lookup (Z.to_nat K) _ col k Hk Hcol) as Hs.
  rewrite (Hbv k _ Hs) in Hb. injection Hb as <-.
  assert (0 <= Np.sum col).
  { apply sum_nonneg. by apply (column_Forall _ (lambda_phi p) k). }
  unfold beta_o. lra.
Qed.

(** [main] works on points of the plane only.  With the warm start,
    at least two components and at least one iteration, a dataset whose
    points have a number of coordinates other than two ends the first
    sweep with [ValueError], raised in [update_lambda_m]: its
    accumulation buffer is the fixed array [[0., 0.]]. *)
Theorem main_needs_two_dimensions (psi gammaln : R → R)
    (multigammaln : R → nat → R)
    (K : Z) (KMeans_fit_predict : Z → mat → result (list nat))
    (np_random_dirichlet : vec → nat → result mat)
    (MAX_ITERS : Z) (xn : mat) (N D : nat) (labels : list nat) :
  (2 ≤ K)%Z → (1 ≤ MAX_ITERS)%Z → has_shape N D xn → D ≠ 2%nat →
  KMeans_fit_predict K xn = Ok labels →
  length labels = N → Forall (λ lab, lab < Z.to_nat K)%nat labels →
  main psi gammaln multigammaln K KMeans_fit_predict np_random_dirichlet
    MAX_ITERS false xn N D = Raise ValueError.
Proof.
  intros HK HM [Hxn _] HD Hlab Hlen Hlt.
  destruct (init_kmeans_rows KMeans_fit_predict xn N K labels HK Hlab Hlen Hlt)
    as (phi & Hphi & Hshape & Hrows).
  unfold main, initial_params, zeros. rewrite Hphi. simpl.
  destruct (Z.ltb_spec K 0); [lia|]. simpl.
  rewrite (xn_xnt_total xn N Hxn). simpl. unfold range.
  destruct (Z.to_nat MAX_ITERS) as [|n] eqn:Hn; [lia|]. simpl.
  rewrite sweep_wrong_dimension; simpl; try done; try lia;
    try (by rewrite length_replicate).
  - eapply Forall_impl; [exact Hrows|]. intros row [Hrow _].
    eapply Forall_impl; [exact Hrow|]. simpl. intros; lra.
  - split; [by rewrite length_replicate|]. apply Forall_replicate.
    by rewrite length_replicate.
Qed.

(** Two points of the line. *)
Lemma main_needs_two_dimensions_witness :
  has_shape 2 1 line_xn ∧
  ∀ (psi gammaln : R → R) (multigammaln : R → nat → R),
    main psi gammaln multigammaln 2 ex_KMeans K1_dirichlet 100 false line_xn
      2 1 = Raise ValueError.
Proof.
  assert (Hs : has_shape 2 1 line_xn)
    by (split; [reflexivity|repeat constructor]).
  split; [exact Hs|]. intros psi gammaln multigammaln.
  apply (main_needs_two_dimensions psi gammaln multigammaln 2 ex_KMeans
           K1_dirichlet 100 line_xn 2 1 [0; 1]%nat);
    [lia|lia|exact Hs|lia|reflexivity|reflexivity
    |repeat constructor; simpl; lia].
Defined.

(** ** The warm start, entry by entry *)

(** The loop of [init_kmeans] over the labels, on rows that are still
    uniform. *)
Lemma init_kmeans_loop (labs : list nat) (i d : nat) (c : R) (phi : mat) :
  Forall (λ lab, lab < d)%nat labs →
  (i + length labs ≤ length phi)%nat →
  (∀ j, (i ≤ j < i + length labs)%nat → phi !! j = Some (replicate d c)) →
  for_each (zip (seq i (length labs)) labs)
    (λ (il : nat * nat) lambda_phi,
       row ← getitem lambda_phi il.1;
       row ← setitem row il.2 0.9;
       setitem lambda_phi il.1 row) phi
  = Ok (take i phi ++ map (λ lab, <[lab:=0.9]> (replicate d c)) labs
          ++ drop (i + length labs) phi).
Proof.
  revert i phi. induction labs as [|lab labs IH]; intros i phi Hl Hi Hrows.
  - simpl. by rewrite Nat.add_0_r, take_drop.
  - apply Forall_cons in Hl as [Hlab Hl]. simpl in Hi |- *.
    rewrite (getitem_Some _ _ _ (Hrows i ltac:(simpl; lia))). simpl.
    rewrite setitem_lt by (by rewrite length_replicate). simpl.
    rewrite setitem_lt by lia. simpl.
    rewrite IH; [|done|rewrite length_insert; lia|].
    + f_equal.
      rewrite (take_S_r _ i (<[lab:=0.9]> (replicate d c)))
        by (apply list_lookup_insert_eq; lia).
      rewrite take_insert_ge by lia. rewrite drop_insert_lt by lia.
      rewrite <- app_assoc. simpl. by rewrite Nat.add_succ_r.
    + intros j Hj. rewrite list_lookup_insert_ne by lia.
      apply Hrows. simpl. lia.
Qed.

Lemma init_kmeans_map (KMeans_fit_predict : Z → mat → result (list nat))
    (xn : mat) (N : nat) (K : Z) (labels : list nat) :
  (2 ≤ K)%Z →
  KMeans_fit_predict K xn = Ok labels →
  length labels = N → Forall (λ lab, lab < Z.to_nat K)%nat labels →
  init_kmeans KMeans_fit_predict xn N K
  = Ok (map (λ lab, <[lab:=0.9]>
               (replicate (Z.to_nat K) (0.1 / IZR (K - 1) * 1))) labels).
Proof.
  intros HK Hlab Hlen Hlt. unfold init_kmeans.
  destruct (Z.eqb_spec (K - 1) 0) as [?|_]; [lia|].
  destruct (Z.ltb_spec K 0) as [?|_]; [lia|].
  rewrite Hlab. simpl. unfold enumerate.
  rewrite (init_kmeans_loop labels 0 (Z.to_nat K) (0.1 / IZR (K - 1) * 1));
    [| done | |].
  - simpl. rewrite drop_ge by (rewrite length_replicate; lia).
    by rewrite app_nil_r.
  - rewrite length_replicate. lia.
  - intros j Hj. apply lookup_replicate_2. lia.
Qed.

(** The warm start entry by entry: with at least two components and one
    label inside [range(K)] for every point, row [i] of the matrix that
    [init_kmeans] returns holds [0.9] at the label of point [i] and
    [0.1 / (K - 1)] everywhere else, which is the smaller of the two:
    the largest entry of a row is at the label. *)
Theorem init_kmeans_entries
    (KMeans_fit_predict : Z → mat → result (list nat))
    (xn : mat) (N : nat) (K : Z) (labels : list nat) :
  (2 ≤ K)%Z →
  KMeans_fit_predict K xn = Ok labels →
  length labels = N → Forall (λ lab, lab < Z.to_nat K)%nat labels →
  ∃ lambda_phi,
    init_kmeans KMeans_fit_predict xn N K = Ok lambda_phi ∧
    length lambda_phi = N ∧
    ∀ i lab, labels !! i = Some lab →
      ∃ row, lambda_phi !! i = Some row ∧ length row = Z.to_nat K ∧
        row !! lab = Some 0.9 ∧
        ∀ j, (j < Z.to_nat K)%nat → j ≠ lab →
          row !! j = Some (0.1 / IZR (K - 1)) ∧ 0.1 / IZR (K - 1) < 0.9.
Proof.
  intros HK Hlab Hlen Hlt. eexists. split; [by apply init_kmeans_map|].
  split; [by rewrite length_map|]. intros i lab Hi.
  eexists. split; [by rewrite list_lookup_fmap, Hi|].
  assert (Hl : (lab < Z.to_nat K)%nat).
  { rewrite Forall_lookup in Hlt. by apply (Hlt i). }
  split; [by rewrite length_insert, length_replicate|].
  split; [apply list_lookup_insert_eq; by rewrite length_replicate|].
  intros j Hj Hne. split.
  - rewrite list_lookup_insert_ne by done.
    rewrite lookup_replicate_2 by done. f_equal. lra.
  - assert (HK1 : 1 <= IZR (K - 1)) by (apply IZR_le; lia).
    apply (Rmult_lt_reg_r (IZR (K - 1))); [lra|].
    unfold Rdiv. rewrite Rmult_assoc, Rinv_l by lra. lra.
Qed.

(** The labels of the two example points. *)
Lemma init_kmeans_entries_witness :
  ∃ lambda_phi row,
    init_kmeans ex_KMeans ex_xn 2 2 = Ok lambda_phi ∧
    lambda_phi !! 1%nat = Some row ∧
    row !! 1%nat = Some 0.9 ∧ row !! 0%nat = Some (0.1 / IZR (2 - 1)).
Proof.
  destruct (init_kmeans_entries ex_KMeans ex_xn 2 2 [0; 1]%nat)
    as (phi & Hphi & _ & Hrows);
    [lia|reflexivity|reflexivity|repeat constructor; simpl; lia|].
  destruct (Hrows 1%nat 1%nat eq_refl) as (row & Hrow & _ & H9 & Hother).
  destruct (Hother 0%nat) as [H1 _];
    [change (Z.to_nat 2) with 2%nat; lia|lia|].
  exists phi, row. split; [exact Hphi|]. split; [exact Hrow|].
  split; [exact H9|exact H1].
Defined.

Lemma setitem_ge {A} (l : list A) (i : nat) (a : A) :
  (length l ≤ i)%nat → setitem l i a = Raise IndexError.
Proof.
  intros Hi. unfold setitem. by destruct (Nat.ltb_spec i (length l)); [lia|].
Qed.

Lemma getitem_ge {A} (l : list A) (i : nat) :
  (length l ≤ i)%nat → getitem l i = Raise IndexError.
Proof.
  intros Hi. unfold getitem. by rewrite lookup_ge_None_2.
Qed.

(** Labels that [lambda_phi] has no place for. *)
Lemma init_kmeans_loop_raises (labs : list nat) (i d : nat) (phi : mat) :
  Forall (λ row : vec, length row = d) phi → (i ≤ length phi)%nat →
  ¬ (Forall (λ lab, lab < d)%nat labs ∧ (i + length labs ≤ length phi)%nat) →
  for_each (zip (seq i (length labs)) labs)
    (λ (il : nat * nat) lambda_phi,
       row ← getitem lambda_phi il.1;
       row ← setitem row il.2 0.9;
       setitem lambda_phi il.1 row) phi
  = Raise IndexError.
Proof.
  revert i phi. induction labs as [|lab labs IH]; intros i phi Hrows Hi Hbad.
  - exfalso. apply Hbad. split; [constructor|simpl; lia].
  - simpl. destruct (decide (i < length phi)%nat) as [Hlt|Hge].
    + destruct (lookup_lt_is_Some_2 phi i Hlt) as [row Hrow].
      rewrite (getitem_Some _ _ _ Hrow). simpl.
      assert (Hlr : length row = d).
      { rewrite Forall_lookup in Hrows. by apply (Hrows i). }
      destruct (decide (lab < d)%nat) as [Hlab|Hlab].
      2:{ by rewrite (setitem_ge row) by lia. }
      rewrite setitem_lt by lia. simpl.
      rewrite setitem_lt by done. simpl. apply IH.
      * apply Forall_insert; [done|]. by rewrite length_insert.
      * rewrite length_insert. lia.
      * rewrite length_insert. intros [Hl Hlen]. apply Hbad.
        split; [by constructor|simpl; lia].
    + by rewrite getitem_ge by lia.
Qed.

(** The bounds of the warm start: with at least two components, a label
    outside [range(K)], or more labels than points, ends [init_kmeans]
    with [IndexError]. *)
Theorem init_kmeans_bad_labels
    (KMeans_fit_predict : Z → mat → result (list nat))
    (xn : mat) (N : nat) (K : Z) (labels : list nat) :
  (2 ≤ K)%Z →
  KMeans_fit_predict K xn = Ok labels →
  ¬ (Forall (λ lab, lab < Z.to_nat K)%nat labels ∧ (length labels ≤ N)%nat) →
  init_kmeans KMeans_fit_predict xn N K = Raise IndexError.
Proof.
  intros HK Hlab Hbad. unfold init_kmeans.
  destruct (Z.eqb_spec (K - 1) 0) as [?|_]; [lia|].
  destruct (Z.ltb_spec K 0) as [?|_]; [lia|].
  rewrite Hlab. simpl. unfold enumerate.
  apply (init_kmeans_loop_raises labels 0 (Z.to_nat K)).
  - apply Forall_replicate. by rewrite length_replicate.
  - lia.
  - by rewrite length_replicate.
Qed.

(** The label five for two components. *)
Lemma init_kmeans_bad_labels_witness :
  ¬ (Forall (λ lab, lab < Z.to_nat 2)%nat [0; 5]%nat ∧ (2 ≤ 2)%nat) ∧
  init_kmeans far_KMeans ex_xn 2 2 = Raise IndexError.
Proof.
  assert (Hbad : ¬ (Forall (λ lab, lab < Z.to_nat 2)%nat [0; 5]%nat
                    ∧ (2 ≤ 2)%nat)).
  { intros [H _]. apply Forall_cons in H as [_ H].
    apply Forall_cons in H as [H _]. simpl in H. lia. }
  split; [exact Hbad|].
  apply (init_kmeans_bad_labels far_KMeans ex_xn 2 2 [0; 5]%nat);
    [lia|reflexivity|exact Hbad].
Defined.

(** ** The bounds of the count updates *)

(** The loop [for k in range(K): lam[k] = c + Nks[k]] writes the first
    [K] entries when both arrays have them, and raises [IndexError]
    when one of them is shorter. *)
Lemma update_counts_loop (c : R) (Nks : vec) (n a : nat) (lam : vec) :
  (a ≤ length lam)%nat → (a ≤ length Nks)%nat →
  for_each (seq a n) (λ k lam, nk ← getitem Nks k; setitem lam k (c + nk)) lam
  = if decide (a + n ≤ length lam ∧ a + n ≤ length Nks)%nat
    then Ok (take a lam ++ map (Rplus c) (take n (drop a Nks))
               ++ drop (a + n) lam)
    else Raise IndexError.
Proof.
  revert a lam. induction n as [|n IH]; intros a lam Hl HN.
  - simpl. rewrite Nat.add_0_r. rewrite decide_True by done.
    by rewrite take_drop.
  - simpl. destruct (decide (a < length Nks)%nat) as [HaN|HaN].
    2:{ rewrite getitem_ge by lia. rewrite decide_False by lia. done. }
    destruct (lookup_lt_is_Some_2 Nks a HaN) as [nk Hnk].
    rewrite (getitem_Some _ _ _ Hnk). simpl.
    destruct (decide (a < length lam)%nat) as [Hal|Hal].
    2:{ rewrite setitem_ge by lia. rewrite decide_False by lia. done. }
    rewrite setitem_lt by done. simpl.
    rewrite IH by (rewrite ?length_insert; lia). rewrite length_insert.
    destruct (decide (S a + n ≤ length lam ∧ S a + n ≤ length Nks)%nat)
      as [Hd|Hd].
    + rewrite decide_True by lia. f_equal.
      rewrite (take_S_r _ a (c + nk)) by (apply list_lookup_insert_eq; lia).
      rewrite take_insert_ge by lia. rewrite drop_insert_lt by lia.
      rewrite (drop_S _ _ _ Hnk). simpl.
      rewrite <- app_assoc. simpl. by rewrite Nat.add_succ_r.
    + rewrite decide_False by lia. done.
Qed.

Lemma update_counts_bounds (K : Z) (lam : vec) (c : R) (Nks : vec) :
  for_each (range K) (λ k lam, nk ← getitem Nks k; setitem lam k (c + nk)) lam
  = if decide (Z.to_nat K ≤ length lam ∧ Z.to_nat K ≤ length Nks)%nat
    then Ok (map (Rplus c) (take (Z.to_nat K) Nks) ++ drop (Z.to_nat K) lam)
    else Raise IndexError.
Proof.
  unfold range. rewrite update_counts_loop by lia. simpl.
  by rewrite drop_0.
Qed.

(** [update_lambda_beta] and [update_lambda_nu] with their bounds: when
    the array and [Nks] both have [K] entries or more, the first [K]
    entries of the array become [beta_o + Nks[k]] (or [nu_o + Nks[k]])
    and the entries from [K] on are left as they were; when one of the
    two is shorter than [K], the update raises [IndexError].  A [K]
    below one leaves the array as it is. *)
Theorem count_updates_bounds (K : Z) (lam : vec) (c : R) (Nks : vec) :
  let answer :=
    if decide (Z.to_nat K ≤ length lam ∧ Z.to_nat K ≤ length Nks)%nat
    then Ok (map (Rplus c) (take (Z.to_nat K) Nks) ++ drop (Z.to_nat K) lam)
    else Raise IndexError in
  update_lambda_beta K lam c Nks = answer ∧
  update_lambda_nu K lam c Nks = answer.
Proof.
  split; apply update_counts_bounds.
Qed.

(** ** The state of the loop is [lambda_phi] *)

Lemma update_lambda_pi_map (K : Z) (lambda_pi : vec) (lambda_phi : mat)
    (alpha_o : vec) :
  length lambda_pi = Z.to_nat K →
  update_lambda_pi K lambda_pi lambda_phi alpha_o
  = mapM (λ k, a ← getitem alpha_o k; col ← column lambda_phi k;
               Ok (a + Np.sum col)) (range K).
Proof.
  intros Hlen. unfold update_lambda_pi, range. rewrite <- Hlen.
  apply (for_each_insert_all (λ _, True)); [|done|done].
  intros k t _ Hk.
  destruct (getitem alpha_o k) as [a|e]; [|done]. simpl.
  destruct (column lambda_phi k) as [col|e]; [|done]. simpl.
  by rewrite setitem_lt.
Qed.

Lemma fit_row_length (d : nat) (v row : vec) :
  fit_row d v = Ok row → length row = d.
Proof.
  unfold fit_row. destruct (Nat.eqb_spec (length v) d) as [Hd|_].
  - by intros [= <-].
  - destruct v as [|a [|??]]; try done. intros [= <-].
    by rewrite length_replicate.
Qed.

Lemma fit_mat_shape (r c : nat) (V M : mat) :
  fit_mat r c V = Ok M → has_shape r c M.
Proof.
  unfold fit_mat. intros H. apply bind_Ok in H as (rows & Hrows & H).
  assert (Hc : Forall (λ row : vec, length row = c) rows).
  { apply mapM_Ok in Hrows. clear H.
    induction Hrows as [|v row V rows Hv _ IH]; constructor; [|done].
    by apply fit_row_length in Hv. }
  destruct (Nat.eqb_spec (length rows) r) as [Hr|_].
  - injection H as <-. by split.
  - destruct rows as [|row [|??]]; try done. injection H as <-.
    apply Forall_cons in Hc as [Hrow _]. split.
    + by rewrite length_replicate.
    + by apply Forall_replicate.
Qed.

Lemma has_shape_nrows_ncols (d : nat) (M : mat) :
  has_shape d d M → nrows M = d ∧ ncols M = d.
Proof.
  intros [Hr Hc]. split; [done|]. destruct M as [|row M]; [done|].
  apply Forall_cons in Hc as [Hrow _]. done.
Qed.

Lemma update_lambda_m_map (K : Z) (lambda_m lambda_phi : mat)
    (lambda_beta m_o : vec) (beta_o : R) (xn : mat) (N D : nat) :
  has_shape (Z.to_nat K) D lambda_m →
  update_lambda_m K lambda_m lambda_phi lambda_beta m_o beta_o xn N
  = mapM (lambda_m_row lambda_phi lambda_beta m_o beta_o xn N D) (range K).
Proof.
  intros [Hlen Hrows]. unfold update_lambda_m, range. rewrite <- Hlen.
  apply (for_each_insert_all (Forall (λ row : vec, length row = D)));
    [| |done].
  - intros k t Ht Hk. unfold lambda_m_row.
    destruct (weighted_points _ _ _ _) as [aux|e]; [|done]. simpl.
    destruct (broadcast2 _ _ _) as [s|e]; [|done]. simpl.
    destruct (getitem lambda_beta k) as [b|e]; [|done]. simpl.
    destruct (mapM _ s) as [q|e]; [|done]. simpl.
    destruct (lookup_lt_is_Some_2 t k Hk) as [old Hold].
    rewrite (getitem_Some _ _ _ Hold). simpl.
    rewrite Forall_lookup in Ht. rewrite (Ht k old Hold).
    destruct (fit_row D q) as [row|e]; [|done]. simpl.
    by rewrite setitem_lt.
  - intros k t row Ht Hrow. apply Forall_insert; [done|].
    unfold lambda_m_row in Hrow. inv_result.
    by eapply fit_row_length.
Qed.

Lemma update_lambda_W_map (lambda_W : list mat) (lambda_phi : mat)
    (lambda_beta : vec) (lambda_m W_o : mat) (beta_o : R) (m_o : vec)
    (xn_xnt : list mat) (K : Z) (N D : nat) :
  length lambda_W = Z.to_nat K → Forall (has_shape D D) lambda_W →
  update_lambda_W lambda_W lambda_phi lambda_beta lambda_m W_o beta_o m_o
    xn_xnt K N
  = mapM (lambda_W_slot lambda_phi lambda_beta lambda_m W_o beta_o m_o xn_xnt
            N D) (range K).
Proof.
  intros Hlen Hshape. unfold update_lambda_W, range. rewrite <- Hlen.
  apply (for_each_insert_all (Forall (has_shape D D))); [| |done].
  - intros k t Ht Hk. unfold lambda_W_slot.
    destruct (weighted_outers _ _ _ _) as [aux|e]; [|done]. simpl.
    destruct (mbroadcast2 _ _ _) as [s1|e]; [|done]. simpl.
    destruct (mbroadcast2 _ _ _) as [s2|e]; [|done]. simpl.
    destruct (getitem lambda_beta k) as [b|e]; [|done]. simpl.
    destruct (getitem lambda_m k) as [m|e]; [|done]. simpl.
    destruct (mbroadcast2 _ _ _) as [s3|e]; [|done]. simpl.
    destruct (lookup_lt_is_Some_2 t k Hk) as [old Hold].
    rewrite (getitem_Some _ _ _ Hold). simpl.
    rewrite Forall_lookup in Ht.
    destruct (has_shape_nrows_ncols D old (Ht k old Hold)) as [-> ->].
    destruct (fit_mat D D s3) as [V|e]; [|done]. simpl.
    by rewrite setitem_lt.
  - intros k t V Ht HV. apply Forall_insert; [done|].
    unfold lambda_W_slot in HV. inv_result.
    by eapply fit_mat_shape.
Qed.

Lemma update_counts_map (K : Z) (lam1 lam2 : vec) (c : R) (Nks : vec) :
  length lam1 = Z.to_nat K → length lam2 = Z.to_nat K →
  for_each (range K) (λ k lam, nk ← getitem Nks k; setitem lam k (c + nk))
    lam1
  = for_each (range K) (λ k lam, nk ← getitem Nks k; setitem lam k (c + nk))
      lam2.
Proof.
  intros H1 H2. rewrite !update_counts_bounds, H1, H2.
  by rewrite !drop_ge by lia.
Qed.

Lemma ex_p0_shape_in : params_shape_in 2 2 2 ex_p0.
Proof. exact ex_p0_shape. Qed.

Lemma ex_p1_shape_in : params_shape_in 2 2 2 ex_p1.
Proof.
  unfold params_shape_in, ex_p1. simpl.
  repeat split; try done; repeat constructor; done.
Qed.

(** The state that the loop of [main] carries from one sweep to the
    next is [lambda_phi] alone.  On parameters of the shapes [main]
    allocates, a sweep never reads what [lambda_pi], [lambda_beta],
    [lambda_nu], [lambda_m] and [lambda_W] hold: two sets of parameters
    with the same responsibilities give the same result, be it the new
    parameters or an exception.  The zeros these five arrays start from
    are never used. *)
Theorem sweep_reads_lambda_phi_only (psi : R → R) (K : Z) (p1 p2 : params)
    (xn : mat) (xn_xnt : list mat) (N D : nat) :
  params_shape_in K N D p1 → params_shape_in K N D p2 →
  lambda_phi p1 = lambda_phi p2 →
  sweep psi K p1 xn xn_xnt N D = sweep psi K p2 xn xn_xnt N D.
Proof.
  intros (Hs & Hpi1 & Hb1 & Hn1 & Hm1 & HlW1 & HW1)
         (_ & Hpi2 & Hb2 & Hn2 & Hm2 & HlW2 & HW2) Hphi.
  unfold sweep. rewrite <- Hphi.
  rewrite !update_lambda_pi_map by done.
  destruct (mapM _ _) as [pi'|e]; [|done]. simpl.
  unfold update_lambda_beta, update_lambda_nu.
  rewrite (update_counts_map K (lambda_beta p1) (lambda_beta p2)) by done.
  destruct (for_each _ _ (lambda_beta p2)) as [beta'|e]; [|done]. simpl.
  rewrite (update_counts_map K (lambda_nu p1) (lambda_nu p2)) by done.
  destruct (for_each _ _ (lambda_nu p2)) as [nu'|e]; [|done]. simpl.
  rewrite (update_lambda_m_map K (lambda_m p1) _ _ _ _ _ _ D) by done.
  rewrite (update_lambda_m_map K (lambda_m p2) _ _ _ _ _ _ D) by done.
  destruct (mapM _ _) as [m'|e]; [|done]. simpl.
  rewrite (update_lambda_W_map (lambda_W p1) _ _ _ _ _ _ _ _ _ D) by done.
  rewrite (update_lambda_W_map (lambda_W p2) _ _ _ _ _ _ _ _ _ D) by done.
  reflexivity.
Qed.

(** Arrays of zeros and arrays of ones around the same
    responsibilities. *)
Lemma sweep_reads_lambda_phi_only_witness :
  params_shape_in 2 2 2 ex_p0 ∧ params_shape_in 2 2 2 ex_p1 ∧
  ∀ psi : R → R,
    sweep psi 2 ex_p0 ex_xn (map (λ x, outer x x) ex_xn) 2 2
    = sweep psi 2 ex_p1 ex_xn (map (λ x, outer x x) ex_xn) 2 2.
Proof.
  split; [exact ex_p0_shape_in|]. split; [exact ex_p1_shape_in|].
  intros psi.
  exact (sweep_reads_lambda_phi_only psi 2 ex_p0 ex_p1 ex_xn
           (map (λ x, outer x x) ex_xn) 2 2 ex_p0_shape_in ex_p1_shape_in
           eq_refl).
Defined.

(** ** The updated means lie between the data and the prior mean *)

Lemma wsum_bounds (f : R → R → R) (lo hi : R) (col : vec) (xn : mat) :
  Forall (λ p, 0 <= p) col → length xn = length col →
  Forall (λ x, lo <= f (nth 0 x 0) (nth 1 x 0) <= hi) xn →
  lo * Np.sum col <= wsum f col xn <= hi * Np.sum col.
Proof.
  intros Hcol. revert xn.
  induction Hcol as [|p col Hp _ IH]; intros [|x xn] Hlen Hx; try done.
  - unfold wsum. simpl. lra.
  - apply Forall_cons in Hx as [Hx0 Hx]. rewrite wsum_cons. simpl.
    destruct (IH xn) as [H1 H2]; [simpl in Hlen; lia|done|]. nra.
Qed.

(** A weighted mean with the prior: [(m * beta + Σ p_n x_n) / (beta + Σ p_n)]
    lies between bounds on [m] and the [x_n]. *)
Lemma shrunk_mean_bounds (f : R → R → R) (lo hi m beta : R) (col : vec)
    (xn : mat) :
  0 < beta → lo <= m <= hi →
  Forall (λ p, 0 <= p) col → length xn = length col →
  Forall (λ x, lo <= f (nth 0 x 0) (nth 1 x 0) <= hi) xn →
  lo <= (m * beta + wsum f col xn) / (beta + Np.sum col) <= hi.
Proof.
  intros Hb Hm Hcol Hlen Hx.
  destruct (wsum_bounds f lo hi col xn Hcol Hlen Hx) as [H1 H2].
  pose proof (sum_nonneg col Hcol) as HS.
  assert (Hd : 0 < beta + Np.sum col) by lra.
  split.
  - apply (Rmult_le_reg_r (beta + Np.sum col)); [done|].
    unfold Rdiv. rewrite Rmult_assoc, Rinv_l by lra. nra.
  - apply (Rmult_le_reg_r (beta + Np.sum col)); [done|].
    unfold Rdiv. rewrite Rmult_assoc, Rinv_l by lra. nra.
Qed.

(** The means and the counts that a sweep on data of the plane leaves. *)
Lemma sweep_means_2d (psi : R → R) (K : Z) (p : params) (xn : mat)
    (xn_xnt : list mat) (N : nat) (p' : params) (Nks : vec) :
  params_shape K N p → has_shape N 2 xn →
  Forall (Forall (λ v, 0 <= v)) (lambda_phi p) →
  sweep psi K p xn xn_xnt N 2 = Ok (p', Nks) →
  length (lambda_m p') = Z.to_nat K ∧
  ∀ k, (k < Z.to_nat K)%nat →
    ∃ col, column (lambda_phi p) k = Ok col ∧ length col = N ∧
      Forall (λ v, 0 <= v) col ∧
      lambda_beta p' !! k = Some (beta_o + Np.sum col) ∧
      lambda_m p' !! k
      = Some [(0 * beta_o + wsum (λ x _, x) col xn) / (beta_o + Np.sum col);
              (0 * beta_o + wsum (λ _ y, y) col xn) / (beta_o + Np.sum col)].
Proof.
  intros (Hphi & Hpi & Hbeta & Hnu & Hm & HlW & HW) Hxn Hpos H.
  unfold sweep in H. inv_result. subst p'. simpl.
  match goal with H : update_lambda_beta _ _ _ _ = Ok ?b |- _ =>
    apply update_counts_Ok in H as [Hlb Hbv]; rename b into beta' end.
  match goal with H : update_lambda_m _ _ _ _ _ _ _ _ = Ok ?m |- _ =>
    rename H into Hrun; rename m into m' end.
  assert (Hbk : ∀ k, (k < Z.to_nat K)%nat →
    ∃ col, column (lambda_phi p) k = Ok col ∧ length col = N ∧
           Forall (λ v, 0 <= v) col ∧
           beta' !! k = Some (beta_o + Np.sum col)).
  { intros k Hk.
    destruct (column_total (lambda_phi p) k (Z.to_nat K)) as (col & Hcol & _);
      [by destruct Hphi|done|].
    exists col. split; [done|].
    split; [by apply (shape_column_length _ _ _ _ _ Hphi Hcol)|].
    split; [by apply (column_Forall _ (lambda_phi p) k)|].
    destruct (Hbv k Hk) as (nk & Hnk & Hb).
    rewrite (sum_axis0_lookup (Z.to_nat K) _ col k Hk Hcol) in Hnk.
    by injection Hnk as <-. }
  assert (Hb0 : Forall (λ b, b ≠ 0) beta').
  { apply Forall_lookup. intros k b Hb.
    assert (Hk : (k < Z.to_nat K)%nat) by (apply lookup_lt_Some in Hb; lia).
    destruct (Hbk k Hk) as (col & _ & _ & Hc & Hb').
    rewrite Hb in Hb'. injection Hb' as ->. apply sum_nonneg in Hc.
    unfold beta_o. lra. }
  destruct (update_lambda_m_total_2d K (lambda_m p) (lambda_phi p) beta' 0 0
    beta_o xn N) as (m'' & Hm'' & Hsm & Hmv); try done; [lia|].
  change [0; 0] with m_o in Hm''. rewrite Hrun in Hm''. injection Hm'' as <-.
  split; [by destruct Hsm|]. intros k Hk.
  destruct (Hbk k Hk) as (col & Hcol & Hlc & Hc & Hb).
  destruct (Hmv k Hk) as (col' & b & Hcol' & Hb' & Hmk).
  rewrite Hcol in Hcol'. injection Hcol' as <-.
  rewrite Hb in Hb'. injection Hb' as <-. eauto 8.
Qed.

(** After a sweep on points of the plane, started from non-negative
    responsibilities, every mean [lambda_m[k]] lies in the bounding box
    of the data and the prior mean of [main], the origin: each is a
    weighted mean of the points, shrunk towards the origin by
    [beta_o]. *)
Theorem sweep_means_in_box (psi : R → R) (K : Z) (p : params) (xn : mat)
    (xn_xnt : list mat) (N : nat) (p' : params) (Nks : vec)
    (lo0 hi0 lo1 hi1 : R) :
  params_shape K N p → has_shape N 2 xn →
  Forall (Forall (λ v, 0 <= v)) (lambda_phi p) →
  sweep psi K p xn xn_xnt N 2 = Ok (p', Nks) →
  lo0 <= 0 <= hi0 → lo1 <= 0 <= hi1 →
  Forall (λ x, lo0 <= nth 0 x 0 <= hi0 ∧ lo1 <= nth 1 x 0 <= hi1) xn →
  Forall (λ m, lo0 <= nth 0 m 0 <= hi0 ∧ lo1 <= nth 1 m 0 <= hi1)
    (lambda_m p').
Proof.
  intros Hshape Hxn Hpos Hrun H0 H1 Hbox.
  destruct (sweep_means_2d psi K p xn xn_xnt N p' Nks Hshape Hxn Hpos Hrun)
    as [Hlen Hm].
  apply Forall_lookup. intros k m Hk.
  destruct (Hm k) as (col & Hcol & Hlc & Hc & _ & Hmk).
  { apply lookup_lt_Some in Hk. lia. }
  rewrite Hk in Hmk. injection Hmk as ->. simpl.
  assert (Hb : 0 < beta_o) by (unfold beta_o; lra).
  destruct Hxn as [HN _].
  split; apply shrunk_mean_bounds; try done; try lia.
  - eapply Forall_impl; [exact Hbox|]. by intros x [? _].
  - eapply Forall_impl; [exact Hbox|]. by intros x [_ ?].
Qed.

(** The two example points span the box from the origin to [(4, 3)]. *)
Lemma sweep_means_in_box_witness :
  params_shape 2 2 ex_p0 ∧
  ∀ psi : R → R, ∃ p' Nks,
    sweep psi 2 ex_p0 ex_xn (map (λ x, outer x x) ex_xn) 2 2 = Ok (p', Nks) ∧
    Forall (λ m, 0 <= nth 0 m 0 <= 4 ∧ 0 <= nth 1 m 0 <= 3) (lambda_m p').
Proof.
  split; [exact ex_p0_shape|]. intros psi.
  destruct (sweep_total_2d psi 2 ex_p0 ex_xn 2)
    as (p' & Nks & Hs & _); [lia|exact ex_p0_shape|exact ex_p0_nonneg
                             |exact ex_xn_shape|].
  exists p', Nks. split; [exact Hs|].
  apply (sweep_means_in_box psi 2 ex_p0 ex_xn (map (λ x, outer x x) ex_xn)
           2 p' Nks 0 4 0 3);
    [exact ex_p0_shape|exact ex_xn_shape|exact ex_p0_nonneg|exact Hs
    |lra|lra|].
  repeat constructor; simpl; lra.
Defined.

(** ** The skew part of the prior scale matrix *)

Lemma symmetric_2x2 (a b c d : R) : symmetric [[a; b]; [c; d]] ↔ b = c.
Proof.
  unfold symmetric, transpose. simpl. split.
  - by intros [= _ ->].
  - by intros ->.
Qed.

(** The closed form of [lambda_W[k]] has the off-diagonal difference of
    [W_o]: what is added to [W_o] is symmetric. *)
Lemma closed_form_skew (w11 w12 w21 w22 beta_o m0 m1 b u v : R)
    (col : vec) (xn : mat) :
  Forall (λ x : vec, length x = 2%nat) xn →
  ∃ v11 v12 v21 v22,
    Spec.lambda_W_closed_form 2 [[w11; w12]; [w21; w22]] beta_o [m0; m1]
      col xn b [u; v]
    = [[v11; v12]; [v21; v22]] ∧ v12 - v21 = w12 - w21.
Proof.
  intros Hxn. unfold Spec.lambda_W_closed_form. rewrite (msum_wsum _ _ Hxn).
  cbn. rewrite (wsum_ext (λ x y, y * x) (λ x y, x * y)) by (intros; ring).
  eexists _, _, _, _. split; [reflexivity|]. ring.
Qed.

(** [update_lambda_W] adds symmetric terms only to the prior scale
    matrix.  On points of the plane, every [lambda_W[k]] it writes has
    the off-diagonal difference of [W_o], and so is symmetric exactly
    when [W_o] is. *)
Theorem update_lambda_W_keeps_skew_part (lambda_W : list mat)
    (lambda_phi : mat)
    (lambda_beta : vec) (lambda_m : mat) (w11 w12 w21 w22 beta_o m0 m1 : R)
    (xn : mat) (K : Z) (N : nat) :
  has_shape N 2 xn →
  has_shape N (Z.to_nat K) lambda_phi →
  length lambda_beta = Z.to_nat K →
  has_shape (Z.to_nat K) 2 lambda_m →
  length lambda_W = Z.to_nat K → Forall (has_shape 2 2) lambda_W →
  ∃ lambda_W',
    update_lambda_W lambda_W lambda_phi lambda_beta lambda_m
      [[w11; w12]; [w21; w22]] beta_o [m0; m1]
      (map (λ x, outer x x) xn) K N = Ok lambda_W' ∧
    ∀ k, (k < Z.to_nat K)%nat →
      ∃ v11 v12 v21 v22,
        lambda_W' !! k = Some [[v11; v12]; [v21; v22]] ∧
        v12 - v21 = w12 - w21 ∧
        (symmetric [[v11; v12]; [v21; v22]]
         ↔ symmetric [[w11; w12]; [w21; w22]]).
Proof.
  intros Hxn Hphi Hlb Hm HlW HW.
  destruct (update_lambda_W_total_2d lambda_W lambda_phi lambda_beta lambda_m
    [[w11; w12]; [w21; w22]] beta_o [m0; m1] xn K N)
    as (lambda_W' & Hrun & _ & Hval); try done; [apply has_shape_2x2|].
  exists lambda_W'. split; [done|]. intros k Hk.
  destruct (Hval k Hk) as (col & b & m & _ & _ & Hmk & HWk).
  assert (Hlm : length m = 2%nat) by (by apply (has_shape_lookup _ _ _ k _ Hm)).
  apply length_2 in Hlm as (u & v & ->).
  destruct (closed_form_skew w11 w12 w21 w22 beta_o m0 m1 b u v col xn)
    as (v11 & v12 & v21 & v22 & Heq & Hd); [by destruct Hxn|].
  exists v11, v12, v21, v22. rewrite HWk, Heq. split; [done|].
  split; [done|]. rewrite !symmetric_2x2. split; intros; lra.
Qed.

(** The prior of [main] on the two example points. *)
Lemma update_lambda_W_keeps_skew_part_witness :
  has_shape 2 2 ex_xn ∧
  ∃ lambda_W' v11 v12 v21 v22,
    update_lambda_W (lambda_W ex_p0) (lambda_phi ex_p0) [1.7; 1.7]
      [[1; 0]; [0; 1]] W_o beta_o m_o (map (λ x, outer x x) ex_xn) 2 2
      = Ok lambda_W' ∧
    lambda_W' !! 0%nat = Some [[v11; v12]; [v21; v22]] ∧
    v12 - v21 = 30 - 25.
Proof.
  split; [exact ex_xn_shape|].
  destruct (update_lambda_W_keeps_skew_part (lambda_W ex_p0)
    (lambda_phi ex_p0) [1.7; 1.7] [[1; 0]; [0; 1]] 20 30 25 40 beta_o 0 0
    ex_xn 2 2) as (lambda_W' & Hrun & Hk).
  - exact ex_xn_shape.
  - by destruct ex_p0_shape.
  - reflexivity.
  - split; [reflexivity|]. by repeat constructor.
  - reflexivity.
  - by destruct ex_p0_shape as (_ & _ & _ & _ & _ & _ & ?).
  - destruct (Hk 0%nat) as (v11 & v12 & v21 & v22 & HW & Hd & _);
      [change (Z.to_nat 2) with 2%nat; lia|].
    exists lambda_W', v11, v12, v21, v22.
    split; [exact Hrun|]. split; [exact HW|exact Hd].
Defined.

(** ** A proper prior keeps the scale matrices positive-definite *)

(** A symmetric positive-definite matrix plus a positive semi-definite
    one is positive-definite. *)
Lemma spd_plus_psd (w11 w12 w22 s11 s12 s22 : R) :
  0 < w11 → 0 < w11 * w22 - w12 * w12 →
  0 <= s11 → 0 <= s22 → s12 * s12 <= s11 * s22 →
  0 < w11 + s11 ∧
  0 < (w11 + s11) * (w22 + s22) - (w12 + s12) * (w12 + s12).
Proof.
  intros Hw11 Hdet H1 H2 H3. split; [lra|].
  assert (Hw22 : 0 < w22) by nra.
  assert (Hx : 2 * w12 * s12 <= w11 * s22 + w22 * s11).
  { destruct (Rle_lt_dec (2 * w12 * s12) (w11 * s22 + w22 * s11)) as [|Hlt];
      [done|]. exfalso.
    assert (H0 : 0 <= w11 * s22 + w22 * s11) by nra.
    assert (Hsq : (w11 * s22 + w22 * s11) * (w11 * s22 + w22 * s11)
                  < 2 * w12 * s12 * (2 * w12 * s12))
      by (apply Rmult_le_0_lt_compat; lra).
    pose proof (Rle_0_sqr (w11 * s22 - w22 * s11)) as Hq. unfold Rsqr in Hq.
    assert (Hp : w12 * w12 * (s12 * s12) <= w11 * w22 * (s11 * s22)).
    { apply Rmult_le_compat; nra. }
    nra. }
  nra.
Qed.

Lemma closed_form_spd (w11 w12 w22 beta_o m0 m1 : R) (col : vec) (xn : mat)
    (b : R) :
  0 < w11 → 0 < w11 * w22 - w12 * w12 → 0 < beta_o →
  Forall (λ p, 0 <= p) col → has_shape (length col) 2 xn →
  b = beta_o + Np.sum col →
  spd_2x2
    (Spec.lambda_W_closed_form 2 [[w11; w12]; [w12; w22]] beta_o [m0; m1]
       col xn b
       [(m0 * beta_o + wsum (λ x _, x) col xn) / b;
        (m1 * beta_o + wsum (λ _ y, y) col xn) / b]).
Proof.
  intros Hw11 Hdet Hbo Hcol [Hlen Hxn] Hb.
  assert (HP : 0 <= Np.sum col) by (by apply sum_nonneg).
  assert (Hb0 : 0 < b) by lra.
  unfold Spec.lambda_W_closed_form. rewrite (msum_wsum _ _ Hxn). cbn.
  rewrite (wsum_ext (λ x y, y * x) (λ x y, x * y)) by (intros; ring).
  set (sx := wsum (λ x _, x) col xn). set (sy := wsum (λ _ y, y) col xn).
  set (A := wsum (λ x _, x * x) col xn). set (B := wsum (λ _ y, y * y) col xn).
  set (C := wsum (λ x y, x * y) col xn).
  set (u1 := (m0 * beta_o + sx) / b). set (u2 := (m1 * beta_o + sy) / b).
  assert (Hu1 : b * u1 = m0 * beta_o + sx) by (unfold u1; field; lra).
  assert (Hu2 : b * u2 = m1 * beta_o + sy) by (unfold u2; field; lra).
  set (s11 := beta_o * m0 * m0 + A - b * u1 * u1).
  set (s12 := beta_o * m0 * m1 + C - b * u1 * u2).
  set (s22 := beta_o * m1 * m1 + B - b * u2 * u2).
  assert (Hq : ∀ u v, 0 <= s11 * u * u + 2 * s12 * u * v + s22 * v * v).
  { intros u v.
    assert (HT : 0 <= wsum (λ x y, (u * (x - u1) + v * (y - u2))
                                   * (u * (x - u1) + v * (y - u2))) col xn).
    { apply wsum_nonneg; [done|]. intros x y. apply Rle_0_sqr. }
    rewrite wsum_centered in HT by done. fold sx sy A B C in HT.
    pose proof (Rle_0_sqr (u * (m0 - u1) + v * (m1 - u2))) as Hsq.
    unfold Rsqr in Hsq.
    assert (Hid : s11 * u * u + 2 * s12 * u * v + s22 * v * v
      = u * u * (A - 2 * u1 * sx + Np.sum col * u1 * u1)
        + 2 * u * v * (C - u1 * sy - u2 * sx + Np.sum col * u1 * u2)
        + v * v * (B - 2 * u2 * sy + Np.sum col * u2 * u2)
        + beta_o * ((u * (m0 - u1) + v * (m1 - u2))
                    * (u * (m0 - u1) + v * (m1 - u2)))).
    { unfold s11, s12, s22.
      replace sx with (b * u1 - m0 * beta_o) by lra.
      replace sy with (b * u2 - m1 * beta_o) by lra.
      replace (Np.sum col) with (b - beta_o) by lra. ring. }
    rewrite Hid. nra. }
  apply psd_2x2 in Hq as (H11 & H22 & H12).
  destruct (spd_plus_psd w11 w12 w22 s11 s12 s22) as [Ha Hd]; try done.
  exists (w11 + s11), (w12 + s12), (w22 + s22).
  split; [|split; [done|done]].
  unfold s11, s12, s22. list_eq.
Qed.

(** With a proper prior the scale matrices stay positive-definite.  On
    points of the plane, for a symmetric positive-definite [W_o], a
    positive [beta_o], any prior mean and non-negative responsibilities,
    the updates of [lambda_beta], [lambda_m] and [lambda_W], made in the
    order of [main], all answer and leave every [lambda_W[k]] symmetric
    positive-definite. *)
Theorem updates_keep_positive_definite (K : Z) (lambda_beta : vec)
    (lambda_m : mat)
    (lambda_W : list mat) (lambda_phi xn : mat) (N : nat)
    (w11 w12 w22 beta_o m0 m1 : R) :
  has_shape N 2 xn → has_shape N (Z.to_nat K) lambda_phi →
  Forall (Forall (λ v, 0 <= v)) lambda_phi →
  length lambda_beta = Z.to_nat K → has_shape (Z.to_nat K) 2 lambda_m →
  length lambda_W = Z.to_nat K → Forall (has_shape 2 2) lambda_W →
  0 < w11 → 0 < w11 * w22 - w12 * w12 → 0 < beta_o →
  ∃ lambda_beta' lambda_m' lambda_W',
    update_lambda_beta K lambda_beta beta_o
      (sum_axis0 (Z.to_nat K) lambda_phi) = Ok lambda_beta' ∧
    update_lambda_m K lambda_m lambda_phi lambda_beta' [m0; m1] beta_o xn N
      = Ok lambda_m' ∧
    update_lambda_W lambda_W lambda_phi lambda_beta' lambda_m'
      [[w11; w12]; [w12; w22]] beta_o [m0; m1] (map (λ x, outer x x) xn) K N
      = Ok lambda_W' ∧
    length lambda_W' = Z.to_nat K ∧ Forall spd_2x2 lambda_W'.
Proof.
  intros Hxn Hphi Hpos Hlb Hm HlW HW Hw11 Hdet Hbo.
  set (Nks := sum_axis0 (Z.to_nat K) lambda_phi).
  assert (HlN : length Nks = Z.to_nat K).
  { apply sum_axis0_length. by destruct Hphi. }
  destruct (update_counts_total K lambda_beta beta_o Nks)
    as (beta' & Hbeta' & Hlbeta' & Hbv); [done|done|].
  assert (Hbk : ∀ k b, beta' !! k = Some b →
    ∃ col, column lambda_phi k = Ok col ∧ length col = N ∧
           Forall (λ v, 0 <= v) col ∧ b = beta_o + Np.sum col).
  { intros k b Hb.
    assert (Hk : (k < Z.to_nat K)%nat) by (apply lookup_lt_Some in Hb; lia).
    destruct (column_total lambda_phi k (Z.to_nat K)) as (col & Hcol & _);
      [by destruct Hphi|done|].
    exists col. split; [done|].
    split; [by apply (shape_column_length _ _ _ _ _ Hphi Hcol)|].
    split; [by apply (column_Forall _ lambda_phi k)|].
    pose proof (sum_axis0_lookup (Z.to_nat K) _ col k Hk Hcol) as Hs.
    rewrite (Hbv k _ Hs) in Hb. by injection Hb as <-. }
  assert (Hb0 : Forall (λ b, b ≠ 0) beta').
  { apply Forall_lookup. intros k b Hb.
    destruct (Hbk k b Hb) as (col & _ & _ & Hc & ->).
    apply sum_nonneg in Hc. lra. }
  destruct (update_lambda_m_total_2d K lambda_m lambda_phi beta' m0 m1
    beta_o xn N) as (m' & Hm' & Hsm' & Hmv); try done.
  destruct (update_lambda_W_total_2d lambda_W lambda_phi beta' m'
    [[w11; w12]; [w12; w22]] beta_o [m0; m1] xn K N)
    as (W' & HW' & HlW' & HWv); try done; [apply has_shape_2x2|].
  exists beta', m', W'. split; [done|]. split; [done|]. split; [done|].
  split; [lia|].
  apply Forall_lookup. intros k W HWk.
  assert (Hk : (k < Z.to_nat K)%nat) by (apply lookup_lt_Some in HWk; lia).
  destruct (HWv k Hk) as (col & b & m & Hcol & Hb & Hmk & HWk').
  rewrite HWk in HWk'. injection HWk' as ->.
  destruct (Hbk k b Hb) as (col' & Hcol' & Hlc & Hcpos & ->).
  rewrite Hcol in Hcol'. injection Hcol' as <-.
  destruct (Hmv k Hk) as (col' & b' & Hcol' & Hb' & Hmk').
  rewrite Hcol in Hcol'. injection Hcol' as <-.
  rewrite Hb in Hb'. injection Hb' as <-.
  rewrite Hmk in Hmk'. injection Hmk' as ->.
  apply closed_form_spd; try done. by rewrite Hlc.
Qed.

(** The scale matrix [[2, 1], [1, 2]] as the prior, on the two example
    points. *)
Lemma updates_keep_positive_definite_witness :
  0 < 2 * 2 - 1 * 1 ∧
  ∃ lambda_beta' lambda_m' lambda_W',
    update_lambda_beta 2 (lambda_beta ex_p0) beta_o
      (sum_axis0 2 (lambda_phi ex_p0)) = Ok lambda_beta' ∧
    update_lambda_m 2 (lambda_m ex_p0) (lambda_phi ex_p0) lambda_beta'
      [1; 1] beta_o ex_xn 2 = Ok lambda_m' ∧
    update_lambda_W (lambda_W ex_p0) (lambda_phi ex_p0) lambda_beta'
      lambda_m' S_W_o beta_o [1; 1] (map (λ x, outer x x) ex_xn) 2 2
      = Ok lambda_W' ∧
    Forall spd_2x2 lambda_W'.
Proof.
  split; [lra|].
  destruct (updates_keep_positive_definite 2 (lambda_beta ex_p0)
    (lambda_m ex_p0) (lambda_W ex_p0) (lambda_phi ex_p0) ex_xn 2 2 1 2
    beta_o 1 1) as (b' & m' & W' & Hb & Hm & HW & _ & Hspd).
  - exact ex_xn_shape.
  - by destruct ex_p0_shape.
  - exact ex_p0_nonneg.
  - reflexivity.
  - by destruct ex_p0_shape as (_ & _ & _ & _ & ? & _).
  - reflexivity.
  - by destruct ex_p0_shape as (_ & _ & _ & _ & _ & _ & ?).
  - lra.
  - lra.
  - unfold beta_o. lra.
  - exists b', m', W'. split; [exact Hb|]. split; [exact Hm|].
    split; [exact HW|exact Hspd].
Defined.

(** ** Where the sufficient statistics are defined *)







(** ** A larger iteration budget *)

(** The loop over two stretches of indices: the second is run from
    where the first left off, unless the first left through [break]. *)
Lemma iterate_app (psi gammaln : R → R) (multigammaln : R → nat → R) (K : Z)
    (idx1 idx2 : list nat) (xn : mat) (xn_xnt : list mat) (N D : nat)
    (p : params) (lbs0 : list R) (n0 : nat) :
  iterate psi gammaln multigammaln K (idx1 ++ idx2) xn xn_xnt N D p lbs0 n0
  = (r ← iterate psi gammaln multigammaln K idx1 xn xn_xnt N D p lbs0 n0;
     if stopped r then Ok r
     else iterate psi gammaln multigammaln K idx2 xn xn_xnt N D (final r)
            (lbs r) (n_iters r)).
Proof.
  revert p lbs0 n0. induction idx1 as [|i idx1 IH]; intros p lbs0 n0; [done|].
  simpl. destruct (sweep _ _ _ _ _ _ _) as [pn|e]; [|done]. simpl.
  destruct (elbo _ _ _ _ _ _ _ _ _ _ _ _ _ _ _ _ _ _ _ _) as [lb|e];
    [|done]. simpl.
  destruct i as [|j]; [apply IH|].
  destruct (getitem _ _) as [prev|e]; [|done]. simpl.
  destruct (Rlt_dec _ _); [done|apply IH].
Qed.

(** A larger iteration budget only lets the run go on.  For
    [m ≤ m']: a run that raises with budget [m] raises the same
    exception with budget [m']; a run that left through [break] with
    budget [m] returns the very same result with budget [m']; and when
    both return, the trace of ELBO values of the shorter run is a
    prefix of that of the longer one. *)
Theorem main_larger_budget (psi gammaln : R → R)
    (multigammaln : R → nat → R) (K : Z)
    (KMeans_fit_predict : Z → mat → result (list nat))
    (np_random_dirichlet : vec → nat → result mat)
    (m m' : Z) (RANDOM_INIT : bool) (xn : mat) (N D : nat) :
  (m ≤ m')%Z →
  (∀ e, main psi gammaln multigammaln K KMeans_fit_predict
          np_random_dirichlet m RANDOM_INIT xn N D = Raise e →
        main psi gammaln multigammaln K KMeans_fit_predict
          np_random_dirichlet m' RANDOM_INIT xn N D = Raise e) ∧
  (∀ r, main psi gammaln multigammaln K KMeans_fit_predict
          np_random_dirichlet m RANDOM_INIT xn N D = Ok r →
        (stopped r = true →
         main psi gammaln multigammaln K KMeans_fit_predict
           np_random_dirichlet m' RANDOM_INIT xn N D = Ok r) ∧
        ∀ r', main psi gammaln multigammaln K KMeans_fit_predict
                np_random_dirichlet m' RANDOM_INIT xn N D = Ok r' →
              lbs r `prefix_of` lbs r' ∧ (n_iters r ≤ n_iters r')%nat).
Proof.
  intros Hm. unfold main, range.
  replace (Z.to_nat m') with (Z.to_nat m + (Z.to_nat m' - Z.to_nat m))%nat
    by lia.
  rewrite seq_app. simpl (0 + _)%nat.
  destruct (initial_params _ _ _ _ _ _ _) as [p0|e]; [|done]. simpl.
  destruct (mapM _ _) as [xn_xnt|e]; [|done]. simpl.
  rewrite iterate_app.
  destruct (iterate psi gammaln multigammaln K (seq 0 (Z.to_nat m)) xn xn_xnt
              N D p0 [] 0) as [r0|e0] eqn:Hrun; simpl; [|done].
  split; [done|]. intros r [= <-].
  destruct (stopped r0) eqn:Hs.
  - split; [done|]. by intros r' [= <-].
  - split; [done|]. intros r' Hr'.
    apply iterate_inv in Hrun as (new & Hl & Hn & _ & Hf & _); [|done].
    specialize (Hf Hs). simpl in Hl, Hn.
    assert (Hni : n_iters r0 = Z.to_nat m) by lia.
    rewrite Hni in Hr'.
    apply iterate_inv in Hr' as (new' & Hl' & Hn' & _).
    + split; [by exists new'|lia].
    + rewrite Hl. lia.
Qed.

(** One and three iterations on the two example points. *)
Lemma main_larger_budget_witness :
  (1 ≤ 3)%Z ∧
  ∀ (psi gammaln : R → R) (multigammaln : R → nat → R), ∃ r r',
    main psi gammaln multigammaln 2 ex_KMeans K1_dirichlet 1 false ex_xn
      2 2 = Ok r ∧
    main psi gammaln multigammaln 2 ex_KMeans K1_dirichlet 3 false ex_xn
      2 2 = Ok r' ∧
    lbs r `prefix_of` lbs r' ∧ (n_iters r ≤ n_iters r')%nat.
Proof.
  split; [lia|]. intros psi gammaln multigammaln.
  destruct (main_warm_start_total psi gammaln multigammaln 2 ex_KMeans
    K1_dirichlet 1 ex_xn 2 [0; 1]%nat) as (r & Hr);
    [lia|exact ex_xn_shape|reflexivity|reflexivity
    |repeat constructor; simpl; lia|].
  destruct (main_warm_start_total psi gammaln multigammaln 2 ex_KMeans
    K1_dirichlet 3 ex_xn 2 [0; 1]%nat) as (r' & Hr');
    [lia|exact ex_xn_shape|reflexivity|reflexivity
    |repeat constructor; simpl; lia|].
  exists r, r'. split; [exact Hr|]. split; [exact Hr'|].
  destruct (main_larger_budget psi gammaln multigammaln 2 ex_KMeans
    K1_dirichlet 1 3 false ex_xn 2 2 ltac:(lia)) as [_ Hok].
  destruct (Hok r Hr) as [_ Hpre]. exact (Hpre r' Hr').
Defined.

(** ** The random start *)



(** ** The arguments of the special functions *)

Lemma sum_ge_length (x : vec) :
  Forall (λ a, 1 <= a) x → INR (length x) <= Np.sum x.
Proof.
  induction 1 as [|a x Ha _ IH].
  - simpl. lra.
  - change (length (a :: x)) with (S (length x)). rewrite S_INR. simpl. lra.
Qed.

(** After a sweep started from non-negative responsibilities, no call
    of [psi], [gammaln] or [multigammaln] in [update_lambda_phi] and
    [elbo] is at a pole or outside the domain: every [lambda_pi[k]] is
    at least one (and their sum at least [K]), every [lambda_beta[k]]
    at least [beta_o], every [lambda_nu[k]] at least three, so that the
    arguments [lambda_nu[k] / 2 + (1 - i) / 2] of [psi] are at least
    [3 / 2] and [lambda_nu[k] / 2] exceeds [(D - 1) / 2] for [D = 2]. *)
Theorem special_function_arguments (psi : R → R) (K : Z) (p : params)
    (xn : mat) (xn_xnt : list mat) (N : nat) (p' : params) (Nks : vec) :
  sweep psi K p xn xn_xnt N 2 = Ok (p', Nks) →
  length (lambda_pi p) = Z.to_nat K →
  length (lambda_beta p) = Z.to_nat K →
  length (lambda_nu p) = Z.to_nat K →
  Forall (Forall (λ v, 0 <= v)) (lambda_phi p) →
  Forall (λ a, 1 <= a) (lambda_pi p') ∧
  INR (Z.to_nat K) <= Np.sum (lambda_pi p') ∧
  Forall (λ b, beta_o <= b) (lambda_beta p') ∧
  Forall (λ nu, 3 <= nu ∧ (INR 2 - 1) / 2 < nu / 2 ∧
                Forall (λ a, 3 / 2 <= a) (psi_args nu 2)) (lambda_nu p').
Proof.
  intros H Hpi Hbeta Hnu Hpos. unfold sweep in H.
  apply bind_Ok in H as (pi' & Hpi' & H).
  apply bind_Ok in H as (beta' & Hbeta' & H).
  apply bind_Ok in H as (nu' & Hnu' & H).
  apply bind_Ok in H as (m' & _ & H). apply bind_Ok in H as (W' & _ & H).
  apply bind_Ok in H as (phi' & _ & H). injection H as <- _. simpl.
  apply update_lambda_pi_Ok in Hpi' as [Hlpi Hpiv].
  apply update_counts_Ok in Hbeta' as [Hlb Hbv].
  apply update_counts_Ok in Hnu' as [Hln Hnv].
  assert (Hcol : ∀ k col, column (lambda_phi p) k = Ok col → 0 <= Np.sum col).
  { intros k col Hc. apply sum_nonneg.
    by apply (column_Forall _ (lambda_phi p) k). }
  assert (Hnk : ∀ k nk, (k < Z.to_nat K)%nat →
    sum_axis0 (Z.to_nat K) (lambda_phi p) !! k = Some nk → 0 <= nk).
  { intros k nk Hk Hs. destruct (Hpiv k Hk) as (a & col & _ & Hc & _).
    rewrite (sum_axis0_lookup _ _ col k Hk Hc) in Hs. injection Hs as <-.
    by apply (Hcol k). }
  assert (H1 : Forall (λ a, 1 <= a) pi').
  { apply Forall_lookup. intros k v Hv.
    assert (Hk : (k < Z.to_nat K)%nat) by (apply lookup_lt_Some in Hv; lia).
    destruct (Hpiv k Hk) as (a & col & Ha & Hc & Hv').
    rewrite Hv in Hv'. injection Hv' as ->.
    unfold alpha_o in Ha. apply lookup_replicate in Ha as [-> _].
    specialize (Hcol k col Hc). lra. }
  split; [done|]. split.
  { rewrite <- Hpi, <- Hlpi. by apply sum_ge_length. }
  split.
  - apply Forall_lookup. intros k v Hv.
    assert (Hk : (k < Z.to_nat K)%nat) by (apply lookup_lt_Some in Hv; lia).
    destruct (Hbv k Hk) as (nk & Hs & Hv').
    rewrite Hv in Hv'. injection Hv' as ->.
    specialize (Hnk k nk Hk Hs). lra.
  - apply Forall_lookup. intros k v Hv.
    assert (Hk : (k < Z.to_nat K)%nat) by (apply lookup_lt_Some in Hv; lia).
    destruct (Hnv k Hk) as (nk & Hs & Hv').
    rewrite Hv in Hv'. injection Hv' as ->.
    specialize (Hnk k nk Hk Hs). unfold nu_o, psi_args. simpl.
    split; [lra|]. split; [lra|].
    repeat (apply Forall_cons; split; [lra|]). constructor.
Qed.

(** The first sweep on the two example points. *)
Lemma special_function_arguments_witness :
  params_shape 2 2 ex_p0 ∧
  ∀ psi : R → R, ∃ p' Nks,
    sweep psi 2 ex_p0 ex_xn (map (λ x, outer x x) ex_xn) 2 2 = Ok (p', Nks) ∧
    Forall (λ a, 1 <= a) (lambda_pi p') ∧
    Forall (λ nu, 3 <= nu) (lambda_nu p').
Proof.
  split; [exact ex_p0_shape|]. intros psi.
  destruct (sweep_total_2d psi 2 ex_p0 ex_xn 2)
    as (p' & Nks & Hs & _); [lia|exact ex_p0_shape|exact ex_p0_nonneg
                             |exact ex_xn_shape|].
  exists p', Nks. split; [exact Hs|].
  destruct (special_function_arguments psi 2 ex_p0 ex_xn
    (map (λ x, outer x x) ex_xn) 2 p' Nks Hs eq_refl eq_refl eq_refl
    ex_p0_nonneg) as (Hpi & _ & _ & Hnu).
  split; [exact Hpi|].
  eapply Forall_impl; [exact Hnu|]. by intros nu [? _].
Defined.

(** ** Components that cannot be told apart *)

Lemma for_each_ext {A T} (ks : list A) (body body' : A → T → result T)
    (s : T) :
  (∀ k t, k ∈ ks → body k t = body' k t) →
  for_each ks body s = for_each ks body' s.
Proof.
  revert s. induction ks as [|k ks IH]; intros s H; [done|]. simpl.
  rewrite H by left. destruct (body' k s) as [s'|e]; [|done]. simpl.
  apply IH. intros k' t Hk'. apply H. by right.
Qed.

Lemma getitem_eq {A} (l : list A) (i j : nat) :
  l !! i = l !! j → getitem l i = getitem l j.
Proof. intros H. unfold getitem. by rewrite H. Qed.

Lemma tied_getitem2 (k1 k2 : nat) (lambda_phi : mat) (n : nat) :
  tied k1 k2 lambda_phi →
  getitem2 lambda_phi n k1 = getitem2 lambda_phi n k2.
Proof.
  intros Ht. unfold getitem2.
  destruct (lambda_phi !! n) as [row|] eqn:Hrow.
  - rewrite (getitem_Some _ _ _ Hrow). simpl. unfold getitem.
    unfold tied in Ht. rewrite Forall_lookup in Ht. by rewrite (Ht n row Hrow).
  - unfold getitem. by rewrite Hrow.
Qed.

Lemma tied_column (k1 k2 : nat) (lambda_phi : mat) :
  tied k1 k2 lambda_phi → column lambda_phi k1 = column lambda_phi k2.
Proof.
  intros Ht. unfold column. induction Ht as [|row M Hrow _ IH]; [done|].
  simpl. by rewrite (getitem_eq row k1 k2 Hrow), IH.
Qed.

Lemma tied_weighted_points (k1 k2 : nat) (lambda_phi xn : mat) (N : nat) :
  tied k1 k2 lambda_phi →
  weighted_points lambda_phi xn N k1 = weighted_points lambda_phi xn N k2.
Proof.
  intros Ht. unfold weighted_points. apply for_each_ext.
  intros n aux _. by rewrite (tied_getitem2 k1 k2).
Qed.

Lemma tied_weighted_outers (k1 k2 : nat) (lambda_phi : mat)
    (xn_xnt : list mat) (N : nat) :
  tied k1 k2 lambda_phi →
  weighted_outers lambda_phi xn_xnt N k1
  = weighted_outers lambda_phi xn_xnt N k2.
Proof.
  intros Ht. unfold weighted_outers. apply for_each_ext.
  intros n aux _. by rewrite (tied_getitem2 k1 k2).
Qed.

Lemma mapM_range_lookup {B} (f : nat → result B) (K : Z) (l : list B)
    (k : nat) :
  mapM f (range K) = Ok l → (k < Z.to_nat K)%nat →
  ∃ b, f k = Ok b ∧ l !! k = Some b.
Proof. apply mapM_seq_lookup. Qed.

Lemma mapM_range_tie {B} (f : nat → result B) (K : Z) (l : list B)
    (k1 k2 : nat) :
  mapM f (range K) = Ok l →
  (k1 < Z.to_nat K)%nat → (k2 < Z.to_nat K)%nat → f k1 = f k2 →
  l !! k1 = l !! k2.
Proof.
  intros H H1 H2 Hf.
  destruct (mapM_range_lookup f K l k1 H H1) as (b1 & Hb1 & ->).
  destruct (mapM_range_lookup f K l k2 H H2) as (b2 & Hb2 & ->).
  congruence.
Qed.

Lemma phi_score_tie (psi : R → R) (lambda_pi : vec) (lambda_m : mat)
    (lambda_nu : vec) (lambda_W : list mat) (lambda_beta : vec) (xn : mat)
    (D n k1 k2 : nat) :
  lambda_pi !! k1 = lambda_pi !! k2 → lambda_m !! k1 = lambda_m !! k2 →
  lambda_nu !! k1 = lambda_nu !! k2 → lambda_W !! k1 = lambda_W !! k2 →
  lambda_beta !! k1 = lambda_beta !! k2 →
  phi_score psi lambda_pi lambda_m lambda_nu lambda_W lambda_beta xn D n k1
  = phi_score psi lambda_pi lambda_m lambda_nu lambda_W lambda_beta xn D n k2.
Proof.
  intros Hpi Hm Hnu HW Hb.
  apply getitem_eq in Hpi, Hm, Hnu, HW, Hb.
  assert (H0 : dirichlet_expectation psi lambda_pi k1
               = dirichlet_expectation psi lambda_pi k2).
  { unfold dirichlet_expectation. by rewrite Hpi. }
  assert (H1 : phi_term1 lambda_m lambda_nu lambda_W xn n k1
               = phi_term1 lambda_m lambda_nu lambda_W xn n k2).
  { unfold phi_term1. rewrite Hm.
    destruct (getitem lambda_m k2); [|done]. simpl. rewrite Hnu.
    destruct (getitem lambda_nu k2); [|done]. simpl. by rewrite HW. }
  assert (H2 : phi_term2 lambda_nu lambda_W xn n k1
               = phi_term2 lambda_nu lambda_W xn n k2).
  { unfold phi_term2. rewrite Hnu.
    destruct (getitem lambda_nu k2); [|done]. simpl. by rewrite HW. }
  assert (H3 : phi_term3 lambda_beta D k1 = phi_term3 lambda_beta D k2).
  { unfold phi_term3. by rewrite Hb. }
  assert (H4 : phi_term4 lambda_m lambda_nu lambda_W k1
               = phi_term4 lambda_m lambda_nu lambda_W k2).
  { unfold phi_term4. rewrite Hnu.
    destruct (getitem lambda_nu k2); [|done]. simpl. rewrite Hm.
    destruct (getitem lambda_m k2); [|done]. simpl. by rewrite HW. }
  assert (H6 : phi_term6 psi lambda_nu D k1 = phi_term6 psi lambda_nu D k2).
  { unfold phi_term6. by rewrite Hnu. }
  assert (H7 : phi_term7 lambda_W k1 = phi_term7 lambda_W k2).
  { unfold phi_term7. by rewrite HW. }
  unfold phi_score. by rewrite H0, H1, H2, H3, H4, H6, H7.
Qed.

Lemma softmax_tie (x p : vec) (i j : nat) :
  softmax x = Ok p → x !! i = x !! j → p !! i = p !! j.
Proof.
  intros Hp Hij. apply softmax_unfold in Hp as (m & _ & _ & ->). simpl.
  by rewrite !list_lookup_fmap, Hij.
Qed.

Lemma lambda_m_row_tie (lambda_phi : mat) (lambda_beta m_o : vec)
    (beta_o : R) (xn : mat) (N d k1 k2 : nat) :
  tied k1 k2 lambda_phi → lambda_beta !! k1 = lambda_beta !! k2 →
  lambda_m_row lambda_phi lambda_beta m_o beta_o xn N d k1
  = lambda_m_row lambda_phi lambda_beta m_o beta_o xn N d k2.
Proof.
  intros Ht Hb. unfold lambda_m_row.
  rewrite (tied_weighted_points k1 k2) by done.
  destruct (weighted_points _ _ _ _); [|done]. simpl.
  destruct (broadcast2 _ _ _); [|done]. simpl.
  by rewrite (getitem_eq lambda_beta k1 k2).
Qed.

Lemma lambda_W_slot_tie (lambda_phi : mat) (lambda_beta : vec)
    (lambda_m W_o : mat) (beta_o : R) (m_o : vec) (xn_xnt : list mat)
    (N d k1 k2 : nat) :
  tied k1 k2 lambda_phi → lambda_beta !! k1 = lambda_beta !! k2 →
  lambda_m !! k1 = lambda_m !! k2 →
  lambda_W_slot lambda_phi lambda_beta lambda_m W_o beta_o m_o xn_xnt N d k1
  = lambda_W_slot lambda_phi lambda_beta lambda_m W_o beta_o m_o xn_xnt N d
      k2.
Proof.
  intros Ht Hb Hm. unfold lambda_W_slot.
  rewrite (tied_weighted_outers k1 k2) by done.
  destruct (weighted_outers _ _ _ _); [|done]. simpl.
  destruct (mbroadcast2 Rplus W_o _); [|done]. simpl.
  destruct (mbroadcast2 Rplus _ _); [|done]. simpl.
  rewrite (getitem_eq lambda_beta k1 k2) by done.
  destruct (getitem lambda_beta k2); [|done]. simpl.
  by rewrite (getitem_eq lambda_m k1 k2).
Qed.

Lemma sweep_ties (psi : R → R) (K : Z) (p : params) (xn : mat)
    (xn_xnt : list mat) (N D : nat) (p' : params) (Nks : vec)
    (k1 k2 : nat) :
  params_shape_in K N D p →
  sweep psi K p xn xn_xnt N D = Ok (p', Nks) →
  (k1 < Z.to_nat K)%nat → (k2 < Z.to_nat K)%nat →
  tied k1 k2 (lambda_phi p) →
  tied_params k1 k2 p'.
Proof.
  intros (Hs & Hpi & Hb & Hn & Hm & HlW & HW) H Hk1 Hk2 Ht.
  unfold sweep in H.
  apply bind_Ok in H as (pi' & Hpi' & H).
  apply bind_Ok in H as (beta' & Hbeta' & H).
  apply bind_Ok in H as (nu' & Hnu' & H).
  apply bind_Ok in H as (m' & Hm' & H).
  apply bind_Ok in H as (W' & HW' & H).
  apply bind_Ok in H as (phi' & Hphi' & H). injection H as <- _.
  unfold tied_params. simpl.
  pose proof (tied_column k1 k2 _ Ht) as Hcol.
  assert (Hpit : pi' !! k1 = pi' !! k2).
  { rewrite update_lambda_pi_map in Hpi' by done.
    apply (mapM_range_tie _ K _ _ _ Hpi' Hk1 Hk2).
    rewrite Hcol. unfold alpha_o, getitem.
    by rewrite !lookup_replicate_2 by done. }
  assert (HN : sum_axis0 (Z.to_nat K) (lambda_phi p) !! k1
               = sum_axis0 (Z.to_nat K) (lambda_phi p) !! k2).
  { destruct (column_total (lambda_phi p) k1 (Z.to_nat K)) as (col & Hc & _);
      [by destruct Hs|done|].
    rewrite (sum_axis0_lookup _ _ col k1 Hk1 Hc).
    rewrite Hcol in Hc. by rewrite (sum_axis0_lookup _ _ col k2 Hk2 Hc). }
  assert (Hcount : ∀ lam lam' c,
    for_each (range K) (λ k lam, nk ← getitem
      (sum_axis0 (Z.to_nat K) (lambda_phi p)) k; setitem lam k (c + nk)) lam
      = Ok lam' → lam' !! k1 = lam' !! k2).
  { intros lam lam' c Hrun. apply update_counts_Ok in Hrun as [_ Hv].
    destruct (Hv k1 Hk1) as (n1 & Hn1 & ->).
    destruct (Hv k2 Hk2) as (n2 & Hn2 & ->). congruence. }
  assert (Hbt : beta' !! k1 = beta' !! k2) by (by eapply Hcount).
  assert (Hnt : nu' !! k1 = nu' !! k2) by (by eapply Hcount).
  assert (Hmt : m' !! k1 = m' !! k2).
  { rewrite (update_lambda_m_map K _ _ _ _ _ _ _ D) in Hm' by done.
    apply (mapM_range_tie _ K _ _ _ Hm' Hk1 Hk2).
    by apply lambda_m_row_tie. }
  assert (HWt : W' !! k1 = W' !! k2).
  { rewrite (update_lambda_W_map _ _ _ _ _ _ _ _ _ _ D) in HW' by done.
    apply (mapM_range_tie _ K _ _ _ HW' Hk1 Hk2).
    by apply lambda_W_slot_tie. }
  do 5 (split; [done|]).
  rewrite update_lambda_phi_map in Hphi' by done.
  apply Forall_lookup. intros n row Hrow.
  destruct (mapM_seq_lookup _ _ _ n Hphi') as (row' & Hr & Hrow').
  { apply lookup_lt_Some in Hrow. apply mapM_length in Hphi'.
    rewrite length_seq in Hphi'. lia. }
  rewrite Hrow in Hrow'. injection Hrow' as <-.
  unfold phi_row in Hr. apply bind_Ok in Hr as (scores & Hsc & Hsm).
  apply (softmax_tie _ _ _ _ Hsm).
  apply (mapM_range_tie _ K _ _ _ Hsc Hk1 Hk2).
  by apply phi_score_tie.
Qed.

Lemma params_shape_in_2 (K : Z) (N : nat) (p : params) :
  params_shape K N p → params_shape_in K N 2 p.
Proof. done. Qed.

Lemma iterate_ties (psi gammaln : R → R) (multigammaln : R → nat → R)
    (K : Z) (xn : mat) (N : nat) (k1 k2 : nat) (idx : list nat) (p : params)
    (lbs0 : list R) (n0 : nat) (r : run) :
  (0 < K)%Z → has_shape N 2 xn →
  (k1 < Z.to_nat K)%nat → (k2 < Z.to_nat K)%nat →
  iterate psi gammaln multigammaln K idx xn (map (λ x, outer x x) xn) N 2 p
    lbs0 n0 = Ok r →
  params_shape K N p → Forall (Forall (λ v, 0 <= v)) (lambda_phi p) →
  tied_params k1 k2 p →
  tied_params k1 k2 (final r).
Proof.
  intros HK Hxn Hk1 Hk2. revert p lbs0 n0.
  induction idx as [|i idx IH]; intros p lbs0 n0 Hrun Hshape Hpos Ht.
  - simpl in Hrun. by injection Hrun as <-.
  - simpl in Hrun. apply bind_Ok in Hrun as ([p' Nks] & Hsweep & Hrun).
    apply bind_Ok in Hrun as (lb & _ & Hrun). simpl in Hrun.
    destruct (sweep_total_2d psi K p xn N HK Hshape Hpos Hxn)
      as (q & Nks' & Hq & Hshape' & Hpos' & _).
    rewrite Hsweep in Hq. injection Hq as <- <-.
    assert (Ht' : tied_params k1 k2 p').
    { apply (sweep_ties psi K p xn (map (λ x, outer x x) xn) N 2 p' Nks);
        try done. by destruct Ht as (_ & _ & _ & _ & _ & ?). }
    assert (Hnext :
      iterate psi gammaln multigammaln K idx xn (map (λ x, outer x x) xn)
        N 2 p' (lbs0 ++ [lb]) (S n0) = Ok r → tied_params k1 k2 (final r)).
    { intros Hr'. apply (IH _ _ _ Hr'); [done| |done].
      eapply Forall_impl; [exact Hpos'|]. intros row Hrow.
      eapply Forall_impl; [exact Hrow|]. simpl. intros; lra. }
    destruct i as [|j]; [by apply Hnext|].
    apply bind_Ok in Hrun as (prev & _ & Hrun).
    destruct (Rlt_dec _ _); [by injection Hrun as <-|by apply Hnext].
Qed.

Lemma main_ties (psi gammaln : R → R) (multigammaln : R → nat → R) (K : Z)
    (KMeans_fit_predict : Z → mat → result (list nat))
    (np_random_dirichlet : vec → nat → result mat)
    (MAX_ITERS : Z) (RANDOM_INIT : bool) (xn : mat) (N : nat)
    (p0 : params) (r : run) (k1 k2 : nat) :
  (0 < K)%Z → has_shape N 2 xn →
  initial_params K KMeans_fit_predict np_random_dirichlet RANDOM_INIT xn N 2
    = Ok p0 →
  has_shape N (Z.to_nat K) (lambda_phi p0) →
  Forall (Forall (λ v, 0 <= v)) (lambda_phi p0) →
  (k1 < Z.to_nat K)%nat → (k2 < Z.to_nat K)%nat →
  tied k1 k2 (lambda_phi p0) →
  main psi gammaln multigammaln K KMeans_fit_predict np_random_dirichlet
    MAX_ITERS RANDOM_INIT xn N 2 = Ok r →
  tied_params k1 k2 (final r).
Proof.
  intros HK Hxn Hinit Hshape Hpos Hk1 Hk2 Ht Hrun.
  unfold main in Hrun. rewrite Hinit in Hrun. simpl in Hrun.
  rewrite (xn_xnt_total xn N) in Hrun by (by destruct Hxn). simpl in Hrun.
  apply (iterate_ties _ _ _ _ _ _ k1 k2 _ _ _ _ _ HK Hxn Hk1 Hk2 Hrun);
    [|done|].
  - by apply (initial_params_shape K KMeans_fit_predict np_random_dirichlet
                RANDOM_INIT xn).
  - unfold initial_params, zeros in Hinit.
    apply bind_Ok in Hinit as (phi & _ & Hinit).
    destruct (Z.ltb_spec K 0); [done|]. simpl in Hinit.
    injection Hinit as <-. unfold tied_params. simpl.
    by rewrite !lookup_replicate_2 by done.
Qed.

Lemma tie_p0_facts :
  params_shape 2 2 tie_p0 ∧
  Forall (Forall (λ v, 0 <= v)) (lambda_phi tie_p0) ∧
  tied 0 1 (lambda_phi tie_p0).
Proof.
  split; [|split].
  - unfold params_shape, tie_p0. simpl.
    repeat split; try done; repeat constructor; done.
  - simpl. repeat constructor; lra.
  - unfold tied. simpl. by repeat constructor.
Qed.

(** A sweep cannot tell apart two components that start level.  On
    parameters of the shapes [main] allocates, if columns [k1] and [k2]
    of [lambda_phi] agree in every row, then after the sweep the two
    components have the same [lambda_pi], [lambda_beta], [lambda_nu],
    [lambda_m] and [lambda_W], and the two columns of the new
    [lambda_phi] agree again. *)
Theorem sweep_keeps_ties (psi : R → R) (K : Z) (p : params) (xn : mat)
    (xn_xnt : list mat) (N D : nat) (p' : params) (Nks : vec)
    (k1 k2 : nat) :
  params_shape_in K N D p →
  sweep psi K p xn xn_xnt N D = Ok (p', Nks) →
  (k1 < Z.to_nat K)%nat → (k2 < Z.to_nat K)%nat →
  tied k1 k2 (lambda_phi p) →
  tied_params k1 k2 p'.
Proof.
  apply sweep_ties.
Qed.

(** Two components that share both example points evenly. *)
Lemma sweep_keeps_ties_witness :
  tied 0 1 (lambda_phi tie_p0) ∧
  ∀ psi : R → R, ∃ p' Nks,
    sweep psi 2 tie_p0 ex_xn (map (λ x, outer x x) ex_xn) 2 2 = Ok (p', Nks) ∧
    tied_params 0 1 p'.
Proof.
  destruct tie_p0_facts as (Hshape & Hpos & Ht).
  split; [exact Ht|]. intros psi.
  destruct (sweep_total_2d psi 2 tie_p0 ex_xn 2)
    as (p' & Nks & Hs & _); [lia|exact Hshape|exact Hpos|exact ex_xn_shape|].
  exists p', Nks. split; [exact Hs|].
  apply (sweep_keeps_ties psi 2 tie_p0 ex_xn (map (λ x, outer x x) ex_xn)
           2 2 p' Nks 0 1 (params_shape_in_2 2 2 tie_p0 Hshape) Hs);
    [change (Z.to_nat 2) with 2%nat; lia
    |change (Z.to_nat 2) with 2%nat; lia|exact Ht].
Defined.

(** The updates never break a symmetry between components.  On points
    of the plane, if two components start with the same
    responsibilities for every point, then whatever the number of
    iterations of [main], they end with the same parameters and the
    same responsibilities. *)
Theorem run_keeps_ties (psi gammaln : R → R)
    (multigammaln : R → nat → R)
    (K : Z) (KMeans_fit_predict : Z → mat → result (list nat))
    (np_random_dirichlet : vec → nat → result mat)
    (MAX_ITERS : Z) (RANDOM_INIT : bool) (xn : mat) (N : nat)
    (p0 : params) (r : run) (k1 k2 : nat) :
  (0 < K)%Z → has_shape N 2 xn →
  initial_params K KMeans_fit_predict np_random_dirichlet RANDOM_INIT xn N 2
    = Ok p0 →
  has_shape N (Z.to_nat K) (lambda_phi p0) →
  Forall (Forall (λ v, 0 <= v)) (lambda_phi p0) →
  (k1 < Z.to_nat K)%nat → (k2 < Z.to_nat K)%nat →
  tied k1 k2 (lambda_phi p0) →
  main psi gammaln multigammaln K KMeans_fit_predict np_random_dirichlet
    MAX_ITERS RANDOM_INIT xn N 2 = Ok r →
  tied_params k1 k2 (final r).
Proof.
  apply main_ties.
Qed.

(** A hundred iterations from an even draw. *)
Lemma run_keeps_ties_witness :
  tied 0 1 [[0.5; 0.5]; [0.5; 0.5]] ∧
  ∀ (psi gammaln : R → R) (multigammaln : R → nat → R), ∃ r,
    main psi gammaln multigammaln 2 ex_KMeans tie_dirichlet 100 true ex_xn
      2 2 = Ok r ∧
    tied_params 0 1 (final r).
Proof.
  destruct tie_p0_facts as (Hshape & Hpos & Ht).
  split; [exact Ht|]. intros psi gammaln multigammaln.
  destruct (main_total psi gammaln multigammaln 2 ex_KMeans tie_dirichlet 100
    true ex_xn 2 tie_p0) as (r & Hr);
    [lia|exact ex_xn_shape|reflexivity|by destruct Hshape|exact Hpos|].
  exists r. split; [exact Hr|].
  apply (run_keeps_ties psi gammaln multigammaln 2 ex_KMeans tie_dirichlet
           100 true ex_xn 2 tie_p0 r 0 1);
    [lia|exact ex_xn_shape|reflexivity|by destruct Hshape|exact Hpos
    |change (Z.to_nat 2) with 2%nat; lia
    |change (Z.to_nat 2) with 2%nat; lia|exact Ht|exact Hr].
Defined.

End Cavi.
